(** * pyraptor: the round-based RAPTOR algorithm, embedded and verified

    The development follows [pyraptor/model/raptor.py] (the label type,
    [RaptorAlgorithm] and the journey helpers) and
    [pyraptor/query_range_raptor.py] (the range query).

    Python dictionaries are finite maps ([gmap]); a subscript [d[k]] on a
    missing key raises [KeyError], which is modelled by [None] in the
    [option] monad.  The [for] loops of the source are monadic folds over
    the list that is iterated.  Times are Python integers ([Z]). *)

From Stdlib Require Import ZArith Lia.
From stdpp Require Import base option list gmap strings sorting.

Local Open Scope Z_scope.

(** ** Loops that may raise *)

(** [for x in l: b = f(b, x)], where the body may raise. *)
Fixpoint foldM {A B : Type} (f : B → A → option B) (b : B) (l : list A)
  : option B :=
  match l with
  | [] => Some b
  | x :: l' => b' ← f b x; foldM f b' l'
  end.

Section Raptor.

(** The entity classes live in [pyraptor.model.structures]; the algorithm
    only hashes and compares them, so they are kept abstract. *)
Context {Stop Station Trip Route : Type}.
Context `{Countable Stop, Countable Station}.
Context `{EqDecision Trip, EqDecision Route}.

(** Keys of the label dictionaries: [run] stores labels for stops and,
    in the per-round bags, also for stations. *)
Local Abbreviation Key := (Stop + Station)%type.

(** What the [trip] attribute of a label can hold: Python's [None], a
    trip, or something that is neither (a marker object). *)
Inductive trip_field : Type :=
| NoTrip
| ByTrip (t : Trip)
| Marker.

(** [TripStopTime(trip, stopidx, stop, dts_arr, dts_dep, fare)]: the
    attributes the algorithm reads. *)
Record TripStopTime : Type := mkTripStopTime {
  tst_trip : Trip;
  tst_stop : Stop;
  dts_arr : Z;
  dts_dep : Z
}.

(** [Transfer(from_stop, to_stop, layovertime)]. *)
Record Transfer : Type := mkTransfer {
  tr_from_stop : Stop;
  to_stop : Stop;
  layovertime : option Z
}.

(** The part of the timetable that [RaptorAlgorithm] uses.  The
    collection classes are defined outside [raptor.py]; their methods are
    taken as they are called there. *)
Record Timetable : Type := mkTimetable {
  stops : list Stop;                        (* iteration over timetable.stops *)
  stations : list Station;                  (* iteration over timetable.stations *)
  station_stops : Station → list Stop;      (* station.stops *)
  get_routes_of_stop : Stop → list Route;   (* routes.get_routes_of_stop *)
  stop_index : Route → Stop → nat;          (* route.stop_index *)
  route_stops : Route → list Stop;          (* route.stops *)
  get_stop : Trip → Stop → TripStopTime;    (* trip.get_stop *)
  earliest_trip_stop_time : Route → Z → Stop → option TripStopTime;
  from_stop_idx : Stop → option (list Transfer);
                                            (* transfers.from_stop_idx[stop.id] *)
get_trip_stop_times_in_range : list Stop → Z → Z → list TripStopTime
                        (* trip_stop_times.get_trip_stop_times_in_range *)
}.

Variable timetable : Timetable.

(** [pyraptor.util.LARGE_NUMBER] and [pyraptor.util.TRANSFER_TRIP]. *)
Variable LARGE_NUMBER : Z.
Variable TRANSFER_TRIP : trip_field.

(** The order in which Python iterates over
    [set(marked_trip_stops).union(marked_transfer_stops)]. *)
Variable set_order : list Stop → list Stop.

(** ** Label *)

Record Label : Type := mkLabel {
  earliest_arrival_time : Z;
  trip : trip_field;
  from_stop : option Stop
}.

(** [Label()] *)
Definition new_Label : Label :=
  {| earliest_arrival_time := LARGE_NUMBER; trip := NoTrip; from_stop := None |}.

(** [Label.update] *)
Definition update (self : Label) (eat : option Z) (trp : trip_field)
    (frm : option Stop) : Label :=
  {| earliest_arrival_time :=
       match eat with Some t => t | None => earliest_arrival_time self end;
     trip := trp;
     from_stop :=
       match frm with Some s => Some s | None => from_stop self end |}.

(** [Label.is_dominating] *)
Definition is_dominating (self other : Label) : bool :=
  earliest_arrival_time self <=? earliest_arrival_time other.

(** ** State of one run

    The attributes of the [RaptorAlgorithm] object together with the local
    [bag_round_stop] of [run], which is passed to and returned by every
    phase. *)
Record State : Type := mkState {
  bag_round_stop : gmap Z (gmap Key Label);
  bag_star : gmap Key Label;
  destination_stops : gset Stop;
  earliest_arrival_at_destination : Z
}.

(** [bag_round_stop[k][p].update(eat, trp, frm)] *)
Definition update_round (brs : gmap Z (gmap Key Label)) (k : Z) (p : Key)
    (eat : option Z) (trp : trip_field) (frm : option Stop)
  : option (gmap Z (gmap Key Label)) :=
  bk ← brs !! k;
  l ← bk !! p;
  Some (<[k := <[p := update l eat trp frm]> bk]> brs).

(** [self.bag_star[p].update(eat, trp, frm)] *)
Definition update_star (bs : gmap Key Label) (p : Key)
    (eat : option Z) (trp : trip_field) (frm : option Stop)
  : option (gmap Key Label) :=
  l ← bs !! p;
  Some (<[p := update l eat trp frm]> bs).

(** Both updates of an improvement, in the order of the source. *)
Definition update_both (st : State) (k : Z) (p : Stop)
    (eat : Z) (trp : trip_field) (frm : option Stop) : option State :=
  brs ← update_round (bag_round_stop st) k (inl p) (Some eat) trp frm;
  bs ← update_star (bag_star st) (inl p) (Some eat) trp frm;
  Some {| bag_round_stop := brs;
          bag_star := bs;
          destination_stops := destination_stops st;
          earliest_arrival_at_destination := earliest_arrival_at_destination st |}.

(** [self.earliest_arrival_at_destination = v] *)
Definition set_bound (st : State) (v : Z) : State :=
  {| bag_round_stop := bag_round_stop st;
     bag_star := bag_star st;
     destination_stops := destination_stops st;
     earliest_arrival_at_destination := v |}.

(** ** accumulate_routes

    [route_marked_stops] is a dictionary keyed by route whose items are
    read in insertion order: an association list, where assigning to an
    existing key keeps its position. *)
Fixpoint q_get (r : Route) (q : list (Route * Stop)) : option Stop :=
  match q with
  | [] => None
  | (r', p) :: q' => if decide (r' = r) then Some p else q_get r q'
  end.

Fixpoint q_set (r : Route) (p : Stop) (q : list (Route * Stop))
  : list (Route * Stop) :=
  match q with
  | [] => [(r, p)]
  | (r', p') :: q' =>
      if decide (r' = r) then (r, p) :: q' else (r', p') :: q_set r p q'
  end.

Definition accumulate_route (marked_stop : Stop) (q : list (Route * Stop))
    (route : Route) : list (Route * Stop) :=
  match q_get route q with
  | None => q_set route marked_stop q
  | Some current_stop_for_route =>
      if (stop_index timetable route marked_stop
            <? stop_index timetable route current_stop_for_route)%nat
      then q_set route marked_stop q
      else q
  end.

Definition accumulate_routes (marked_stops : list Stop) : list (Route * Stop) :=
  foldl (λ q marked_stop,
           foldl (accumulate_route marked_stop) q
                 (get_routes_of_stop timetable marked_stop))
        [] marked_stops.

(** ** traverse_routes *)

(** The variables of the loop over the remaining stops of one route. *)
Record Scan : Type := mkScan {
  sc_state : State;
  sc_new_stops : list Stop;
  sc_current_trip : option Trip;
  sc_boarding_stop : option Stop
}.

(** First half of the loop body: [if current_trip is not None: ...]. *)
Definition improve_by_trip (k : Z) (st : State) (new_stops : list Stop)
    (current_trip : option Trip) (boarding_stop : option Stop)
    (current_stop : Stop) : option (State * list Stop) :=
  match current_trip with
  | None => Some (st, new_stops)
  | Some t =>
      let new_arrival_time := dts_arr (get_stop timetable t current_stop) in
      best ← bag_star st !! inl current_stop;
      let best_arrival_time_in_stop := earliest_arrival_time best in
      if (new_arrival_time <? best_arrival_time_in_stop)
         && (new_arrival_time <? earliest_arrival_at_destination st)
      then
        st' ← update_both st k current_stop new_arrival_time (ByTrip t)
                          boarding_stop;
        let st'' :=
          if decide (current_stop ∈ destination_stops st')
          then set_bound st' new_arrival_time
          else st' in
        Some (st'', new_stops ++ [current_stop])
      else Some (st, new_stops)
  end.

(** Second half: [Can we catch an earlier trip at p_i]. *)
Definition catch_trip (k : Z) (marked_route : Route) (st : State)
    (current_trip : option Trip) (boarding_stop : option Stop)
    (current_stop : Stop) : option (option Trip * option Stop) :=
  prev_bag ← bag_round_stop st !! (k - 1);
  prev ← prev_bag !! inl current_stop;
  let previous_earliest_arrival_time := earliest_arrival_time prev in
  if match current_trip with
     | None => true
     | Some t => previous_earliest_arrival_time
                   <=? dts_dep (get_stop timetable t current_stop)
     end
  then
    match earliest_trip_stop_time timetable marked_route
            previous_earliest_arrival_time current_stop with
    | Some tst =>
        if decide (Some (tst_trip tst) ≠ current_trip)
        then Some (Some (tst_trip tst), Some current_stop)
        else Some (current_trip, boarding_stop)
    | None => Some (current_trip, boarding_stop)
    end
  else Some (current_trip, boarding_stop).

Definition scan_stop (k : Z) (marked_route : Route) (sc : Scan)
    (current_stop : Stop) : option Scan :=
  '(st, new_stops) ← improve_by_trip k (sc_state sc) (sc_new_stops sc)
                       (sc_current_trip sc) (sc_boarding_stop sc) current_stop;
  '(current_trip, boarding_stop) ←
      catch_trip k marked_route st (sc_current_trip sc) (sc_boarding_stop sc)
                 current_stop;
  Some {| sc_state := st; sc_new_stops := new_stops;
          sc_current_trip := current_trip;
          sc_boarding_stop := boarding_stop |}.

Definition scan_route (k : Z) (acc : State * list Stop)
    (rp : Route * Stop) : option (State * list Stop) :=
  let '(marked_route, marked_stop) := rp in
  let current_stop_index := stop_index timetable marked_route marked_stop in
  let remaining_stops_in_route :=
    drop current_stop_index (route_stops timetable marked_route) in
  sc ← foldM (scan_stop k marked_route)
             {| sc_state := acc.1; sc_new_stops := acc.2;
                sc_current_trip := None; sc_boarding_stop := None |}
             remaining_stops_in_route;
  Some (sc_state sc, sc_new_stops sc).

Definition traverse_routes (st : State) (k : Z)
    (route_marked_stops : list (Route * Stop)) : option (State * list Stop) :=
  foldM (scan_route k) (st, []) route_marked_stops.

(** ** add_transfer_time *)

Definition relax_transfer (k : Z) (current_stop : Stop) (time_sofar : Z)
    (acc : State * list Stop) (transfer : Transfer)
  : option (State * list Stop) :=
  let arrive_stop := to_stop transfer in
  match layovertime transfer with
  | None => Some acc
  | Some transfer_time =>
      let new_earliest_arrival := time_sofar + transfer_time in
      prev ← bag_star acc.1 !! inl arrive_stop;
      let previous_earliest_arrival := earliest_arrival_time prev in
      if new_earliest_arrival <? previous_earliest_arrival
      then
        st' ← update_both acc.1 k arrive_stop new_earliest_arrival
                          TRANSFER_TRIP (Some current_stop);
        Some (st', acc.2 ++ [arrive_stop])
      else Some acc
  end.

Definition relax_stop (k : Z) (acc : State * list Stop) (current_stop : Stop)
  : option (State * list Stop) :=
  bk ← bag_round_stop acc.1 !! k;
  l ← bk !! inl current_stop;
  let time_sofar := earliest_arrival_time l in
  transfers ← from_stop_idx timetable current_stop;
  foldM (relax_transfer k current_stop time_sofar) acc transfers.

Definition add_transfer_time (st : State) (k : Z) (marked_stops : list Stop)
  : option (State * list Stop) :=
  foldM (relax_stop k) (st, []) marked_stops.

(** ** run *)

(** [for p in self.timetable.stops: bag[p] = Label()] *)
Definition add_stop_labels (bag : gmap Key Label) : gmap Key Label :=
  foldl (λ m p, <[inl p := new_Label]> m) bag (stops timetable).

(** [for s in self.timetable.stations: bag[s] = Label()] *)
Definition add_station_labels (bag : gmap Key Label) : gmap Key Label :=
  foldl (λ m s, <[inr s := new_Label]> m) bag (stations timetable).

(** The first loop of [run]: [range(0, rounds + 1)] is [seqZ 0 (rounds + 1)]. *)
Definition init_bag_round_stop (rounds : Z) : gmap Z (gmap Key Label) :=
  foldl (λ brs k, <[k := add_station_labels (add_stop_labels ∅)]> brs)
        ∅ (seqZ 0 (rounds + 1)).

(** The state of a fresh [RaptorAlgorithm(timetable)] once [run] has built
    its bags, before the origin stops are written. *)
Definition init_state (to_station : Station) (rounds : Z) : State :=
  {| bag_round_stop := init_bag_round_stop rounds;
     bag_star := add_stop_labels ∅;
     destination_stops := list_to_set (station_stops timetable to_station);
     earliest_arrival_at_destination := LARGE_NUMBER |}.

(** Body of [for from_stop in from_stops]. *)
Definition mark_origin (dep_secs : Z) (acc : State * list Stop)
    (from_stop : Stop) : option (State * list Stop) :=
  st' ← update_both acc.1 0 from_stop dep_secs NoTrip None;
  Some (st', acc.2 ++ [from_stop]).

(** One round: the body of [for k in range(1, rounds + 1)] when some stop
    is marked. *)
Definition round (k : Z) (st : State) (marked_stops : list Stop)
  : option (State * list Stop) :=
  let route_marked_stops := accumulate_routes marked_stops in
  '(st1, marked_trip_stops) ← traverse_routes st k route_marked_stops;
  '(st2, marked_transfer_stops) ← add_transfer_time st1 k marked_trip_stops;
  Some (st2, set_order (marked_trip_stops ++ marked_transfer_stops)).

(** The loop over the rounds, with its [break]. *)
Fixpoint run_rounds (ks : list Z) (st : State) (marked_stops : list Stop)
  : option State :=
  match ks with
  | [] => Some st
  | k :: ks' =>
      if bool_decide (0 < length marked_stops)%nat
      then '(st', marked') ← round k st marked_stops;
           run_rounds ks' st' marked'
      else Some st
  end.

(** [run], returning the whole final state. *)
Definition run_state (from_stops : list Stop) (to_station : Station)
    (dep_secs rounds : Z) : option State :=
  '(st0, marked_stops) ←
      foldM (mark_origin dep_secs) (init_state to_station rounds, []) from_stops;
  run_rounds (seqZ 1 rounds) st0 marked_stops.

(** [RaptorAlgorithm(timetable).run(from_stops, to_station, dep_secs, rounds)] *)
Definition run (from_stops : list Stop) (to_station : Station)
    (dep_secs rounds : Z) : option (gmap Key Label) :=
  bag_star <$> run_state from_stops to_station dep_secs rounds.

(** ** best_stop_at_target_station *)

(** The result is a stop or the integer [0]. *)
Inductive final_stop : Type :=
| Zero
| FinalStop (s : Stop).

Definition best_stop_step (bag : gmap Key Label) (acc : final_stop * Z)
    (stop : Stop) : option (final_stop * Z) :=
  l ← bag !! inl stop;
  if earliest_arrival_time l <? acc.2
  then Some (FinalStop stop, earliest_arrival_time l)
  else Some acc.

Definition best_stop_at_target_station (to_stops : list Stop)
    (bag : gmap Key Label) : option final_stop :=
  fst <$> foldM (best_stop_step bag) (Zero, LARGE_NUMBER) to_stops.

(** ** Journeys *)

(** [Leg(from_stop, to_stop, trip, earliest_arrival_time)] *)
Record Leg : Type := mkLeg {
  leg_from_stop : Stop;
  leg_to_stop : Stop;
  leg_trip : trip_field;
  leg_earliest_arrival_time : Z
}.

(** Modelled from the spec: [Journey] of [pyraptor.model.structures] is
    missing from the sources; the spec has it as an ordered sequence of
    Legs.  [Journey()] is the empty sequence and [prepend_leg] puts a leg
    in front. *)
Definition Journey : Type := list Leg.
Definition new_Journey : Journey := [].
Definition prepend_leg (journey : Journey) (leg : Leg) : Journey := leg :: journey.

(** The exceptions of the two queries: [KeyError] of a subscript on a
    missing key, [AttributeError] of an attribute of [None], and
    [JourneyError] for whatever [Journey.dep] or [Journey.arr] raises. *)
Inductive exception : Type :=
| KeyError
| AttributeError
| JourneyError.

(** What a call with a loop can do: return, raise, or still be running
    when the fuel is used up. *)
Inductive result (A : Type) : Type :=
| Returns (a : A)
| Raises (e : exception)
| OutOfFuel.
Global Arguments Returns {A} a.
Global Arguments Raises {A} e.
Global Arguments OutOfFuel {A}.

(** ** reconstruct_journey: the [while] loop, with fuel *)
Fixpoint reconstruct_loop (fuel : nat) (bag : gmap Key Label)
    (to_stop : Stop) (journey : Journey) : result Journey :=
  match fuel with
  | O => OutOfFuel
  | S fuel' =>
      match bag !! inl to_stop with
      | None => Raises KeyError
      | Some bag_to_stop =>
          match from_stop bag_to_stop with
          | None => Returns journey
          | Some frm =>
              let leg := {| leg_from_stop := frm;
                            leg_to_stop := to_stop;
                            leg_trip := trip bag_to_stop;
                            leg_earliest_arrival_time :=
                              earliest_arrival_time bag_to_stop |} in
              reconstruct_loop fuel' bag frm (prepend_leg journey leg)
          end
      end
  end.

Definition reconstruct_journey (fuel : nat) (destination : Stop)
    (bag : gmap Key Label) : result Journey :=
  reconstruct_loop fuel bag destination new_Journey.

(** ** The station index

    Modelled from the spec: the class [Stations] of
    [pyraptor.model.structures] is missing from the sources.  The spec has
    an index from station name to Station, with stations deduplicated by
    name, so a station is identified with its name.  [stations.get(name)]
    is [None] for a name that is no station of the timetable;
    [stations[name]] and [stations.get_stops(name)] are subscripts of the
    index, which raise [KeyError] for such a name. *)
Definition stations_get (name : Station) : option Station :=
  if decide (name ∈ stations timetable) then Some name else None.

Definition stations_getitem (name : Station) : option Station :=
  stations_get name.

Definition stations_get_stops (name : Station) : option (list Stop) :=
  station ← stations_getitem name; Some (station_stops timetable station).

(** ** run_raptor: the point query of [query_raptor.py]

    [None] inside the result is Python's [None], returned when no
    destination stop was reached.  [stations.get(name).stops] raises
    [AttributeError] when the name is no station of the timetable. *)
Definition run_raptor (fuel : nat) (origin_station destination_station : Station)
    (dep_secs rounds : Z) : result (option Journey) :=
  match stations_get origin_station with
  | None => Raises AttributeError
  | Some origin =>
      let from_stops := station_stops timetable origin in
      match stations_get destination_station with
      | None => Raises AttributeError
      | Some destination =>
          let to_stops := station_stops timetable destination in
          match stations_getitem destination_station with
          | None => Raises KeyError
          | Some station =>
              match run from_stops station dep_secs rounds with
              | None => Raises KeyError
              | Some best_labels =>
                  match best_stop_at_target_station to_stops best_labels with
                  | None => Raises KeyError
                  | Some Zero => Returns None
                  | Some (FinalStop dest_stop) =>
                      match reconstruct_journey fuel dest_stop best_labels with
                      | Returns journey => Returns (Some journey)
                      | Raises e => Raises e
                      | OutOfFuel => OutOfFuel
                      end
                  end
              end
          end
      end
  end.

(** ** is_dominated *)

(** The methods of [Journey] that [is_dominated] calls: the truth value of
    a journey object ([not original_journey]), [dep()] and [arr()].  The
    last two read the trips of the legs; they are [None] when the call
    raises. *)
Variable Journey_bool : Journey → bool.
Variable dep : Journey → option Z.
Variable arr : Journey → option Z.

#[global] Instance trip_field_eq_dec : EqDecision trip_field.
Proof. solve_decision. Defined.

#[global] Instance Leg_eq_dec : EqDecision Leg.
Proof. solve_decision. Defined.

Definition is_dominated (original_journey new_journey : Journey)
  : option bool :=
  if negb (Journey_bool original_journey) then Some false
  else if decide (original_journey = new_journey) then Some true
  else
    original_depart ← dep original_journey;
    new_depart ← dep new_journey;
    original_arrival ← arr original_journey;
    new_arrival ← arr new_journey;
    Some (((original_depart >=? new_depart) && (original_arrival <? new_arrival))
          || ((original_depart >? new_depart)
              && (original_arrival <=? new_arrival))).

(** ** run_range_raptor *)

(** [sorted(list(set([tst.dts_dep for tst in ...])), reverse=True)] *)
Definition potential_dep_secs (from_stops : list Stop)
    (dep_secs_min dep_secs_max : Z) : list Z :=
  merge_sort Z.ge
    (remove_dups
       (map dts_dep
            (get_trip_stop_times_in_range timetable from_stops
                                          dep_secs_min dep_secs_max))).

(** The acceptance test and the [append] of the loop body; [None] when
    [is_dominated] raises. *)
Definition accept (journeys_to_destinations : list Journey) (journey : Journey)
  : option (list Journey) :=
  match last journeys_to_destinations with
  | None => Some (journeys_to_destinations ++ [journey])
  | Some previous =>
      dominated ← is_dominated previous journey;
      Some (if negb dominated
            then journeys_to_destinations ++ [journey]
            else journeys_to_destinations)
  end.

(** Body of [for dep_index, dep_secs in enumerate(potential_dep_secs)]. *)
Definition range_step (fuel : nat) (from_stops to_stops : list Stop)
    (destination_station : Station) (rounds : Z)
    (journeys_to_destinations : list Journey) (dep_secs : Z)
  : result (list Journey) :=
  match stations_getitem destination_station with
  | None => Raises KeyError
  | Some station =>
      match run from_stops station dep_secs rounds with
      | None => Raises KeyError
      | Some best_labels =>
          match best_stop_at_target_station to_stops best_labels with
          | None => Raises KeyError
          | Some Zero => Returns journeys_to_destinations
          | Some (FinalStop dest_stop) =>
              match reconstruct_journey fuel dest_stop best_labels with
              | Returns journey =>
                  match accept journeys_to_destinations journey with
                  | Some journeys => Returns journeys
                  | None => Raises JourneyError
                  end
              | Raises e => Raises e
              | OutOfFuel => OutOfFuel
              end
          end
      end
  end.

Fixpoint range_loop (fuel : nat) (from_stops to_stops : list Stop)
    (destination_station : Station) (rounds : Z)
    (journeys_to_destinations : list Journey) (dep_secs_list : list Z)
  : result (list Journey) :=
  match dep_secs_list with
  | [] => Returns journeys_to_destinations
  | dep_secs :: rest =>
      match range_step fuel from_stops to_stops destination_station rounds
                       journeys_to_destinations dep_secs with
      | Returns journeys' =>
          range_loop fuel from_stops to_stops destination_station rounds
                     journeys' rest
      | Raises e => Raises e
      | OutOfFuel => OutOfFuel
      end
  end.

Definition run_range_raptor (fuel : nat)
    (origin_station destination_station : Station)
    (dep_secs_min dep_secs_max rounds : Z) : result (list Journey) :=
  match stations_get_stops origin_station with
  | None => Raises KeyError
  | Some from_stops =>
      match stations_get_stops destination_station with
      | None => Raises KeyError
      | Some to_stops =>
          range_loop fuel from_stops to_stops destination_station rounds []
                     (potential_dep_secs from_stops dep_secs_min dep_secs_max)
      end
  end.

(** ** Vocabulary of the properties *)

(** One write of a round: an improvement of a stop's labels, which every
    phase guards by a strict comparison with the stop's arrival time in
    [bag_star], or a new value of the destination bound. *)
Inductive wstep (k : Z) : State → State → Prop :=
| wstep_write st st' p v trp frm ls :
    bag_star st !! inl p = Some ls →
    v < earliest_arrival_time ls →
    update_both st k p v trp frm = Some st' →
    wstep k st st'
| wstep_bound st v :
    wstep k st (set_bound st v).

(** [bag_round_stop[k][key]], when both subscripts are defined. *)
Definition round_label (st : State) (k : Z) (key : Key) : option Label :=
  bk ← bag_round_stop st !! k; bk !! key.

(** The keys under which the stops of the timetable are stored. *)
Definition stop_keys : gset Key :=
  list_to_set ((inl <$> stops timetable) : list Key).

(** The keys under which its stations are stored. *)
Definition station_keys : gset Key :=
  list_to_set ((inr <$> stations timetable) : list Key).

(** The arrival time of [bag_star] at a key is at most the arrival time of
    every round's label at that key. *)
Definition star_below_rounds (st : State) : Prop :=
  ∀ j key lj ls,
    round_label st j key = Some lj → bag_star st !! key = Some ls →
    earliest_arrival_time ls ≤ earliest_arrival_time lj.

(** No label holds an arrival time above the sentinel. *)
Definition labels_bounded (st : State) : Prop :=
  (∀ key l, bag_star st !! key = Some l → earliest_arrival_time l ≤ LARGE_NUMBER)
  ∧ (∀ j key l, round_label st j key = Some l →
       earliest_arrival_time l ≤ LARGE_NUMBER).

(** The labels of the rounds after [k] are as [Label()] made them. *)
Definition later_rounds_fresh (k : Z) (st : State) : Prop :=
  ∀ j key l, k < j → round_label st j key = Some l → l = new_Label.

(** A label of a round [j ≥ 1] is as [Label()] made it, or its arrival time
    is strictly below the one of the round before. *)
Definition rounds_improve (st : State) : Prop :=
  ∀ j key l l',
    1 ≤ j → round_label st j key = Some l → round_label st (j - 1) key = Some l' →
    l = new_Label ∨ earliest_arrival_time l < earliest_arrival_time l'.

Definition round_inv (k : Z) (st : State) : Prop :=
  star_below_rounds st ∧ labels_bounded st
  ∧ later_rounds_fresh k st ∧ rounds_improve st.

(** The stops that the algorithm can meet are stops of the timetable: the
    stops of every route that serves some stop, and the targets of the
    transfers, which are listed for every stop. *)
Definition timetable_closed : Prop :=
  (∀ m r p, r ∈ get_routes_of_stop timetable m →
            p ∈ route_stops timetable r → p ∈ stops timetable)
  ∧ (∀ c, c ∈ stops timetable →
          ∃ trs, from_stop_idx timetable c = Some trs
                 ∧ ∀ tr, tr ∈ trs → to_stop tr ∈ stops timetable).

(** The tables have the keys that [run] gave them: the stops in
    [bag_star], the stops and the stations in the bags of the rounds
    [0 .. rounds]. *)
Definition tables_ok (rounds : Z) (st : State) : Prop :=
  dom (bag_star st) = stop_keys
  ∧ ∀ j, 0 ≤ j ≤ rounds →
         dom <$> (bag_round_stop st !! j) = Some (stop_keys ∪ station_keys).

(** From [st] to [st'], every label of [bag_star] is unchanged or has a
    strictly smaller arrival time. *)
Definition star_le (st' st : State) : Prop :=
  ∀ key l, bag_star st !! key = Some l →
    ∃ l', bag_star st' !! key = Some l'
          ∧ (l' = l ∨ earliest_arrival_time l' < earliest_arrival_time l).

(** What the origin loop of [run] writes into a label. *)
Definition origin_label (dep_secs : Z) (l : Label) : Label :=
  update l (Some dep_secs) NoTrip None.

(** The backward walk of [reconstruct_journey]: from a stop along the
    from-stops of the labels, down to a label without from-stop, with the
    legs in the order in which the walk makes them (last leg of the journey
    first). *)
Inductive backward_walk (bag : gmap Key Label) : Stop → list Leg → Prop :=
| walk_origin p l :
    bag !! inl p = Some l → from_stop l = None →
    backward_walk bag p []
| walk_leg p l q legs :
    bag !! inl p = Some l → from_stop l = Some q →
    backward_walk bag q legs →
    backward_walk bag p
      ({| leg_from_stop := q; leg_to_stop := p; leg_trip := trip l;
          leg_earliest_arrival_time := earliest_arrival_time l |} :: legs).

(** Domination as the spec words it: journey [a] is dominated by journey
    [b] when [b] departs no earlier and arrives no later than [a], with at
    least one strict inequality. *)
Definition dominated_by (a b : Journey) : Prop :=
  ∃ dep_a arr_a dep_b arr_b,
    dep a = Some dep_a ∧ arr a = Some arr_a
    ∧ dep b = Some dep_b ∧ arr b = Some arr_b
    ∧ dep_a ≤ dep_b ∧ arr_b ≤ arr_a ∧ (dep_a < dep_b ∨ arr_b < arr_a).

(** [dep()] and [arr()] return for both journeys. *)
Definition times_known (a b : Journey) : Prop :=
  is_Some (dep a) ∧ is_Some (arr a) ∧ is_Some (dep b) ∧ is_Some (arr b).

(** [dep()] and [arr()] return for the journey. *)
Definition has_times (journey : Journey) : Prop :=
  is_Some (dep journey) ∧ is_Some (arr journey).

(** Every journey of the list is not dominated, in the sense of
    [is_dominated], by the one before it. *)
Definition adjacent_undominated (journeys : list Journey) : Prop :=
  ∀ l1 b a l2, journeys = l1 ++ b :: a :: l2 → is_dominated b a = Some false.

(** What the traversal needs of [earliest_trip_stop_time] and [get_stop]:
    the stop time returned for a stop of a route departs no earlier than
    the time asked for, and its trip reaches the later stops of the route
    no earlier than it departs here.  This is what non-decreasing stop
    times along every trip give. *)
Definition boarding_sound : Prop :=
  ∀ r dts pre c post tst,
    route_stops timetable r = pre ++ c :: post →
    earliest_trip_stop_time timetable r dts c = Some tst →
    dts ≤ dts_dep tst
    ∧ ∀ q, q ∈ post →
           dts_dep tst ≤ dts_arr (get_stop timetable (tst_trip tst) q).

(** No transfer has a negative layover. *)
Definition layovers_non_negative : Prop :=
  ∀ c trs tr cost,
    from_stop_idx timetable c = Some trs → tr ∈ trs →
    layovertime tr = Some cost → 0 ≤ cost.

(** Every bag has the keys that [run] gave it. *)
Definition keys_ok (st : State) : Prop :=
  dom (bag_star st) = stop_keys
  ∧ ∀ j bj, bag_round_stop st !! j = Some bj → dom bj = stop_keys ∪ station_keys.

(** The state invariants that the traversal relies on. *)
Definition scan_ok (k : Z) (st : State) : Prop :=
  round_inv k st ∧ keys_ok st.

(** While a route is scanned: if a trip is held, it was boarded at a stop
    whose label in [bag_star] has an arrival time that is not after the
    trip's arrival at any of the stops [rest] still to come. *)
Definition boarded (st : State) (current_trip : option Trip)
    (boarding_stop : option Stop) (rest : list Stop) : Prop :=
  ∀ t, current_trip = Some t →
    ∃ b lb, boarding_stop = Some b ∧ bag_star st !! inl b = Some lb
            ∧ ∀ q, q ∈ rest →
                earliest_arrival_time lb ≤ dts_arr (get_stop timetable t q).

(** No label of a round is below the sentinel, and the destination bound
    is not above it: nothing has been reached. *)
Definition unreached (st : State) : Prop :=
  (∀ j key l, round_label st j key = Some l →
     LARGE_NUMBER ≤ earliest_arrival_time l)
  ∧ earliest_arrival_at_destination st ≤ LARGE_NUMBER.

(** The trip held, if any, arrives at the stops still to come no earlier
    than the sentinel. *)
Definition boarded_late (current_trip : option Trip) (rest : list Stop) : Prop :=
  ∀ t, current_trip = Some t →
    ∀ q, q ∈ rest → LARGE_NUMBER ≤ dts_arr (get_stop timetable t q).

(** A guarded write whose from-stop has a label in [bag_star] with an
    arrival time that is not after the value written. *)
Inductive cstep (k : Z) : State → State → Prop :=
| cstep_write st st' p v trp b ls lb :
    bag_star st !! inl p = Some ls →
    v < earliest_arrival_time ls →
    bag_star st !! inl b = Some lb →
    earliest_arrival_time lb ≤ v →
    update_both st k p v trp (Some b) = Some st' →
    cstep k st st'
| cstep_bound st v :
    cstep k st (set_bound st v).

(** The from-stops of [bag_star] lead to labels with arrival times that
    are not larger, and among equal arrival times to labels of smaller
    rank: the table has no cycle of from-stops. *)
Definition chain_inv (bag : gmap Key Label) : Prop :=
  ∃ (rank : Stop → nat) (bound : nat),
    (∀ s, (rank s < bound)%nat)
    ∧ ∀ p l q,
        bag !! inl p = Some l → from_stop l = Some q →
        ∃ lq, bag !! inl q = Some lq
              ∧ (earliest_arrival_time lq < earliest_arrival_time l
                 ∨ (earliest_arrival_time lq = earliest_arrival_time l
                    ∧ (rank q < rank p)%nat)).


(** [p] is the first of the marked stops served by route [r] that comes
    earliest in [r]: the marked stops before it that [r] serves have a
    strictly larger index in [r], those after it an index that is not
    smaller. *)
Definition earliest_marked (marked_stops : list Stop) (r : Route) (p : Stop)
  : Prop :=
  ∃ pre post,
    marked_stops = pre ++ p :: post
    ∧ r ∈ get_routes_of_stop timetable p
    ∧ (∀ m, m ∈ pre → r ∈ get_routes_of_stop timetable m →
         (stop_index timetable r p < stop_index timetable r m)%nat)
    ∧ (∀ m, m ∈ post → r ∈ get_routes_of_stop timetable m →
         (stop_index timetable r p ≤ stop_index timetable r m)%nat).


(** Consecutive legs meet: each leg ends at the stop where the next one
    starts. *)
Definition legs_connected (journey : Journey) : Prop :=
  ∀ js1 a b js2,
    journey = js1 ++ a :: b :: js2 → leg_to_stop a = leg_from_stop b.

(** A leg as [reconstruct_journey] makes it from the label of its
    to-stop. *)
Definition leg_of_label (bag : gmap Key Label) (leg : Leg) : Prop :=
  ∃ l, bag !! inl (leg_to_stop leg) = Some l
       ∧ from_stop l = Some (leg_from_stop leg)
       ∧ leg_trip leg = trip l
       ∧ leg_earliest_arrival_time leg = earliest_arrival_time l.


(** One write of a round, together with the list of the stops marked so
    far.  An improvement of a stop gives its label in the bag of the round
    and its label in [bag_star] a new arrival time, below the one that
    [bag_star] held, a trip field and a from-stop, and appends the stop to
    the list.  A change of the destination bound sets it to the arrival
    time that [bag_star] holds for a destination stop, which is below the
    bound. *)
Inductive mstep (k : Z) : State * list Stop → State * list Stop → Prop :=
| mstep_write st st' ns p v trp b ls :
    bag_star st !! inl p = Some ls →
    v < earliest_arrival_time ls →
    update_both st k p v trp (Some b) = Some st' →
    mstep k (st, ns) (st', ns ++ [p])
| mstep_bound st ns p ls :
    p ∈ destination_stops st →
    bag_star st !! inl p = Some ls →
    earliest_arrival_time ls < earliest_arrival_at_destination st →
    mstep k (st, ns) (set_bound st (earliest_arrival_time ls), ns).

(** From [st] to [st'], the stops [added] have been improved in round [k]
    and no other: in [bag_star] an added stop has a label with a strictly
    smaller arrival time and a from-stop, and the bag of round [k] holds
    the same label for it; the labels of the other stops are as they were,
    in [bag_star] and in the bag of round [k]. *)
Definition improved (k : Z) (st st' : State) (added : list Stop) : Prop :=
  (∀ p, p ∈ added →
     ∃ l l', bag_star st !! inl p = Some l
             ∧ bag_star st' !! inl p = Some l'
             ∧ earliest_arrival_time l' < earliest_arrival_time l
             ∧ is_Some (from_stop l')
             ∧ round_label st' k (inl p) = Some l')
  ∧ (∀ p, p ∉ added →
       bag_star st' !! inl p = bag_star st !! inl p
       ∧ round_label st' k (inl p) = round_label st k (inl p)).

(** From [st] to [st'], nothing but the labels of stops in [bag_star] and
    in the bag of round [k] has changed, except that the destination bound
    may have become smaller: the bags of the other rounds, the labels
    stored for stations and the set of destination stops are as they
    were. *)
Definition framed (k : Z) (st st' : State) : Prop :=
  (∀ j key, j ≠ k → round_label st' j key = round_label st j key)
  ∧ (∀ j s, round_label st' j (inr s) = round_label st j (inr s))
  ∧ (∀ s, bag_star st' !! inr s = bag_star st !! inr s)
  ∧ destination_stops st' = destination_stops st
  ∧ earliest_arrival_at_destination st' ≤ earliest_arrival_at_destination st.


(** The point query of [run_raptor] and of the body of the loop of
    [run_range_raptor], on given origin and destination stops: [run], the
    selector, and [reconstruct_journey] when a destination stop was
    reached. *)
Definition point_query (fuel : nat) (from_stops to_stops : list Stop)
    (destination_station : Station) (dep_secs rounds : Z)
  : result (option Journey) :=
  match run from_stops destination_station dep_secs rounds with
  | None => Raises KeyError
  | Some best_labels =>
      match best_stop_at_target_station to_stops best_labels with
      | None => Raises KeyError
      | Some Zero => Returns None
      | Some (FinalStop dest_stop) =>
          match reconstruct_journey fuel dest_stop best_labels with
          | Returns journey => Returns (Some journey)
          | Raises e => Raises e
          | OutOfFuel => OutOfFuel
          end
      end
  end.


(** A label that the route traversal of round [k] writes for stop [p]:
    the arrival time at [p] of a trip [t], the trip, and the stop [b]
    where it was boarded.  [b] comes before [p] in a route [r], and [t] is
    the trip of the stop time that [earliest_trip_stop_time] gives at [b]
    for the arrival time of the label of [b] in round [k - 1]. *)
Definition by_trip (st : State) (k : Z) (p : Stop) (l : Label) : Prop :=
  ∃ r t b lb tst pre mid post,
    l = {| earliest_arrival_time := dts_arr (get_stop timetable t p);
           trip := ByTrip t; from_stop := Some b |}
    ∧ route_stops timetable r = pre ++ b :: mid ++ p :: post
    ∧ round_label st (k - 1) (inl b) = Some lb
    ∧ earliest_trip_stop_time timetable r (earliest_arrival_time lb) b
      = Some tst
    ∧ tst_trip tst = t.

(** A label that the transfer phase of round [k] writes for stop [p]: the
    marker of transfers, the stop [c] where the transfer starts, and an
    arrival time that is the layover of a transfer from [c] to [p] added
    to a time that is not before the arrival time of the label of [c] in
    round [k]. *)
Definition by_transfer (st : State) (k : Z) (p : Stop) (l : Label) : Prop :=
  ∃ c trs tr cost ts lc,
    l = {| earliest_arrival_time := ts + cost;
           trip := TRANSFER_TRIP; from_stop := Some c |}
    ∧ from_stop_idx timetable c = Some trs
    ∧ tr ∈ trs ∧ to_stop tr = p ∧ layovertime tr = Some cost
    ∧ round_label st k (inl c) = Some lc
    ∧ earliest_arrival_time lc ≤ ts.

(** A write of round [k] with the reason for the label written. *)
Inductive jstep (k : Z) : State → State → Prop :=
| jstep_write st st' p l ls :
    bag_star st !! inl p = Some ls →
    earliest_arrival_time l < earliest_arrival_time ls →
    by_trip st k p l ∨ by_transfer st k p l →
    update_both st k p (earliest_arrival_time l) (trip l) (from_stop l)
      = Some st' →
    jstep k st st'
| jstep_bound st v :
    jstep k st (set_bound st v).

(** While route [r] is scanned in round [k], with the stops [scanned]
    behind: a trip that is held is the trip of the stop time that
    [earliest_trip_stop_time] gave at one of these stops, the boarding
    stop, for the arrival time of that stop's label of round [k - 1]. *)
Definition boarded_at (k : Z) (r : Route) (st : State) (scanned : list Stop)
    (current_trip : option Trip) (boarding_stop : option Stop) : Prop :=
  ∀ t, current_trip = Some t →
    ∃ b lb tst pre mid,
      boarding_stop = Some b
      ∧ scanned = pre ++ b :: mid
      ∧ round_label st (k - 1) (inl b) = Some lb
      ∧ earliest_trip_stop_time timetable r (earliest_arrival_time lb) b
        = Some tst
      ∧ tst_trip tst = t.

(** Every label of [bag_star] has a reason: it is as [Label()] made it,
    or it is the label of an origin stop, or it was written by the route
    traversal or by the transfer phase of one of the rounds [1 .. k]. *)
Definition justified (from_stops : list Stop) (dep_secs : Z) (k : Z)
    (st : State) : Prop :=
  ∀ p l, bag_star st !! inl p = Some l →
    l = new_Label
    ∨ (p ∈ from_stops
       ∧ l = {| earliest_arrival_time := dep_secs; trip := NoTrip;
                from_stop := None |})
    ∨ ∃ j, 1 ≤ j ≤ k ∧ (by_trip st j p l ∨ by_transfer st j p l).


(** A state with one more bag, for round [j]. *)
Definition with_round (j : Z) (bag : gmap Key Label) (st : State) : State :=
  {| bag_round_stop := <[j := bag]> (bag_round_stop st);
     bag_star := bag_star st;
     destination_stops := destination_stops st;
     earliest_arrival_at_destination := earliest_arrival_at_destination st |}.

Definition acc_with_round (j : Z) (bag : gmap Key Label)
    (acc : State * list Stop) : State * list Stop :=
  (with_round j bag acc.1, acc.2).

Definition scan_with_round (j : Z) (bag : gmap Key Label) (sc : Scan) : Scan :=
  {| sc_state := with_round j bag (sc_state sc);
     sc_new_stops := sc_new_stops sc;
     sc_current_trip := sc_current_trip sc;
     sc_boarding_stop := sc_boarding_stop sc |}.

End Raptor.

(** ** The timetable data model

    Modelled from the spec: the classes of [pyraptor.model.structures]
    (Stop, Station, Trip, TripStopTime, Route, Transfer, Timetable) are not
    among the sources.  Following the spec's data model, entities are
    addressed by stable keys: a stop by its id, a station by its name, a
    trip by its number, and a route by the ordered stop sequence that its
    trips share. *)
Module Structures.

Definition Stop : Type := string.
Definition Station : Type := string.
Definition Trip : Type := Z.
Definition Route : Type := list Stop.

Definition StopTime : Type := @TripStopTime Stop Trip.

(** The entities a timetable is built from. *)
Record Data : Type := mkData {
  data_stops : list (Stop * Station);       (* each stop with its station *)
  data_stations : list Station;
  data_trips : list (Trip * list StopTime); (* each trip with its stop times *)
  data_transfers : list (@Transfer Stop)
}.

Section Build.
Variable d : Data.

(** The stops of the timetable. *)
Definition data_stop_ids : list Stop :=
  (λ e : Stop * Station, e.1) <$> data_stops d.

(** The trips of the timetable. *)
Definition data_trip_ids : list Trip :=
  (λ e : Trip * list StopTime, e.1) <$> data_trips d.

Definition trip_stop_times (t : Trip) : list StopTime :=
  match list_find (λ e : Trip * list StopTime, e.1 = t) (data_trips d) with
  | Some (_, e) => e.2
  | None => []
  end.

Definition stop_sequence (e : list StopTime) : Route := tst_stop <$> e.

(** Routes: the distinct stop sequences of the trips. *)
(** The stop times of a trip do not go back in time: a stop is left no
    earlier than it is reached, and reached no earlier than the stops
    before it are left. *)
Definition non_decreasing (sts : list StopTime) : Prop :=
  StronglySorted (λ e1 e2 : StopTime, dts_dep e1 ≤ dts_arr e2) sts
  ∧ Forall (λ e : StopTime, dts_arr e ≤ dts_dep e) sts.

(** Every trip's stop times are non-decreasing along the trip. *)
Definition trips_non_decreasing : Prop :=
  Forall (λ e : Trip * list StopTime, non_decreasing e.2) (data_trips d).

(** The trips have distinct numbers, their stop times name them, and no
    trip visits a stop twice. *)
Definition trips_well_formed : Prop :=
  NoDup data_trip_ids
  ∧ Forall (λ e : Trip * list StopTime,
              Forall (λ x : StopTime, tst_trip x = e.1) e.2
              ∧ NoDup (stop_sequence e.2))
           (data_trips d).

(** Every transfer has a strictly positive layover. *)
Definition layovers_positive : Prop :=
  Forall (λ tr : @Transfer Stop,
            match layovertime tr with Some cost => 0 < cost | None => True end)
         (data_transfers d).

Definition routes : list Route :=
  remove_dups ((λ e : Trip * list StopTime, stop_sequence e.2)
                 <$> data_trips d).

(** The trips of a route, in timetable order. *)
Definition route_trips (r : Route) : list Trip :=
  (λ e : Trip * list StopTime, e.1)
    <$> filter (λ e : Trip * list StopTime, stop_sequence e.2 = r)
               (data_trips d).

(** [Route.stop_index]: the position of a stop in the sequence. *)
Definition stop_index (r : Route) (p : Stop) : nat :=
  match list_find (λ q : Stop, q = p) r with
  | Some (i, _) => i
  | None => length r
  end.

(** [Trip.get_stop]: the stop time of the trip at a stop. *)
Definition get_stop (t : Trip) (p : Stop) : StopTime :=
  match list_find (λ e : StopTime, tst_stop e = p) (trip_stop_times t) with
  | Some (_, e) => e
  | None => mkTripStopTime t p 0 0
  end.

(** The first of the candidates with the smallest departure time. *)
Fixpoint first_departure (cands : list StopTime) : option StopTime :=
  match cands with
  | [] => None
  | x :: rest =>
      match first_departure rest with
      | Some y => if dts_dep y <? dts_dep x then Some y else Some x
      | None => Some x
      end
  end.

(** [Route.earliest_trip_stop_time]: the stop time, at the given stop, of
    the earliest trip of the route that departs there no earlier than
    the given time. *)
Definition earliest_trip_stop_time (r : Route) (dts : Z) (p : Stop)
  : option StopTime :=
  first_departure
    (filter (λ e : StopTime, dts ≤ dts_dep e)
            ((λ t, get_stop t p) <$> route_trips r)).

(** [TripStopTimes.get_trip_stop_times_in_range]: the stop times at the
    given stops whose departure lies in the window. *)
Definition stop_times_in_range (from_stops : list Stop)
    (dep_secs_min dep_secs_max : Z) : list StopTime :=
  filter (λ e : StopTime,
            dep_secs_min ≤ dts_dep e ∧ dts_dep e ≤ dep_secs_max
            ∧ tst_stop e ∈ from_stops)
         (concat ((λ e : Trip * list StopTime, e.2) <$> data_trips d)).

Definition timetable : @Timetable Stop Station Trip Route :=
  mkTimetable
    (* stops *) (data_stop_ids)
    (* stations *) (data_stations d)
    (* station_stops *)
    (λ s, (λ e : Stop * Station, e.1)
            <$> filter (λ e : Stop * Station, e.2 = s) (data_stops d))
    (* get_routes_of_stop *) (λ p, filter (λ r : Route, p ∈ r) routes)
    stop_index
    (* route_stops *) (λ r, r)
    get_stop
    earliest_trip_stop_time
    (* from_stop_idx *)
    (λ p, if decide (p ∈ data_stop_ids)
          then Some (filter (λ tr : @Transfer Stop, tr_from_stop tr = p)
                            (data_transfers d))
          else None)
    stop_times_in_range.

(** Modelled from the spec: the methods of [Journey] and [Leg] are
    missing from the sources.  A journey object is a sequence: it is false
    exactly when it has no leg. *)
Definition Journey_bool (j : @Journey Stop Trip) : bool :=
  match j with [] => false | _ :: _ => true end.

(** Departure and arrival of a leg: the departure of its trip at its
    boarding stop and the arrival of its trip at its to-stop.  A leg that
    has no trip (a transfer) has neither: the call raises. *)
Definition leg_dep (leg : @Leg Stop Trip) : option Z :=
  match leg_trip leg with
  | ByTrip t => Some (dts_dep (get_stop t (leg_from_stop leg)))
  | _ => None
  end.

Definition leg_arr (leg : @Leg Stop Trip) : option Z :=
  match leg_trip leg with
  | ByTrip t => Some (dts_arr (get_stop t (leg_to_stop leg)))
  | _ => None
  end.

(** [Journey.dep]: the departure of the first leg; it raises for a
    journey without legs. *)
Definition Journey_dep (j : @Journey Stop Trip) : option Z :=
  leg ← head j; leg_dep leg.

(** [Journey.arr]: the arrival of the last leg; it raises for a journey
    without legs. *)
Definition Journey_arr (j : @Journey Stop Trip) : option Z :=
  leg ← last j; leg_arr leg.
End Build.

End Structures.

(** ** The data of the tests

    [get_default_data] of [tests/conftest.py]: the rows of its data frame,
    with the columns treinnummer, code, vertrekmoment, spoor,
    vervoerstrajectindex and toeslag; the arrival time of a row is set equal
    to its departure time. *)
Module Fixture.
Import Structures.

Record Row : Type := mkRow {
  treinnummer : Z;
  code : string;
  vertrekmoment : Z;
  spoor : string;
  vervoerstrajectindex : Z;
  toeslag : Z
}.

(** [df["aankomstmoment"] = df["vertrekmoment"]] *)
Definition aankomstmoment (r : Row) : Z := vertrekmoment r.

Definition data_with_offset (trip_offset time_offset : Z) : list Row :=
  [ (* First trip *)
    mkRow (trip_offset + 101) "A" (time_offset + 100) "0" 1 0;
    mkRow (trip_offset + 101) "C" (time_offset + 600) "1" 2 0;
    (* Second trip *)
    mkRow (trip_offset + 202) "C" (time_offset + 660) "2" 1 0;
    mkRow (trip_offset + 202) "F" (time_offset + 1500) "0" 2 0;
    (* Third trip *)
    mkRow (trip_offset + 303) "C" (time_offset + 900) "2" 1 0;
    mkRow (trip_offset + 303) "X" (time_offset + 1200) "0" 2 0;
    mkRow (trip_offset + 303) "F" (time_offset + 1800) "0" 2 0 ].

Definition get_default_data : list Row :=
  data_with_offset 0 0 ++ data_with_offset 10 3600.

(** Modelled from the spec: [to_stops_and_trips] and [to_timetable] of
    [tests/utils.py], which make the timetable of the tests from these
    rows, are missing from the sources.  The rows of one train number, in
    the order of the data frame, are the stop times of one trip; the
    station of a row is its code.  Which stop a row names is a parameter
    [stop_of]: the spec describes the trips by station codes (trip 101
    from A to C, trip 202 from C to F), and it has a stop as a platform of a
    station; the two readings are [by_code] and [by_platform] below. *)
Definition stop_times_of (stop_of : Row → Stop) (rows : list Row) (t : Trip)
  : list StopTime :=
  (λ r, mkTripStopTime t (stop_of r) (aankomstmoment r) (vertrekmoment r))
    <$> filter (λ r, treinnummer r = t) rows.

Definition trips_of (stop_of : Row → Stop) (rows : list Row)
  : list (Trip * list StopTime) :=
  (λ t, (t, stop_times_of stop_of rows t)) <$> remove_dups (treinnummer <$> rows).

Definition stops_of (stop_of : Row → Stop) (rows : list Row)
  : list (Stop * Station) :=
  remove_dups ((λ r, (stop_of r, code r)) <$> rows).

Definition stations_of (rows : list Row) : list Station :=
  remove_dups (code <$> rows).

(** A transfer with the given layover between every two stops of a
    station, in both directions. *)
Definition transfers_within (stops : list (Stop * Station)) (cost : Z)
  : list (@Transfer Stop) :=
  e1 ← stops; e2 ← stops;
  if decide (e1.2 = e2.2 ∧ e1.1 ≠ e2.1)
  then [mkTransfer e1.1 e2.1 (Some cost)] else [].

(** First reading: the platform column is not used; every station code
    is one stop of the station of that name, and there is no transfer
    (stops A, C, F and X). *)
Definition by_code (rows : list Row) : Data :=
  {| data_stops := stops_of code rows;
     data_stations := stations_of rows;
     data_trips := trips_of code rows;
     data_transfers := [] |}.

(** Second reading: a stop is a platform of a station, named by code and
    platform ([A-0], [C-1], [C-2], [F-0] and [X-0]); trip 101 reaches
    station C at platform 1 and the trips 202 and 303 leave it from
    platform 2.  The platforms of a station are linked by transfers with
    the layover given, or by none. *)
Definition platform (r : Row) : Stop := code r +:+ "-" +:+ spoor r.

Definition by_platform (layover : option Z) (rows : list Row) : Data :=
  {| data_stops := stops_of platform rows;
     data_stations := stations_of rows;
     data_trips := trips_of platform rows;
     data_transfers :=
       match layover with
       | Some cost => transfers_within (stops_of platform rows) cost
       | None => []
       end |}.

(** The three trips 101, 202 and 303, one stop per station code. *)
Definition three_trips : Data :=
  Eval vm_compute in by_code (data_with_offset 0 0).

(** All rows of [get_default_data]: the three trips and their copies one
    hour later (trips 111, 212 and 313), one stop per station code. *)
Definition default_data : Data :=
  Eval vm_compute in by_code get_default_data.

(** A stop time that arrives and departs at the same time, for the
    timetables below that are not taken from the tests. *)
Definition stop_time (t : Trip) (p : Stop) (time : Z) : StopTime :=
  mkTripStopTime t p time time.

(** A value for the sentinel: larger than every time of the fixture. *)
Definition LARGE : Z := 2147483647.

(** Iteration order of a set of stops: first occurrences, in order. *)
Definition first_seen (l : list Stop) : list Stop := remove_dups l.

Definition timetable3 : @Timetable Stop Station Trip Route := timetable three_trips.
Definition timetable6 : @Timetable Stop Station Trip Route := timetable default_data.

(** The point query from A to F with departure time 100, on the three
    trips: the final state of [run] and the table it returns. *)
Definition query_state (rounds : Z) :=
  run_state timetable3 LARGE Marker first_seen ["A"%string] "F"%string 100 rounds.

Definition query (rounds : Z) :=
  run timetable3 LARGE Marker first_seen ["A"%string] "F"%string 100 rounds.

(** A range query on all rows, with two rounds and the departure window
    [0, 5000], which holds the departures 100 and 3700 from A. *)
Definition range_query (origin destination : Station) :=
  run_range_raptor timetable6 LARGE Marker first_seen
    Journey_bool (Journey_dep default_data) (Journey_arr default_data)
    10 origin destination 0 5000 2.

(** A timetable with a transfer: station C has the platforms C1 and C2,
    trip 101 arrives at C1, trip 202 leaves from C2, and walking between the
    platforms takes 30 seconds. *)
Definition platform_data : Data :=
  {| data_stops := [("A", "A"); ("C1", "C"); ("C2", "C"); ("F", "F")]%string;
     data_stations := ["A"; "C"; "F"]%string;
     data_trips :=
       [ (101, [ stop_time 101 "A" 100; stop_time 101 "C1" 600 ]);
         (202, [ stop_time 202 "C2" 660; stop_time 202 "F" 1500 ]) ];
     data_transfers :=
       [ mkTransfer "C1" "C2" (Some 30); mkTransfer "C2" "C1" (Some 30) ]%string |}.

Definition platform_timetable : @Timetable Stop Station Trip Route :=
  timetable platform_data.

(** Round 1 of the query from A at 100 on that timetable, after the route
    traversal and before the transfer phase. *)
Definition platform_traversed
  : option (@State string string Z _ _ _ _ * list string) :=
  '(st0, marked) ← foldM (mark_origin 100)
                     (init_state platform_timetable LARGE "F"%string 2, [])
                     ["A"%string];
  traverse_routes platform_timetable st0 1
                  (accumulate_routes platform_timetable marked).

Definition platform_acc : @State string string Z _ _ _ _ * list string :=
  default (init_state platform_timetable LARGE "F"%string 2, [])
          platform_traversed.

(** The query from A at 100 with two rounds on that timetable. *)
Definition platform_query :=
  run platform_timetable LARGE Marker first_seen ["A"%string] "F"%string 100 2.

(** The table that this query returns. *)
Definition platform_bag : gmap (string + string) (@Label Stop Trip) :=
  default ∅ platform_query.

(** The journey of this query: trip 101, the walk between the platforms,
    trip 202. *)
Definition platform_legs : @Journey Stop Trip :=
  [ mkLeg "A"%string "C1"%string (ByTrip 101) 600;
    mkLeg "C1"%string "C2"%string Marker 630;
    mkLeg "C2"%string "F"%string (ByTrip 202) 1500 ].

(** A table that no run returns: the labels of A and B name each other as
    from-stop. *)
Definition loop_bag : gmap (string + string) (@Label Stop Trip) :=
  {[ inl "A"%string := mkLabel 100 NoTrip (Some "B"%string);
     inl "B"%string := mkLabel 100 NoTrip (Some "A"%string) ]}.




End Fixture.
(** * Properties *)

(** ** Loops *)

Lemma foldM_app {A B : Type} (f : B → A → option B) (l1 l2 : list A) (b : B) :
  foldM f b (l1 ++ l2) = b' ← foldM f b l1; foldM f b' l2.
Proof.
  revert b. induction l1 as [|x l1 IH]; intros b; simpl; [done|].
  destruct (f b x) as [b1|]; simpl; [apply IH | done].
Qed.

(** A property kept by every iteration is kept by the loop. *)
Lemma foldM_inv {A B : Type} (P : B → Prop) (f : B → A → option B)
    (l : list A) (b b' : B) :
  (∀ b1 x b2, x ∈ l → P b1 → f b1 x = Some b2 → P b2) →
  P b → foldM f b l = Some b' → P b'.
Proof.
  revert b. induction l as [|x l IH]; intros b Hstep Hb Hrun; simpl in Hrun.
  - by simplify_eq.
  - destruct (f b x) as [b1|] eqn:Hf; simpl in Hrun; [|done].
    apply (IH b1); [| |done].
    + intros ? y ? Hy. apply Hstep. by right.
    + eapply Hstep; [|done..]. by left.
Qed.

(** If every iteration returns from a state with the invariant, and keeps
    it, the loop returns. *)
Lemma foldM_total {A B : Type} (P : B → Prop) (f : B → A → option B)
    (l : list A) (b : B) :
  (∀ b1 x, x ∈ l → P b1 → ∃ b2, f b1 x = Some b2 ∧ P b2) →
  P b → ∃ b', foldM f b l = Some b' ∧ P b'.
Proof.
  revert b. induction l as [|x l IH]; intros b Hstep Hb; simpl.
  - eauto.
  - destruct (Hstep b x) as (b1 & -> & Hb1); [by left|done|]. simpl.
    apply IH; [|done]. intros ? y Hy. apply Hstep. by right.
Qed.

Section Facts.
Context {Stop Station Trip Route : Type}.
Context `{Countable Stop, Countable Station}.
Context `{EqDecision Trip, EqDecision Route}.

Variable tt : @Timetable Stop Station Trip Route.
Variable LARGE_NUMBER : Z.
Variable TRANSFER_TRIP : @trip_field Trip.
Variable set_order : list Stop → list Stop.

Local Abbreviation StateT := (@State Stop Station Trip _ _ _ _).
Implicit Types (st : StateT).
Implicit Types (l : @Label Stop Trip) (p : Stop) (k : Z).

(** ** What the loop bodies do *)

Lemma update_both_Some st k p v trp frm st' :
  update_both st k p v trp frm = Some st' ↔
  ∃ bk lk ls,
    bag_round_stop st !! k = Some bk ∧ bk !! inl p = Some lk
    ∧ bag_star st !! inl p = Some ls
    ∧ st' = {| bag_round_stop :=
                 <[k := <[inl p := update lk (Some v) trp frm]> bk]>
                   (bag_round_stop st);
               bag_star := <[inl p := update ls (Some v) trp frm]> (bag_star st);
               destination_stops := destination_stops st;
               earliest_arrival_at_destination :=
                 earliest_arrival_at_destination st |}.
Proof.
  unfold update_both, update_round, update_star. split.
  - intros Hu.
    destruct (bag_round_stop st !! k) as [bk|]; simpl in Hu; [|done].
    destruct (bk !! inl p) as [lk|] eqn:Hk; simpl in Hu; [|done].
    destruct (bag_star st !! inl p) as [ls|]; simpl in Hu; [|done].
    simplify_eq. by exists bk, lk, ls.
  - intros (bk & lk & ls & -> & Hk & -> & ->). simpl. by rewrite Hk.
Qed.

Lemma improve_by_trip_inv k st ns ct bs c st' ns' :
  improve_by_trip tt k st ns ct bs c = Some (st', ns') →
  (st' = st ∧ ns' = ns)
  ∨ ∃ t ls st1,
      ct = Some t ∧ bag_star st !! inl c = Some ls
      ∧ dts_arr (get_stop tt t c) < earliest_arrival_time ls
      ∧ dts_arr (get_stop tt t c) < earliest_arrival_at_destination st
      ∧ update_both st k c (dts_arr (get_stop tt t c)) (ByTrip t) bs = Some st1
      ∧ (st' = st1
         ∨ (c ∈ destination_stops st1
            ∧ st' = set_bound st1 (dts_arr (get_stop tt t c))))
      ∧ ns' = ns ++ [c].
Proof.
  unfold improve_by_trip. intros Hi.
  destruct ct as [t|]; [|left; by simplify_eq].
  destruct (bag_star st !! inl c) as [ls|] eqn:Hs; simpl in Hi; [|done].
  destruct (Z.ltb_spec (dts_arr (get_stop tt t c)) (earliest_arrival_time ls));
    simpl in Hi; [|left; by simplify_eq].
  destruct (Z.ltb_spec (dts_arr (get_stop tt t c))
                       (earliest_arrival_at_destination st));
    simpl in Hi; [|left; by simplify_eq].
  destruct (update_both st k c _ _ _) as [st1|] eqn:Hu; simpl in Hi; [|done].
  right. exists t, ls, st1. repeat split; try done.
  - case_decide; simplify_eq; [right|left]; done.
  - case_decide; by simplify_eq.
Qed.

Lemma catch_trip_inv k r st ct bs c ct' bs' :
  catch_trip tt k r st ct bs c = Some (ct', bs') →
  ∃ bp lp,
    bag_round_stop st !! (k - 1) = Some bp ∧ bp !! inl c = Some lp
    ∧ ((ct' = ct ∧ bs' = bs)
       ∨ ∃ tst,
           earliest_trip_stop_time tt r (earliest_arrival_time lp) c = Some tst
           ∧ ct' = Some (tst_trip tst) ∧ bs' = Some c).
Proof.
  unfold catch_trip. intros Hc.
  destruct (bag_round_stop st !! (k - 1)) as [bp|] eqn:Hbp; simpl in Hc; [|done].
  destruct (bp !! inl c) as [lp|] eqn:Hlp; simpl in Hc; [|done].
  exists bp, lp. do 2 (split; [done|]).
  repeat (case_match; simplify_eq); eauto 10.
Qed.

Lemma relax_transfer_inv k c ts (acc acc' : StateT * list Stop) tr :
  relax_transfer TRANSFER_TRIP k c ts acc tr = Some acc' →
  acc' = acc
  ∨ ∃ cost ls st1,
      layovertime tr = Some cost
      ∧ bag_star acc.1 !! inl (to_stop tr) = Some ls
      ∧ ts + cost < earliest_arrival_time ls
      ∧ update_both acc.1 k (to_stop tr) (ts + cost) TRANSFER_TRIP (Some c)
        = Some st1
      ∧ acc' = (st1, acc.2 ++ [to_stop tr]).
Proof.
  unfold relax_transfer. intros Hr.
  destruct (layovertime tr) as [cost|]; [|left; by simplify_eq].
  destruct (bag_star acc.1 !! inl (to_stop tr)) as [ls|] eqn:Hs;
    simpl in Hr; [|done].
  destruct (Z.ltb_spec (ts + cost) (earliest_arrival_time ls));
    [|left; by simplify_eq].
  destruct (update_both acc.1 k _ _ _ _) as [st1|] eqn:Hu; simpl in Hr; [|done].
  right. exists cost, ls, st1. by simplify_eq.
Qed.

(** ** Every phase is a sequence of guarded writes *)

Lemma improve_by_trip_trace k st ns ct bs c st' ns' :
  improve_by_trip tt k st ns ct bs c = Some (st', ns') →
  rtc (wstep k) st st'.
Proof.
  intros [[-> ->]|(t & ls & st1 & -> & Hs & Hlt & _ & Hu & Hst & _)]
    %improve_by_trip_inv; [done|].
  eapply rtc_l; [by eapply wstep_write|].
  destruct Hst as [->|[_ ->]]; [done|]. apply rtc_once, wstep_bound.
Qed.

Lemma scan_stop_trace k r sc c sc' :
  scan_stop tt k r sc c = Some sc' →
  rtc (wstep k) (sc_state sc) (sc_state sc').
Proof.
  unfold scan_stop. intros Hs.
  destruct (improve_by_trip _ _ _ _ _ _ _) as [[st1 ns1]|] eqn:Hi;
    simpl in Hs; [|done].
  destruct (catch_trip _ _ _ _ _ _ _) as [[ct1 bs1]|]; simpl in Hs; [|done].
  simplify_eq. simpl. by eapply improve_by_trip_trace.
Qed.

Lemma scan_route_trace k (acc acc' : StateT * list Stop) rp :
  scan_route tt k acc rp = Some acc' → rtc (wstep k) acc.1 acc'.1.
Proof.
  unfold scan_route. destruct rp as [r m]. intros Hs.
  destruct (foldM _ _ _) as [sc|] eqn:Hf; simpl in Hs; [|done]. simplify_eq.
  simpl. revert Hf.
  apply (foldM_inv (λ sc, rtc (wstep k) acc.1 (sc_state sc))); [|done].
  intros sc1 c sc2 _ Hrtc Hsc. etrans; [done|]. by eapply scan_stop_trace.
Qed.

Lemma traverse_routes_trace st k q st' ns :
  traverse_routes tt st k q = Some (st', ns) → rtc (wstep k) st st'.
Proof.
  unfold traverse_routes.
  apply (foldM_inv (λ acc : StateT * list Stop, rtc (wstep k) st acc.1)
           _ _ _ (st', ns)); [|done].
  intros acc1 rp acc2 _ Hrtc Hsc. etrans; [done|]. by eapply scan_route_trace.
Qed.

Lemma relax_transfer_trace k c ts (acc acc' : StateT * list Stop) tr :
  relax_transfer TRANSFER_TRIP k c ts acc tr = Some acc' →
  rtc (wstep k) acc.1 acc'.1.
Proof.
  intros [->|(cost & ls & st1 & _ & Hs & Hlt & Hu & ->)]%relax_transfer_inv;
    [done|].
  simpl. apply rtc_once. by eapply wstep_write.
Qed.

Lemma relax_stop_trace k (acc acc' : StateT * list Stop) c :
  relax_stop tt TRANSFER_TRIP k acc c = Some acc' →
  rtc (wstep k) acc.1 acc'.1.
Proof.
  unfold relax_stop. intros Hr.
  destruct (bag_round_stop acc.1 !! k) as [bk|]; simpl in Hr; [|done].
  destruct (bk !! inl c) as [lc|]; simpl in Hr; [|done].
  destruct (from_stop_idx tt c) as [trs|]; simpl in Hr; [|done].
  revert Hr.
  apply (foldM_inv (λ a : StateT * list Stop, rtc (wstep k) acc.1 a.1)); [|done].
  intros a1 tr a2 _ Hrtc Ha. etrans; [done|]. by eapply relax_transfer_trace.
Qed.

Lemma add_transfer_time_trace st k marked st' ns :
  add_transfer_time tt TRANSFER_TRIP st k marked = Some (st', ns) →
  rtc (wstep k) st st'.
Proof.
  unfold add_transfer_time.
  apply (foldM_inv (λ acc : StateT * list Stop, rtc (wstep k) st acc.1)
           _ _ _ (st', ns)); [|done].
  intros a1 c a2 _ Hrtc Ha. etrans; [done|]. by eapply relax_stop_trace.
Qed.

Lemma round_trace k st marked st' marked' :
  round tt TRANSFER_TRIP set_order k st marked = Some (st', marked') →
  rtc (wstep k) st st'.
Proof.
  unfold round. intros Hr.
  destruct (traverse_routes _ _ _ _) as [[st1 ns1]|] eqn:Ht; simpl in Hr; [|done].
  destruct (add_transfer_time _ _ _ _ _) as [[st2 ns2]|] eqn:Ha;
    simpl in Hr; [|done].
  simplify_eq. etrans; [by eapply traverse_routes_trace|].
  by eapply add_transfer_time_trace.
Qed.


(** ** Guarded writes never raise an arrival time of [bag_star] *)

Lemma star_le_refl st : star_le st st.
Proof. intros p l Hl. exists l. split; [done|by left]. Qed.

Lemma star_le_trans st1 st2 st3 :
  star_le st1 st2 → star_le st2 st3 → star_le st1 st3.
Proof.
  intros H12 H23 p l Hl.
  destruct (H23 p l Hl) as (l2 & Hl2 & Hcmp2).
  destruct (H12 p l2 Hl2) as (l1 & Hl1 & Hcmp1).
  exists l1. split; [done|].
  destruct Hcmp1 as [->|?], Hcmp2 as [->|?]; auto. right. lia.
Qed.

Lemma wstep_star_le k st st' : wstep k st st' → star_le st' st.
Proof.
  intros [st0 st1 p v trp frm ls Hls Hlt Hu | st0 v];
    [|intros q l Hl; exists l; split; [done|by left]].
  apply update_both_Some in Hu as (bk & lk & ls' & _ & _ & Hls' & ->).
  simplify_eq. intros q l Hl. simpl.
  destruct (decide (q = inl p)) as [->|Hne].
  - rewrite lookup_insert_eq. simplify_eq. eexists. split; [done|]. by right.
  - rewrite lookup_insert_ne; [|done]. exists l. split; [done|by left].
Qed.

Lemma rtc_wstep_star_le k st st' : rtc (wstep k) st st' → star_le st' st.
Proof.
  induction 1 as [|st1 st2 st3 Hstep _ IH]; [apply star_le_refl|].
  eapply star_le_trans; [done|]. by eapply wstep_star_le.
Qed.

Lemma run_rounds_star_le ks st marked st' :
  run_rounds tt TRANSFER_TRIP set_order ks st marked = Some st' →
  star_le st' st.
Proof.
  revert st marked. induction ks as [|k ks IH]; intros st marked Hr; simpl in Hr.
  - simplify_eq. apply star_le_refl.
  - case_bool_decide; [|simplify_eq; apply star_le_refl].
    destruct (round _ _ _ _ _ _) as [[st1 marked1]|] eqn:Hround;
      simpl in Hr; [|done].
    eapply star_le_trans; [by eapply IH|].
    eapply rtc_wstep_star_le. by eapply round_trace.
Qed.


(** ** Effect of one improvement on the two tables *)

Lemma update_both_lookup st k p v trp frm st' :
  update_both st k p v trp frm = Some st' →
  ∃ lk ls,
    round_label st k (inl p) = Some lk
    ∧ bag_star st !! inl p = Some ls
    ∧ (∀ key, bag_star st' !! key
              = if decide (key = inl p)
                then Some (update ls (Some v) trp frm)
                else bag_star st !! key)
    ∧ (∀ j key, round_label st' j key
                = if decide (j = k ∧ key = inl p)
                  then Some (update lk (Some v) trp frm)
                  else round_label st j key)
    ∧ destination_stops st' = destination_stops st
    ∧ earliest_arrival_at_destination st' = earliest_arrival_at_destination st.
Proof.
  intros (bk & lk & ls & Hbk & Hlk & Hls & ->)%update_both_Some.
  exists lk, ls. unfold round_label. rewrite Hbk. simpl.
  repeat split; [done..| |].
  - intros key. case_decide as Hkey.
    + subst key. by rewrite lookup_insert_eq.
    + by rewrite lookup_insert_ne.
  - intros j key. destruct (decide (j = k)) as [->|Hj].
    + rewrite lookup_insert_eq, Hbk. simpl.
      case_decide as Hkey.
      * destruct Hkey as [_ ->]. by rewrite lookup_insert_eq.
      * rewrite lookup_insert_ne; [done|]. naive_solver.
    + rewrite lookup_insert_ne; [|done]. case_decide; [naive_solver|done].
Qed.

Lemma update_both_dom st k p v trp frm st' :
  update_both st k p v trp frm = Some st' →
  dom (bag_star st') = dom (bag_star st)
  ∧ ∀ j, dom <$> (bag_round_stop st' !! j) = dom <$> (bag_round_stop st !! j).
Proof.
  intros (bk & lk & ls & Hbk & Hlk & Hls & ->)%update_both_Some. simpl. split.
  - rewrite dom_insert_L. apply elem_of_dom_2 in Hls. set_solver.
  - intros j. destruct (decide (j = k)) as [->|Hj].
    + rewrite lookup_insert_eq, Hbk. simpl. f_equal.
      rewrite dom_insert_L. apply elem_of_dom_2 in Hlk. set_solver.
    + by rewrite lookup_insert_ne.
Qed.

Lemma wstep_dom k st st' :
  wstep k st st' →
  dom (bag_star st') = dom (bag_star st)
  ∧ ∀ j, dom <$> (bag_round_stop st' !! j) = dom <$> (bag_round_stop st !! j).
Proof.
  intros [st0 st1 p v trp frm ls Hls Hlt Hu | st0 v]; [|done].
  by eapply update_both_dom.
Qed.

Lemma rtc_wstep_dom k st st' :
  rtc (wstep k) st st' →
  dom (bag_star st') = dom (bag_star st)
  ∧ ∀ j, dom <$> (bag_round_stop st' !! j) = dom <$> (bag_round_stop st !! j).
Proof.
  induction 1 as [|st1 st2 st3 Hstep _ [IH1 IH2]]; [done|].
  apply wstep_dom in Hstep as [H1 H2]. split; [congruence|].
  intros j. by rewrite IH2.
Qed.

(** ** The tables that [run] builds *)

Lemma lookup_foldl_insert {A K V : Type} `{HK : Countable K} (f : A → K) (x : V)
    (xs : list A) (m : gmap K V) (key : K) :
  foldl (λ m a, <[f a := x]> m) m xs !! key
  = if decide (key ∈ f <$> xs) then Some x else m !! key.
Proof.
  revert m. induction xs as [|a xs IH]; intros m; [done|].
  cbn [foldl]. rewrite fmap_cons.
  - rewrite IH. clear IH.
    destruct (decide (key ∈ f <$> xs)) as [Hin|Hin];
      destruct (decide (key ∈ f a :: (f <$> xs))) as [Hin'|Hin']; try done.
    + exfalso. apply Hin'. by right.
    + apply elem_of_cons in Hin' as [->|?]; [|done]. apply lookup_insert_eq.
    + apply lookup_insert_ne. intros <-. apply Hin'. by left.
Qed.

Lemma dom_foldl_insert {A K V : Type} `{HK : Countable K} (f : A → K) (x : V)
    (xs : list A) (m : gmap K V) :
  dom (foldl (λ m a, <[f a := x]> m) m xs) = dom m ∪ list_to_set (f <$> xs).
Proof.
  revert m. induction xs as [|a xs IH]; intros m; simpl.
  - set_solver.
  - rewrite IH, dom_insert_L. set_solver.
Qed.

Lemma lookup_add_stop_labels (key : Stop + Station) :
  add_stop_labels (Station:=Station) tt LARGE_NUMBER ∅ !! key
  = if decide (key ∈ stop_keys tt) then Some (new_Label LARGE_NUMBER) else None.
Proof.
  unfold add_stop_labels, stop_keys. rewrite lookup_foldl_insert, lookup_empty.
  repeat case_decide; try done; exfalso; set_solver.
Qed.

Lemma lookup_fresh_round_bag (key : Stop + Station) :
  add_station_labels tt LARGE_NUMBER (add_stop_labels tt LARGE_NUMBER ∅) !! key
  = if decide (key ∈ stop_keys tt ∪ station_keys tt)
    then Some (new_Label LARGE_NUMBER) else None.
Proof.
  unfold add_station_labels, station_keys.
  rewrite lookup_foldl_insert, lookup_add_stop_labels.
  repeat case_decide; try done; exfalso; set_solver.
Qed.

Lemma lookup_init_bag_round_stop (rounds j : Z) :
  init_bag_round_stop (Stop:=Stop) tt LARGE_NUMBER rounds !! j
  = if decide (0 ≤ j ≤ rounds)
    then Some (add_station_labels tt LARGE_NUMBER
                 (add_stop_labels tt LARGE_NUMBER ∅))
    else None.
Proof.
  unfold init_bag_round_stop.
  rewrite (lookup_foldl_insert (λ k : Z, k)), lookup_empty, list_fmap_id.
  destruct (decide (j ∈ seqZ 0 (rounds + 1))) as [Hj|Hj];
    rewrite elem_of_seqZ in Hj; case_decide; try done; lia.
Qed.

Lemma round_label_init_state to_station rounds j (key : Stop + Station) :
  round_label (init_state tt LARGE_NUMBER to_station rounds) j key
  = if decide (0 ≤ j ≤ rounds ∧ key ∈ stop_keys tt ∪ station_keys tt)
    then Some (new_Label LARGE_NUMBER) else None.
Proof.
  unfold round_label. simpl. rewrite lookup_init_bag_round_stop.
  case_decide; simpl.
  - rewrite lookup_fresh_round_bag. repeat case_decide; naive_solver.
  - case_decide; naive_solver.
Qed.


(** ** Round labels: untouched, or better than the round before *)

Lemma round_inv_weaken k k' st : k ≤ k' → round_inv LARGE_NUMBER k st →
  round_inv LARGE_NUMBER k' st.
Proof.
  intros Hk (HJ & HB & HF & HR). repeat split; try done; try apply HB.
  intros j key l Hj. apply HF. lia.
Qed.

(** A write of value [v] at round [k], below the arrival time of
    [bag_star], keeps the invariant of round [k]. *)
Lemma update_both_round_inv k st p v trp frm st' ls :
  bag_star st !! inl p = Some ls →
  v ≤ earliest_arrival_time ls →
  (v < earliest_arrival_time ls ∨ k = 0) →
  0 ≤ k →
  update_both st k p v trp frm = Some st' →
  round_inv LARGE_NUMBER k st → round_inv LARGE_NUMBER k st'.
Proof.
  intros Hls Hle Hlt Hk Hu (HJ & [HB1 HB2] & HF & HR).
  apply update_both_lookup in Hu
    as (lk & ls' & Hlk & Hls' & Hstar & Hround & _ & _).
  simplify_eq.
  assert (v ≤ LARGE_NUMBER) as HvL by (specialize (HB1 _ _ Hls); lia).
  repeat split.
  - intros j key lj ls0. rewrite Hround, Hstar.
    destruct (decide (key = inl p)) as [->|Hne].
    + intros Hj ?. simplify_eq. simpl.
      case_decide as Hjk; simplify_eq; simpl; [lia|].
      specialize (HJ _ _ _ _ Hj Hls). lia.
    + rewrite decide_False by naive_solver. apply HJ.
  - intros key l. rewrite Hstar. case_decide; [|apply HB1].
    intros ?; simplify_eq. done.
  - intros j key l. rewrite Hround. case_decide; [|apply HB2].
    intros ?; simplify_eq. done.
  - intros j key l Hj. rewrite Hround. rewrite decide_False by lia.
    by apply HF.
  - intros j key l l' Hj. rewrite !Hround.
    destruct (decide (j = k ∧ key = inl p)) as [[-> ->]|Hne].
    + rewrite decide_False by lia. intros ? Hprev. simplify_eq. simpl.
      right. specialize (HJ _ _ _ _ Hprev Hls). lia.
    + destruct (decide (j - 1 = k ∧ key = inl p)) as [[Hj1 ->]|Hne'].
      * intros Hl _. left. eapply HF; [|done]. lia.
      * by apply HR.
Qed.

Lemma wstep_round_inv k st st' :
  1 ≤ k → wstep k st st' → round_inv LARGE_NUMBER k st →
  round_inv LARGE_NUMBER k st'.
Proof.
  intros Hk [st0 st1 p v trp frm ls Hls Hlt Hu | st0 v]; [|done].
  eapply update_both_round_inv; [done| | | |done]; [lia|by left|lia].
Qed.

Lemma rtc_wstep_round_inv k st st' :
  1 ≤ k → rtc (wstep k) st st' → round_inv LARGE_NUMBER k st →
  round_inv LARGE_NUMBER k st'.
Proof.
  intros Hk. induction 1 as [|st1 st2 st3 Hstep _ IH]; [done|].
  intros Hinv. apply IH. by eapply wstep_round_inv.
Qed.

Lemma seqZ_to_nat (m len : Z) : seqZ m len = seqZ m (Z.of_nat (Z.to_nat len)).
Proof. unfold seqZ. by rewrite Nat2Z.id. Qed.

Lemma run_rounds_round_inv (n : nat) k st marked st' :
  0 ≤ k →
  run_rounds tt TRANSFER_TRIP set_order (seqZ (k + 1) (Z.of_nat n)) st marked
    = Some st' →
  round_inv LARGE_NUMBER k st →
  round_inv LARGE_NUMBER (k + Z.of_nat n) st'.
Proof.
  revert k st marked. induction n as [|n IH]; intros k st marked Hk Hr Hinv.
  - simpl in Hr. simplify_eq. eapply round_inv_weaken; [|done]. lia.
  - rewrite seqZ_cons in Hr by lia. simpl in Hr.
    case_bool_decide.
    + destruct (round _ _ _ _ _ _) as [[st1 marked1]|] eqn:Hround;
        simpl in Hr; [|done].
      replace (Z.pred (Z.of_nat (S n))) with (Z.of_nat n) in Hr by lia.
      replace (Z.succ (k + 1)) with ((k + 1) + 1) in Hr by lia.
      apply IH in Hr; [|lia|].
      * eapply round_inv_weaken; [|done]. lia.
      * eapply rtc_wstep_round_inv; [lia|by eapply round_trace|].
        eapply round_inv_weaken; [|done]. lia.
    + simplify_eq. eapply round_inv_weaken; [|done]. lia.
Qed.

Lemma init_state_round_inv to_station rounds :
  round_inv LARGE_NUMBER 0 (init_state tt LARGE_NUMBER to_station rounds).
Proof.
  repeat split.
  - intros j key lj ls. rewrite round_label_init_state. simpl.
    rewrite lookup_add_stop_labels. repeat case_decide; naive_solver.
  - intros key l. simpl. rewrite lookup_add_stop_labels.
    case_decide; [|done]. intros ?; simplify_eq. done.
  - intros j key l. rewrite round_label_init_state.
    case_decide; [|done]. intros ?; simplify_eq. done.
  - intros j key l _. rewrite round_label_init_state.
    case_decide; naive_solver.
  - intros j key l l' _. rewrite round_label_init_state.
    case_decide; naive_solver.
Qed.

Lemma mark_origins_round_inv dep_secs from_stops to_station rounds st0 marked :
  dep_secs ≤ LARGE_NUMBER →
  foldM (mark_origin dep_secs)
        (init_state tt LARGE_NUMBER to_station rounds, []) from_stops
    = Some (st0, marked) →
  round_inv LARGE_NUMBER 0 st0.
Proof.
  intros Hdep Hf.
  cut (round_inv LARGE_NUMBER 0 st0
       ∧ ∀ key l, bag_star st0 !! key = Some l →
                  dep_secs ≤ earliest_arrival_time l); [by intros []|].
  revert Hf.
  apply (foldM_inv (λ a : StateT * list Stop,
           round_inv LARGE_NUMBER 0 a.1
           ∧ ∀ key l, bag_star a.1 !! key = Some l →
                      dep_secs ≤ earliest_arrival_time l)
           _ _ _ (st0, marked)).
  - intros a1 o a2 _ [Ha1 Hge] Hm. unfold mark_origin in Hm.
    destruct (update_both a1.1 0 o dep_secs NoTrip None) as [st1|] eqn:Hu;
      simpl in Hm; [|done].
    simplify_eq. simpl.
    pose proof Hu as (lk & ls & Hlk & Hls & Hstar & _)%update_both_lookup.
    split.
    + eapply update_both_round_inv; [done| |by right|done|done|done].
      by eapply Hge.
    + intros key l. rewrite Hstar. case_decide; [|apply Hge].
      intros ?; simplify_eq. done.
  - split; [apply init_state_round_inv|].
    intros key l. simpl. rewrite lookup_add_stop_labels.
    case_decide; [|done]. intros ?; simplify_eq. done.
Qed.

(** The origin loop writes the departure time into the labels of the
    origin stops and leaves the other labels alone. *)
Lemma mark_origins_star dep_secs from_stops (acc acc' : StateT * list Stop) :
  foldM (mark_origin dep_secs) acc from_stops = Some acc' →
  acc'.2 = acc.2 ++ from_stops
  ∧ ∀ key, bag_star acc'.1 !! key
           = if decide (key ∈ (inl <$> from_stops : list (Stop + Station)))
             then origin_label dep_secs <$> bag_star acc.1 !! key
             else bag_star acc.1 !! key.
Proof.
  revert acc. induction from_stops as [|o os IH]; intros acc Hf;
    cbn [foldM] in Hf.
  - simplify_eq. split; [by rewrite app_nil_r|done].
  - destruct (mark_origin dep_secs acc o) as [acc1|] eqn:Hm;
      cbn [mbind option_bind] in Hf; [|done].
    unfold mark_origin in Hm.
    destruct (update_both acc.1 0 o dep_secs NoTrip None) as [st1|] eqn:Hu;
      simpl in Hm; [|done].
    simplify_eq.
    apply IH in Hf as [Hns Hstar]. cbn [fst snd] in *.
    split; [by rewrite Hns, <- app_assoc|].
    apply update_both_lookup in Hu as (lk & ls & _ & Hls & Hst1 & _).
    intros key. rewrite Hstar, Hst1, ?fmap_cons. clear Hstar Hst1 IH.
    destruct (decide (key ∈ (inl <$> os : list (Stop + Station)))) as [Hin|Hin];
      destruct (decide (key ∈ inl o :: (inl <$> os : list (Stop + Station))))
        as [Hin'|Hin'];
      destruct (decide (key = inl o)) as [->|Hne];
      rewrite ?Hls; try done;
      try (exfalso; apply Hin'; by left);
      try (exfalso; apply Hin'; by right).
    by apply elem_of_cons in Hin' as [?|?].
Qed.

Lemma run_state_round_inv from_stops to_station dep_secs rounds st :
  dep_secs ≤ LARGE_NUMBER →
  run_state tt LARGE_NUMBER TRANSFER_TRIP set_order
            from_stops to_station dep_secs rounds = Some st →
  round_inv LARGE_NUMBER (Z.of_nat (Z.to_nat rounds)) st.
Proof.
  intros Hdep Hr. unfold run_state in Hr.
  destruct (foldM _ _ _) as [[st0 marked]|] eqn:Hf; simpl in Hr; [|done].
  rewrite seqZ_to_nat in Hr.
  apply (run_rounds_round_inv _ 0) in Hr; [done|done|].
  by eapply mark_origins_round_inv.
Qed.



(** ** [run] returns on a closed timetable *)

Lemma elem_of_stop_keys p : inl p ∈ stop_keys (Station:=Station) tt ↔ p ∈ stops tt.
Proof.
  unfold stop_keys. rewrite elem_of_list_to_set, list_elem_of_fmap. split.
  - by intros (q & ? & ?); simplify_eq.
  - eauto.
Qed.

Lemma tables_ok_star rounds st p :
  tables_ok tt rounds st → p ∈ stops tt → ∃ ls, bag_star st !! inl p = Some ls.
Proof.
  intros [Hdom _] Hp%elem_of_stop_keys. rewrite <- Hdom in Hp.
  by apply elem_of_dom in Hp.
Qed.

Lemma tables_ok_round rounds st j p :
  tables_ok tt rounds st → 0 ≤ j ≤ rounds → p ∈ stops tt →
  ∃ bj lj, bag_round_stop st !! j = Some bj ∧ bj !! inl p = Some lj.
Proof.
  intros [_ Hdom] Hj Hp%elem_of_stop_keys. specialize (Hdom j Hj).
  destruct (bag_round_stop st !! j) as [bj|]; simpl in Hdom; [|done].
  simplify_eq. exists bj.
  assert (inl p ∈ dom bj) as [lj ?]%elem_of_dom by set_solver. eauto.
Qed.

Lemma rtc_wstep_tables_ok rounds k st st' :
  rtc (wstep k) st st' → tables_ok tt rounds st → tables_ok tt rounds st'.
Proof.
  intros [H1 H2]%rtc_wstep_dom [Hs Hr]. split; [congruence|].
  intros j Hj. rewrite H2. by apply Hr.
Qed.

Lemma update_both_total rounds st k p v trp frm :
  tables_ok tt rounds st → 0 ≤ k ≤ rounds → p ∈ stops tt →
  ∃ st', update_both st k p v trp frm = Some st'.
Proof.
  intros Hok Hk Hp.
  destruct (tables_ok_star _ _ _ Hok Hp) as [ls Hls].
  destruct (tables_ok_round _ _ _ _ Hok Hk Hp) as (bk & lk & Hbk & Hlk).
  eexists. apply update_both_Some. by exists bk, lk, ls.
Qed.

Lemma improve_by_trip_total rounds k st ns ct bs c :
  tables_ok tt rounds st → 0 ≤ k ≤ rounds → c ∈ stops tt →
  ∃ res, improve_by_trip tt k st ns ct bs c = Some res.
Proof.
  intros Hok Hk Hc. unfold improve_by_trip.
  destruct ct as [t|]; [|eauto].
  destruct (tables_ok_star _ _ _ Hok Hc) as [ls ->]. simpl.
  destruct (_ && _); [|eauto].
  destruct (update_both_total rounds st k c (dts_arr (get_stop tt t c))
              (ByTrip t) bs Hok Hk Hc) as [st' ->].
  simpl. eauto.
Qed.

Lemma catch_trip_total rounds k r st ct bs c :
  tables_ok tt rounds st → 1 ≤ k ≤ rounds → c ∈ stops tt →
  ∃ res, catch_trip tt k r st ct bs c = Some res.
Proof.
  intros Hok Hk Hc. unfold catch_trip.
  destruct (tables_ok_round rounds st (k - 1) c Hok) as (bp & lp & -> & Hlp);
    [lia|done|].
  simpl. rewrite Hlp. simpl.
  repeat case_match; eauto.
Qed.

Lemma scan_stop_total rounds k r sc c :
  tables_ok tt rounds (sc_state sc) → 1 ≤ k ≤ rounds → c ∈ stops tt →
  Forall (λ x, x ∈ stops tt) (sc_new_stops sc) →
  ∃ sc', scan_stop tt k r sc c = Some sc'
         ∧ tables_ok tt rounds (sc_state sc')
         ∧ Forall (λ x, x ∈ stops tt) (sc_new_stops sc').
Proof.
  intros Hok Hk Hc Hns.
  cut (∃ sc', scan_stop tt k r sc c = Some sc'
              ∧ Forall (λ x, x ∈ stops tt) (sc_new_stops sc')).
  { intros (sc' & Hsc & ?). exists sc'. split; [done|]. split; [|done].
    eapply rtc_wstep_tables_ok; [by eapply scan_stop_trace|done]. }
  unfold scan_stop.
  destruct (improve_by_trip_total rounds k (sc_state sc) (sc_new_stops sc)
              (sc_current_trip sc) (sc_boarding_stop sc) c)
    as [[st1 ns1] Hi]; [done|lia|done|].
  rewrite Hi. simpl.
  destruct (catch_trip_total rounds k r st1 (sc_current_trip sc)
              (sc_boarding_stop sc) c) as [[ct1 bs1] ->]; [|done|done|].
  - eapply rtc_wstep_tables_ok; [by eapply improve_by_trip_trace|done].
  - simpl. eexists. split; [done|]. simpl.
    apply improve_by_trip_inv in Hi
      as [[_ ->]|(_ & _ & _ & _ & _ & _ & _ & _ & _ & ->)]; [done|].
    apply Forall_app. split; [done|]. by apply Forall_singleton.
Qed.

Lemma scan_route_total rounds k (acc : StateT * list Stop) r m :
  timetable_closed tt →
  tables_ok tt rounds acc.1 → 1 ≤ k ≤ rounds →
  Forall (λ x, x ∈ stops tt) acc.2 →
  r ∈ get_routes_of_stop tt m →
  ∃ acc', scan_route tt k acc (r, m) = Some acc'
          ∧ tables_ok tt rounds acc'.1
          ∧ Forall (λ x, x ∈ stops tt) acc'.2.
Proof.
  intros [Hclosed _] Hok Hk Hns Hr. unfold scan_route.
  edestruct (foldM_total (λ sc : @Scan Stop Station Trip _ _ _ _,
                            tables_ok tt rounds (sc_state sc)
                            ∧ Forall (λ x, x ∈ stops tt) (sc_new_stops sc))
               (scan_stop tt k r)) as (sc' & -> & Hok'); [|split; [exact Hok|exact Hns]|].
  - intros sc c Hc [Hsc Hscn]. apply scan_stop_total; [done..| |done].
    eapply Hclosed; [done|]. by eapply subseteq_drop.
  - simpl. eauto.
Qed.

(** Invariants of a [for] loop that cannot raise. *)
Lemma foldl_inv {A B : Type} (P : B → Prop) (f : B → A → B) (xs : list A) (b : B) :
  (∀ b1 x, x ∈ xs → P b1 → P (f b1 x)) → P b → P (foldl f b xs).
Proof.
  revert b. induction xs as [|x xs IH]; intros b Hstep Hb; simpl; [done|].
  apply IH.
  - intros b1 y Hy. apply Hstep. by right.
  - apply Hstep; [by left|done].
Qed.

Lemma elem_of_q_set (r : Route) (p : Stop) q x :
  x ∈ q_set r p q → x = (r, p) ∨ x ∈ q.
Proof.
  induction q as [|[r' p'] q IH]; simpl.
  - intros ->%list_elem_of_singleton. by left.
  - case_decide.
    + intros [->|?]%elem_of_cons; [by left|]. right. by right.
    + intros [->|[->|?]%IH]%elem_of_cons; [right; by left|by left|].
      right. by right.
Qed.

(** Every entry of [Q] is a route with a marked stop that it serves. *)
Lemma accumulate_routes_served marked r p :
  (r, p) ∈ accumulate_routes tt marked →
  p ∈ marked ∧ r ∈ get_routes_of_stop tt p.
Proof.
  unfold accumulate_routes. revert r p.
  apply (foldl_inv (λ q : list (Route * Stop),
           ∀ r p, (r, p) ∈ q → p ∈ marked ∧ r ∈ get_routes_of_stop tt p)).
  - intros q m Hm Hq.
    apply (foldl_inv (λ q : list (Route * Stop),
             ∀ r p, (r, p) ∈ q → p ∈ marked ∧ r ∈ get_routes_of_stop tt p));
      [|done].
    intros q1 r1 Hr1 Hq1 r p. unfold accumulate_route.
    repeat case_match; try apply Hq1;
      by intros [?|?]%elem_of_q_set; [simplify_eq|apply Hq1].
  - intros r p []%elem_of_nil.
Qed.

Lemma traverse_routes_total rounds st k marked :
  timetable_closed tt → tables_ok tt rounds st → 1 ≤ k ≤ rounds →
  ∃ st' ns, traverse_routes tt st k (accumulate_routes tt marked) = Some (st', ns)
            ∧ tables_ok tt rounds st'
            ∧ Forall (λ x, x ∈ stops tt) ns.
Proof.
  intros Hclosed Hok Hk. unfold traverse_routes.
  edestruct (foldM_total (λ acc : StateT * list Stop,
                            tables_ok tt rounds acc.1
                            ∧ Forall (λ x, x ∈ stops tt) acc.2)
               (scan_route tt k) (accumulate_routes tt marked) (st, []))
    as ([st' ns] & Hrun & Hok' & Hns); [|by split|by eauto].
  intros acc [r m] Hrm [Hacc Haccn].
  apply accumulate_routes_served in Hrm as [_ Hr].
  by apply scan_route_total.
Qed.

Lemma relax_transfer_total rounds k c ts (acc : StateT * list Stop) tr :
  tables_ok tt rounds acc.1 → 0 ≤ k ≤ rounds → to_stop tr ∈ stops tt →
  ∃ acc', relax_transfer TRANSFER_TRIP k c ts acc tr = Some acc'
          ∧ tables_ok tt rounds acc'.1.
Proof.
  intros Hok Hk Hto.
  cut (∃ acc', relax_transfer TRANSFER_TRIP k c ts acc tr = Some acc').
  { intros [acc' Hacc]. exists acc'. split; [done|].
    eapply rtc_wstep_tables_ok; [by eapply relax_transfer_trace|done]. }
  unfold relax_transfer. destruct (layovertime tr) as [cost|]; [|eauto].
  destruct (tables_ok_star _ _ _ Hok Hto) as [ls ->]. simpl.
  case_match; [|eauto].
  destruct (update_both_total rounds acc.1 k (to_stop tr) (ts + cost)
              TRANSFER_TRIP (Some c) Hok Hk Hto) as [st' ->].
  simpl. eauto.
Qed.

Lemma relax_stop_total rounds k (acc : StateT * list Stop) c :
  timetable_closed tt → tables_ok tt rounds acc.1 → 0 ≤ k ≤ rounds →
  c ∈ stops tt →
  ∃ acc', relax_stop tt TRANSFER_TRIP k acc c = Some acc'
          ∧ tables_ok tt rounds acc'.1.
Proof.
  intros [_ Hclosed] Hok Hk Hc. unfold relax_stop.
  destruct (tables_ok_round _ _ _ _ Hok Hk Hc) as (bk & lk & -> & Hlk).
  simpl. rewrite Hlk. simpl.
  destruct (Hclosed c Hc) as (trs & -> & Htrs). simpl.
  apply (foldM_total (λ a : StateT * list Stop, tables_ok tt rounds a.1));
    [|done].
  intros a tr Htr Ha. apply relax_transfer_total; auto.
Qed.

Lemma add_transfer_time_total rounds st k marked :
  timetable_closed tt → tables_ok tt rounds st → 0 ≤ k ≤ rounds →
  Forall (λ x, x ∈ stops tt) marked →
  ∃ st' ns, add_transfer_time tt TRANSFER_TRIP st k marked = Some (st', ns)
            ∧ tables_ok tt rounds st'.
Proof.
  intros Hclosed Hok Hk Hmarked. unfold add_transfer_time.
  edestruct (foldM_total (λ a : StateT * list Stop, tables_ok tt rounds a.1)
               (relax_stop tt TRANSFER_TRIP k) marked (st, []))
    as ([st' ns] & Hrun & Hok'); [|done|by eauto].
  intros a c Hc Ha. apply relax_stop_total; try done.
  by eapply Forall_forall in Hmarked.
Qed.

Lemma round_total rounds k st marked :
  timetable_closed tt → tables_ok tt rounds st → 1 ≤ k ≤ rounds →
  ∃ st' marked', round tt TRANSFER_TRIP set_order k st marked = Some (st', marked')
                 ∧ tables_ok tt rounds st'.
Proof.
  intros Hclosed Hok Hk. unfold round.
  destruct (traverse_routes_total rounds st k marked Hclosed Hok Hk)
    as (st1 & ns1 & -> & Hok1 & Hns1). simpl.
  destruct (add_transfer_time_total rounds st1 k ns1 Hclosed Hok1)
    as (st2 & ns2 & -> & Hok2); [lia|done|]. simpl. eauto.
Qed.

Lemma run_rounds_total rounds ks st marked :
  timetable_closed tt → tables_ok tt rounds st →
  Forall (λ k, 1 ≤ k ≤ rounds) ks →
  ∃ st', run_rounds tt TRANSFER_TRIP set_order ks st marked = Some st'.
Proof.
  intros Hclosed. revert st marked.
  induction ks as [|k ks IH]; intros st marked Hok Hks; simpl; [eauto|].
  apply Forall_cons in Hks as [Hk Hks].
  case_bool_decide; [|eauto].
  destruct (round_total rounds k st marked Hclosed Hok Hk)
    as (st1 & marked1 & -> & Hok1). simpl. by apply IH.
Qed.

Lemma init_state_tables_ok to_station rounds :
  tables_ok tt rounds (init_state tt LARGE_NUMBER to_station rounds).
Proof.
  split; simpl.
  - apply set_eq. intros key. rewrite elem_of_dom, lookup_add_stop_labels.
    case_decide; [|by split; [intros []|]]. split; [done|eauto].
  - intros j Hj. rewrite lookup_init_bag_round_stop, decide_True by done.
    simpl. f_equal. apply set_eq. intros key.
    rewrite elem_of_dom, lookup_fresh_round_bag.
    case_decide; [|by split; [intros []|]]. split; [done|eauto].
Qed.

Lemma mark_origins_total rounds dep_secs from_stops (acc : StateT * list Stop) :
  tables_ok tt rounds acc.1 → (0 ≤ rounds ∨ from_stops = []) →
  Forall (λ p, p ∈ stops tt) from_stops →
  ∃ acc', foldM (mark_origin dep_secs) acc from_stops = Some acc'
          ∧ tables_ok tt rounds acc'.1.
Proof.
  intros Hok Hrounds Hfrom.
  apply (foldM_total (λ a : StateT * list Stop, tables_ok tt rounds a.1));
    [|done].
  intros a o Ho Ha. unfold mark_origin.
  destruct Hrounds as [Hrounds| ->]; [|by apply elem_of_nil in Ho].
  destruct (update_both_total rounds a.1 0 o dep_secs NoTrip None)
    as [st' Hst']; [done|lia|by eapply Forall_forall in Hfrom|].
  rewrite Hst'. simpl. eexists. split; [done|]. simpl.
  apply update_both_dom in Hst' as [H1 H2]. destruct Ha as [Ha1 Ha2].
  split; [congruence|]. intros j Hj. rewrite H2. by apply Ha2.
Qed.

Lemma run_state_total from_stops to_station dep_secs rounds :
  timetable_closed tt → (0 ≤ rounds ∨ from_stops = []) →
  Forall (λ p, p ∈ stops tt) from_stops →
  ∃ st, run_state tt LARGE_NUMBER TRANSFER_TRIP set_order
                  from_stops to_station dep_secs rounds = Some st.
Proof.
  intros Hclosed Hrounds Hfrom. unfold run_state.
  destruct (mark_origins_total rounds dep_secs from_stops
              (init_state tt LARGE_NUMBER to_station rounds, []))
    as ([st0 marked] & -> & Hok); [apply init_state_tables_ok|done..|].
  simpl. apply (run_rounds_total rounds); [done..|].
  apply Forall_forall. intros k Hk%elem_of_seqZ. lia.
Qed.

(** The keys of [bag_star] are fixed when [run] creates it. *)
Lemma run_state_dom from_stops to_station dep_secs rounds st :
  run_state tt LARGE_NUMBER TRANSFER_TRIP set_order
            from_stops to_station dep_secs rounds = Some st →
  dom (bag_star st) = stop_keys tt.
Proof.
  unfold run_state. intros Hr.
  destruct (foldM _ _ _) as [[st0 marked]|] eqn:Hf; simpl in Hr; [|done].
  assert (dom (bag_star st0) = stop_keys tt) as Hst0.
  { revert Hf.
    apply (foldM_inv (λ a : StateT * list Stop,
             dom (bag_star a.1) = stop_keys tt) _ _ _ (st0, marked)).
    - intros a1 o a2 _ Ha1 Hm. unfold mark_origin in Hm.
      destruct (update_both a1.1 0 o dep_secs NoTrip None) as [st1|] eqn:Hu;
        simpl in Hm; [|done].
      simplify_eq. simpl. apply update_both_dom in Hu as [-> _]. done.
    - apply init_state_tables_ok with (rounds := rounds). }
  rewrite <- Hst0. clear Hf Hst0. revert st0 marked Hr.
  induction (seqZ 1 rounds) as [|k ks IH]; intros st0 marked Hr; simpl in Hr.
  - by simplify_eq.
  - case_bool_decide; [|by simplify_eq].
    destruct (round _ _ _ _ _ _) as [[st1 marked1]|] eqn:Hround;
      simpl in Hr; [|done].
    apply IH in Hr. rewrite Hr.
    by apply round_trace, rtc_wstep_dom in Hround as [-> _].
Qed.

(** C8: throughout a run the arrival times of the global-best table
    [bag_star] never increase.  The origin loop of [run] sets the labels of
    the origin stops to the departure time and leaves the others at the
    sentinel; after that, every iteration that writes ([scan_stop] of the route
    traversal, [relax_transfer] of the transfer phase), every phase and the
    whole loop over the rounds leave each label of [bag_star] unchanged or
    with a strictly smaller arrival time. *)
Theorem bag_star_never_increases :
  (∀ from_stops to_station dep_secs rounds st0 marked,
     foldM (mark_origin dep_secs)
           (init_state tt LARGE_NUMBER to_station rounds, []) from_stops
       = Some (st0, marked) →
     ∀ p l, bag_star st0 !! inl p = Some l →
       earliest_arrival_time l
       = if decide (p ∈ from_stops) then dep_secs else LARGE_NUMBER)
  ∧ (∀ k r sc c sc', scan_stop tt k r sc c = Some sc' →
       star_le (sc_state sc') (sc_state sc))
  ∧ (∀ k c ts (acc acc' : StateT * list Stop) tr,
       relax_transfer TRANSFER_TRIP k c ts acc tr = Some acc' →
       star_le acc'.1 acc.1)
  ∧ (∀ st k q st' ns, traverse_routes tt st k q = Some (st', ns) →
       star_le st' st)
  ∧ (∀ st k marked st' ns,
       add_transfer_time tt TRANSFER_TRIP st k marked = Some (st', ns) →
       star_le st' st)
  ∧ (∀ ks st marked st',
       run_rounds tt TRANSFER_TRIP set_order ks st marked = Some st' →
       star_le st' st).
Proof.
  split; [|repeat split].
  - intros from_stops to_station dep_secs rounds st0 marked Hf p l.
    apply mark_origins_star in Hf as [_ Hstar]. rewrite Hstar. simpl.
    rewrite lookup_add_stop_labels.
    destruct (decide (p ∈ from_stops)) as [Hin|Hin].
    + rewrite decide_True by by apply list_elem_of_fmap_2.
      case_decide; simpl; [|done]. by intros ?; simplify_eq.
    + rewrite decide_False.
      * case_decide; [|done]. by intros ?; simplify_eq.
      * intros (q & ? & ?)%list_elem_of_fmap. by simplify_eq.
  - intros k r sc c sc' Hs. eapply rtc_wstep_star_le, scan_stop_trace, Hs.
  - intros k c ts acc acc' tr Hr.
    eapply rtc_wstep_star_le, relax_transfer_trace, Hr.
  - intros st k q st' ns Ht.
    eapply rtc_wstep_star_le, traverse_routes_trace, Ht.
  - intros st k marked st' ns Ha.
    eapply rtc_wstep_star_le, add_transfer_time_trace, Ha.
  - intros ks st marked st'. apply run_rounds_star_le.
Qed.

(** C1, as the code has it: the labels of round [k] start from [Label()]
    and are not copied from round [k - 1].  When the departure time does not
    exceed the sentinel, after a run the round-[k] label of a stop is either
    still as [Label()] made it (its arrival time is the sentinel, which no
    label exceeds) or its arrival time is strictly below the one of round
    [k - 1]; and the global-best arrival time of the stop is at most that of
    every round.  What never regresses from one round to the next is the
    global-best table: a round leaves each of its labels unchanged or with
    a strictly smaller arrival time. *)
Theorem round_label_fresh_or_improved from_stops to_station dep_secs rounds st :
  dep_secs ≤ LARGE_NUMBER →
  run_state tt LARGE_NUMBER TRANSFER_TRIP set_order
            from_stops to_station dep_secs rounds = Some st →
  (∀ k p lk lp ls,
     1 ≤ k →
     round_label st k (inl p) = Some lk →
     round_label st (k - 1) (inl p) = Some lp →
     bag_star st !! inl p = Some ls →
     earliest_arrival_time ls ≤ earliest_arrival_time lk
     ∧ ((lk = new_Label LARGE_NUMBER
         ∧ earliest_arrival_time lp ≤ earliest_arrival_time lk)
        ∨ earliest_arrival_time lk < earliest_arrival_time lp))
  ∧ (∀ k st1 marked st2 marked',
       round tt TRANSFER_TRIP set_order k st1 marked = Some (st2, marked') →
       star_le st2 st1).
Proof.
  intros Hdep Hr. split.
  - intros k p lk lp ls Hk Hlk Hlp Hls.
    apply run_state_round_inv in Hr as (HJ & [_ HB] & _ & HR); [|done].
    split; [by eapply HJ|].
    destruct (HR _ _ _ _ Hk Hlk Hlp) as [->|?]; [left|by right].
    split; [done|]. simpl. by eapply HB.
  - intros k st1 marked st2 marked' Hround.
    eapply rtc_wstep_star_le, round_trace, Hround.
Qed.

(** C4, as the code has it: [bag_star] is created with one label per stop
    only (the stations get labels in the bags of the rounds, not here).
    [run] returns a table on a closed timetable (the stops of the routes
    and the targets of the transfers are stops of the timetable, and the
    transfer index has an entry for every stop), with origin stops of the
    timetable and a non-negative number of rounds.  Whenever [run] returns
    a table, its keys are exactly the stops of the timetable, no station is
    a key, and (when the departure time does not exceed the sentinel) the
    arrival time of each stop's label is at most that of the stop's label
    of every round. *)
Theorem run_keys_are_the_stops from_stops to_station dep_secs rounds :
  (timetable_closed tt → 0 ≤ rounds →
   Forall (λ p, p ∈ stops tt) from_stops →
   is_Some (run tt LARGE_NUMBER TRANSFER_TRIP set_order
                from_stops to_station dep_secs rounds))
  ∧ ∀ bag,
      run tt LARGE_NUMBER TRANSFER_TRIP set_order
          from_stops to_station dep_secs rounds = Some bag →
      ∃ st,
        run_state tt LARGE_NUMBER TRANSFER_TRIP set_order
                  from_stops to_station dep_secs rounds = Some st
        ∧ bag = bag_star st
        ∧ dom bag = stop_keys tt
        ∧ (∀ p, p ∈ stops tt ↔ is_Some (bag !! inl p))
        ∧ (∀ s, bag !! inr s = None)
        ∧ (dep_secs ≤ LARGE_NUMBER → star_below_rounds st).
Proof.
  split.
  - intros Hclosed Hrounds Hfrom.
    destruct (run_state_total from_stops to_station dep_secs rounds)
      as [st Hst]; [done|by left|done|].
    unfold run. rewrite Hst. by eexists.
  - intros bag Hrun. unfold run in Hrun.
    destruct (run_state _ _ _ _ _ _ _ _) as [st|] eqn:Hst;
      simplify_eq/=.
    exists st. pose proof (run_state_dom _ _ _ _ _ Hst) as Hdom.
    repeat split; try done.
    + intros Hp%elem_of_stop_keys. rewrite <- Hdom in Hp.
      by apply elem_of_dom.
    + intros Hp%elem_of_dom. rewrite Hdom in Hp. by apply elem_of_stop_keys.
    + intros s. apply not_elem_of_dom. rewrite Hdom. unfold stop_keys.
      rewrite elem_of_list_to_set, list_elem_of_fmap. by intros (? & ? & ?).
    + intros Hdep. by apply (run_state_round_inv _ _ _ _ _ Hdep Hst).
Qed.

(** ** The station index *)

Lemma stations_get_Some name :
  name ∈ stations tt → stations_get tt name = Some name.
Proof. intros Hname. unfold stations_get. by rewrite decide_True. Qed.

Lemma stations_get_inv name station :
  stations_get tt name = Some station → station = name ∧ name ∈ stations tt.
Proof. unfold stations_get. case_decide; naive_solver. Qed.

Lemma stations_get_None name :
  stations_get tt name = None ↔ name ∉ stations tt.
Proof. unfold stations_get. case_decide; naive_solver. Qed.

Lemma stations_get_stops_Some name :
  name ∈ stations tt →
  stations_get_stops tt name = Some (station_stops tt name).
Proof.
  intros Hname. unfold stations_get_stops, stations_getitem.
  by rewrite stations_get_Some.
Qed.

Lemma stations_get_stops_inv name stops :
  stations_get_stops tt name = Some stops →
  stops = station_stops tt name ∧ name ∈ stations tt.
Proof.
  unfold stations_get_stops, stations_getitem.
  destruct (stations_get tt name) as [station|] eqn:Hget; simpl; [|done].
  apply stations_get_inv in Hget as [-> ?]. naive_solver.
Qed.

(** ** Queries without origin stops *)

Lemma run_state_no_origin to_station dep_secs rounds :
  run_state tt LARGE_NUMBER TRANSFER_TRIP set_order [] to_station dep_secs rounds
  = Some (init_state tt LARGE_NUMBER to_station rounds).
Proof. unfold run_state. simpl. by destruct (seqZ 1 rounds). Qed.

Lemma best_stop_unreached (to_stops : list Stop)
    (bag : gmap (Stop + Station) (@Label Stop Trip)) :
  (∀ key l, bag !! key = Some l → l = new_Label LARGE_NUMBER) →
  Forall (λ p, is_Some (bag !! inl p)) to_stops →
  best_stop_at_target_station LARGE_NUMBER to_stops bag = Some Zero.
Proof.
  intros Hbag Hto. unfold best_stop_at_target_station.
  cut (foldM (best_stop_step bag) (Zero, LARGE_NUMBER) to_stops
       = Some (Zero, LARGE_NUMBER)); [by intros ->|].
  induction Hto as [|p to_stops [l Hl] _ IH]; [done|].
  assert (best_stop_step bag (Zero, LARGE_NUMBER) p = Some (Zero, LARGE_NUMBER))
    as Hstep.
  { unfold best_stop_step. rewrite Hl. simpl.
    rewrite (Hbag _ _ Hl). simpl. by rewrite Z.ltb_irrefl. }
  cbn [foldM]. by rewrite Hstep.
Qed.

(** C7: a query without origin stops.  The origin loop marks no stop, so
    the loop over the rounds leaves at once and the final state is the
    initial one; every label of the returned table is as [Label()] made it
    (sentinel arrival time, no from-stop); for destination stops of the
    timetable the selector returns [0]; the point query then returns no
    journey and the range query an empty list, for whatever departure times
    it tries. *)
Theorem no_origin_no_journey to_station dep_secs rounds to_stops :
  Forall (λ p, p ∈ stops tt) to_stops →
  foldM (mark_origin dep_secs)
        (init_state tt LARGE_NUMBER to_station rounds, []) []
    = Some (init_state tt LARGE_NUMBER to_station rounds, [])
  ∧ (∀ ks st, run_rounds tt TRANSFER_TRIP set_order ks st [] = Some st)
  ∧ run_state tt LARGE_NUMBER TRANSFER_TRIP set_order
              [] to_station dep_secs rounds
    = Some (init_state tt LARGE_NUMBER to_station rounds)
  ∧ ∃ bag,
      run tt LARGE_NUMBER TRANSFER_TRIP set_order [] to_station dep_secs rounds
        = Some bag
      ∧ (∀ key l, bag !! key = Some l →
           l = new_Label LARGE_NUMBER
           ∧ earliest_arrival_time l = LARGE_NUMBER ∧ from_stop l = None)
      ∧ best_stop_at_target_station LARGE_NUMBER to_stops bag = Some Zero
      ∧ (∀ Journey_bool dep arr fuel dep_secs_list,
           to_station ∈ stations tt →
           range_loop tt LARGE_NUMBER TRANSFER_TRIP set_order Journey_bool dep arr
                      fuel [] to_stops to_station rounds [] dep_secs_list
           = Returns [])
      ∧ (∀ Journey_bool dep arr fuel origin dep_secs_min dep_secs_max,
           origin ∈ stations tt →
           to_station ∈ stations tt →
           station_stops tt origin = [] →
           station_stops tt to_station = to_stops →
           run_raptor tt LARGE_NUMBER TRANSFER_TRIP set_order
                      fuel origin to_station dep_secs rounds = Returns None
           ∧ run_range_raptor tt LARGE_NUMBER TRANSFER_TRIP set_order
                      Journey_bool dep arr fuel origin to_station
                      dep_secs_min dep_secs_max rounds = Returns []).
Proof.
  intros Hto.
  assert (∀ key l, add_stop_labels (Station:=Station) tt LARGE_NUMBER ∅ !! key
                   = Some l → l = new_Label LARGE_NUMBER) as Hfresh.
  { intros key l. rewrite lookup_add_stop_labels. case_decide; naive_solver. }
  assert (∀ d, run tt LARGE_NUMBER TRANSFER_TRIP set_order [] to_station d rounds
               = Some (add_stop_labels tt LARGE_NUMBER ∅)) as Hrun.
  { intros d. unfold run. by rewrite run_state_no_origin. }
  assert (best_stop_at_target_station LARGE_NUMBER to_stops
            (add_stop_labels (Station:=Station) tt LARGE_NUMBER ∅) = Some Zero)
    as Hbest.
  { apply best_stop_unreached; [done|].
    eapply Forall_impl; [done|]. intros p Hp. simpl.
    rewrite lookup_add_stop_labels, decide_True by by apply elem_of_stop_keys.
    eauto. }
  assert (∀ Journey_bool dep arr fuel dep_secs_list,
           to_station ∈ stations tt →
           range_loop tt LARGE_NUMBER TRANSFER_TRIP set_order Journey_bool dep arr
                      fuel [] to_stops to_station rounds [] dep_secs_list
           = Returns []) as Hrange.
  { intros Jb dep arr fuel dep_secs_list Hstation.
    induction dep_secs_list as [|d ds IH]; [done|].
    cbn [range_loop]. unfold range_step, stations_getitem.
    by rewrite stations_get_Some, Hrun, Hbest. }
  split; [done|]. split; [by intros [|k ks] st|].
  split; [apply run_state_no_origin|].
  eexists. split; [apply Hrun|]. split; [|split; [done|split; [done|]]].
  - intros key l ->%Hfresh. done.
  - intros Jb dep arr fuel origin dmin dmax Hfrom Hstation Horigin Hdest.
    split.
    + unfold run_raptor, stations_getitem.
      rewrite !stations_get_Some by done.
      by rewrite Horigin, Hdest, Hrun, Hbest.
    + unfold run_range_raptor. rewrite !stations_get_stops_Some by done.
      rewrite Horigin, Hdest. by apply Hrange.
Qed.


(** C6: the transfer phase of round [k] is the loop of [relax_stop] over
    the stops marked by the route traversal.  For a marked stop [c], whose
    round-[k] label is [lc] when its turn comes and whose transfers are
    [trs], it runs [relax_transfer] over [trs] with the arrival time of
    [lc].  For a transfer with layover [cost], met in any state [a] of
    that loop, the candidate is that arrival time plus [cost]: if it is
    strictly below the target's arrival time in [bag_star], the target's
    label of round [k] and its label in [bag_star] become (candidate,
    TRANSFER_TRIP, [c]), the target is appended to the marked stops and
    nothing else changes; otherwise nothing changes at all. *)
Theorem transfer_relaxation k c trs lc (acc : StateT * list Stop) :
  round_label acc.1 k (inl c) = Some lc →
  from_stop_idx tt c = Some trs →
  (∀ st marked_stops,
     add_transfer_time tt TRANSFER_TRIP st k marked_stops
     = foldM (relax_stop tt TRANSFER_TRIP k) (st, []) marked_stops)
  ∧ relax_stop tt TRANSFER_TRIP k acc c
    = foldM (relax_transfer TRANSFER_TRIP k c (earliest_arrival_time lc)) acc trs
  ∧ ∀ (a : StateT * list Stop) tr cost lk ls,
      layovertime tr = Some cost →
      round_label a.1 k (inl (to_stop tr)) = Some lk →
      bag_star a.1 !! inl (to_stop tr) = Some ls →
      if decide (earliest_arrival_time lc + cost < earliest_arrival_time ls)
      then
        ∃ st',
          relax_transfer TRANSFER_TRIP k c (earliest_arrival_time lc) a tr
          = Some (st', a.2 ++ [to_stop tr])
          ∧ bag_star st' !! inl (to_stop tr)
            = Some (mkLabel (earliest_arrival_time lc + cost)
                            TRANSFER_TRIP (Some c))
          ∧ round_label st' k (inl (to_stop tr))
            = Some (mkLabel (earliest_arrival_time lc + cost)
                            TRANSFER_TRIP (Some c))
          ∧ (∀ key, key ≠ inl (to_stop tr) →
                    bag_star st' !! key = bag_star a.1 !! key)
          ∧ (∀ j key, ¬ (j = k ∧ key = inl (to_stop tr)) →
                      round_label st' j key = round_label a.1 j key)
      else
        relax_transfer TRANSFER_TRIP k c (earliest_arrival_time lc) a tr = Some a.
Proof.
  intros Hlc Htrs. split; [done|]. split.
  - unfold relax_stop. unfold round_label in Hlc.
    destruct (bag_round_stop acc.1 !! k) as [bk|]; simpl in *; [|done].
    by rewrite Hlc, Htrs.
  - intros a tr cost lk ls Hcost Hlk Hls. unfold relax_transfer.
    rewrite Hcost, Hls. simpl.
    destruct (Z.ltb_spec (earliest_arrival_time lc + cost)
                         (earliest_arrival_time ls)) as [Hlt|Hge].
    + rewrite decide_True by done.
      destruct (update_both a.1 k (to_stop tr) (earliest_arrival_time lc + cost)
                  TRANSFER_TRIP (Some c)) as [st'|] eqn:Hu.
      * simpl. exists st'. split; [done|].
        apply update_both_lookup in Hu
          as (lk' & ls' & _ & _ & Hstar & Hround & _).
        repeat split.
        -- by rewrite Hstar, decide_True.
        -- by rewrite Hround, decide_True.
        -- intros key Hkey. by rewrite Hstar, decide_False.
        -- intros j key Hkey. by rewrite Hround, decide_False.
      * exfalso. unfold round_label in Hlk.
        destruct (bag_round_stop a.1 !! k) as [bk|] eqn:Hbk; simpl in Hlk;
          [|done].
        assert (is_Some (update_both a.1 k (to_stop tr)
                  (earliest_arrival_time lc + cost) TRANSFER_TRIP (Some c)))
          as [? ?]; [|congruence].
        eexists. apply update_both_Some. by exists bk, lk, ls.
    + rewrite decide_False by lia. done.
Qed.


(** ** reconstruct_journey *)

Lemma reconstruct_loop_walk (bag : gmap (Stop + Station) (@Label Stop Trip))
    p legs :
  backward_walk bag p legs →
  ∀ fuel journey, (length legs < fuel)%nat →
    reconstruct_loop fuel bag p journey = Returns (reverse legs ++ journey).
Proof.
  induction 1 as [p l Hl Hfrom | p l q legs Hl Hfrom _ IH];
    intros [|fuel] journey Hfuel; simpl in Hfuel; try lia; simpl;
    rewrite Hl, Hfrom; [done|].
  rewrite IH by lia. unfold prepend_leg.
  by rewrite reverse_cons, <- app_assoc.
Qed.

Lemma reconstruct_loop_returns (bag : gmap (Stop + Station) (@Label Stop Trip))
    fuel p journey journey' :
  reconstruct_loop fuel bag p journey = Returns journey' →
  ∃ legs, backward_walk bag p legs ∧ (length legs < fuel)%nat
          ∧ journey' = reverse legs ++ journey.
Proof.
  revert p journey. induction fuel as [|fuel IH]; intros p journey Hr;
    simpl in Hr; [done|].
  destruct (bag !! inl p) as [l|] eqn:Hl; [|done].
  destruct (from_stop l) as [q|] eqn:Hfrom.
  - apply IH in Hr as (legs & Hwalk & Hlen & ->).
    eexists. split; [by eapply walk_leg|]. split; [simpl; lia|].
    unfold prepend_leg. by rewrite reverse_cons, <- app_assoc.
  - simplify_eq. exists []. split; [by eapply walk_origin|].
    split; [simpl; lia|done].
Qed.

(** C5: when the label of the destination has no from-stop,
    [reconstruct_journey] returns the journey without legs; when the
    backward walk from the destination reaches a label without from-stop,
    it returns the legs of the walk in reversed, that is chronological,
    order, each leg made of the label's from-stop, the stop, the label's
    trip and its arrival time.  It returns nothing else. *)
Theorem reconstruct_journey_walk
    (bag : gmap (Stop + Station) (@Label Stop Trip)) (destination : Stop) :
  (∀ l fuel, bag !! inl destination = Some l → from_stop l = None →
     reconstruct_journey (S fuel) destination bag = Returns [])
  ∧ (∀ legs fuel, backward_walk bag destination legs →
       (length legs < fuel)%nat →
       reconstruct_journey fuel destination bag = Returns (reverse legs))
  ∧ (∀ fuel journey,
       reconstruct_journey fuel destination bag = Returns journey →
       ∃ legs, backward_walk bag destination legs ∧ journey = reverse legs).
Proof.
  unfold reconstruct_journey, new_Journey. repeat split.
  - intros l fuel Hl Hfrom. simpl. by rewrite Hl, Hfrom.
  - intros legs fuel Hwalk Hfuel.
    by rewrite (reconstruct_loop_walk _ _ _ Hwalk), app_nil_r.
  - intros fuel journey (legs & Hwalk & _ & ->)%reconstruct_loop_returns.
    exists legs. by rewrite app_nil_r.
Qed.

(** ** is_dominated and the range query *)

Section Domination.
Variable Journey_bool : @Journey Stop Trip → bool.
Variable dep : @Journey Stop Trip → option Z.
Variable arr : @Journey Stop Trip → option Z.

Lemma is_dominated_true original_journey new_journey :
  is_dominated Journey_bool dep arr original_journey new_journey = Some true ↔
  Journey_bool original_journey = true
  ∧ (original_journey = new_journey
     ∨ dominated_by dep arr new_journey original_journey).
Proof.
  unfold is_dominated, dominated_by.
  destruct (Journey_bool original_journey); simpl; [|naive_solver].
  case_decide; [naive_solver|].
  destruct (dep original_journey) as [od|], (dep new_journey) as [nd|],
    (arr original_journey) as [oa|], (arr new_journey) as [na|]; simpl;
    try (split; [done|intros [_ [?|(?&?&?&?&?&?&?&?&?)]]; done]).
  split.
  - intros [= Hb]. split; [done|]. right. exists nd, na, od, oa.
    rewrite orb_true_iff, !andb_true_iff, Z.geb_le, Z.gtb_lt, Z.ltb_lt,
      Z.leb_le in Hb.
    repeat split; try done; lia.
  - intros [_ [?|(nd' & na' & od' & oa' & ? & ? & ? & ? & ?)]]; [done|].
    simplify_eq. f_equal.
    rewrite orb_true_iff, !andb_true_iff, Z.geb_le, Z.gtb_lt, Z.ltb_lt,
      Z.leb_le. lia.
Qed.

Lemma is_dominated_false original_journey new_journey :
  is_dominated Journey_bool dep arr original_journey new_journey = Some false ↔
  Journey_bool original_journey = false
  ∨ (original_journey ≠ new_journey
     ∧ times_known dep arr new_journey original_journey
     ∧ ¬ dominated_by dep arr new_journey original_journey).
Proof.
  pose proof (is_dominated_true original_journey new_journey) as Htrue.
  unfold is_dominated, times_known in *.
  destruct (Journey_bool original_journey); simpl in *; [|naive_solver].
  case_decide; [naive_solver|].
  destruct (dep original_journey) as [od|], (dep new_journey) as [nd|],
    (arr original_journey) as [oa|], (arr new_journey) as [na|]; simpl in *;
    try (split; [done|intros [?|(_ & (?%is_Some_None & ?%is_Some_None
                                      & ?%is_Some_None & ?%is_Some_None) & _)];
                      done]);
    try (split; [done|intros [?|(_ & (? & ? & ? & ?) & _)];
                      by (done || eapply is_Some_None)]).
  destruct ((_ && _) || (_ && _)).
  - split; [done|]. intros [?|(_ & _ & Hnd)]; [done|].
    by destruct (proj1 Htrue eq_refl) as [_ [?|?]].
  - split; [|done]. intros _. right. split; [done|]. split; [eauto 10|].
    intros Hd. assert (Some false = Some true) by (apply Htrue; eauto).
    done.
Qed.

(** The times that [is_dominated] compares, when it returns for two
    journeys that differ and the first is true as an object. *)
Lemma is_dominated_times original_journey new_journey b :
  is_dominated Journey_bool dep arr original_journey new_journey = Some b →
  Journey_bool original_journey = true →
  original_journey ≠ new_journey →
  times_known dep arr new_journey original_journey.
Proof.
  unfold is_dominated, times_known. intros Hd Hb Hne.
  rewrite Hb in Hd. simpl in Hd.
  rewrite decide_False in Hd by done.
  destruct (dep original_journey), (dep new_journey),
    (arr original_journey), (arr new_journey); simplify_eq/=; eauto 10.
Qed.

Lemma accept_cases journeys journey journeys' :
  accept Journey_bool dep arr journeys journey = Some journeys' →
  journeys' = journeys ++ [journey] ∨ journeys' = journeys.
Proof.
  unfold accept. intros Haccept.
  destruct (last journeys); [|naive_solver].
  destruct (is_dominated _ _ _ _ _) as [[|]|]; naive_solver.
Qed.

Lemma accept_adjacent journeys journey journeys' :
  accept Journey_bool dep arr journeys journey = Some journeys' →
  adjacent_undominated Journey_bool dep arr journeys →
  adjacent_undominated Journey_bool dep arr journeys'.
Proof.
  intros Haccept Hadj. unfold accept in Haccept.
  destruct (last journeys) as [previous|] eqn:Hlast.
  - destruct (is_dominated _ _ _ previous journey) as [[|]|] eqn:Hdom;
      simplify_eq/=; [done|].
    apply last_Some in Hlast as [l' ->].
    intros l1 b a l2 Heq.
    destruct l2 as [|x l2 _] using rev_ind.
    + replace (l1 ++ [b; a]) with ((l1 ++ [b]) ++ [a]) in Heq
        by by rewrite <- app_assoc.
      apply app_inj_tail in Heq as [Heq ->].
      apply app_inj_tail in Heq as [_ ->]. done.
    + replace (l1 ++ b :: a :: l2 ++ [x]) with ((l1 ++ b :: a :: l2) ++ [x])
        in Heq by by rewrite <- app_assoc.
      apply app_inj_tail in Heq as [Heq _]. by eapply Hadj.
  - apply last_None in Hlast as ->. simplify_eq/=.
    intros [|? [|? ?]] b a l2 Heq; simplify_eq.
Qed.

Lemma range_step_accept fuel from_stops to_stops destination rounds
    journeys dep_secs journeys' :
  range_step tt LARGE_NUMBER TRANSFER_TRIP set_order Journey_bool dep arr
             fuel from_stops to_stops destination rounds journeys dep_secs
    = Returns journeys' →
  journeys' = journeys
  ∨ ∃ journey, accept Journey_bool dep arr journeys journey = Some journeys'.
Proof.
  unfold range_step. intros Hstep.
  repeat case_match; simplify_eq; eauto.
Qed.

Lemma range_loop_adjacent fuel from_stops to_stops destination rounds
    dep_secs_list journeys journeys' :
  range_loop tt LARGE_NUMBER TRANSFER_TRIP set_order Journey_bool dep arr
             fuel from_stops to_stops destination rounds journeys dep_secs_list
    = Returns journeys' →
  adjacent_undominated Journey_bool dep arr journeys →
  adjacent_undominated Journey_bool dep arr journeys'.
Proof.
  revert journeys. induction dep_secs_list as [|d ds IH];
    intros journeys Hr Hadj; cbn [range_loop] in Hr; [by simplify_eq|].
  destruct (range_step _ _ _ _ _ _ _ _ _ _ _ _ _ _) as [js| |] eqn:Hstep;
    [|done..].
  eapply IH; [done|].
  apply range_step_accept in Hstep as [->|[journey Haccept]]; [done|].
  by eapply accept_adjacent.
Qed.

Lemma run_range_raptor_adjacent fuel origin destination
    dep_secs_min dep_secs_max rounds journeys :
  run_range_raptor tt LARGE_NUMBER TRANSFER_TRIP set_order Journey_bool dep arr
    fuel origin destination dep_secs_min dep_secs_max rounds
    = Returns journeys →
  adjacent_undominated Journey_bool dep arr journeys.
Proof.
  unfold run_range_raptor. intros Hrun.
  destruct (stations_get_stops tt origin); [|done].
  destruct (stations_get_stops tt destination); [|done].
  apply range_loop_adjacent in Hrun; [done|].
  by intros [|? [|? ?]] ? ? ? ?.
Qed.


(** C3, as the code has it.  A candidate is appended exactly when the list
    is empty or [is_dominated] is false for the last accepted journey and
    the candidate (and the acceptance test raises when [is_dominated]
    does).  [is_dominated] is true exactly when the accepted journey is
    true as a Python object and either equals the candidate or dominates it
    in the spec's sense.  Hence, in the list that a range query returns, a
    journey [a] that follows a journey [b] (true as an object) differs from
    [b] and is not dominated by it: the departure and arrival times of
    both are known, if [a] departs earlier than [b] it also arrives
    earlier, and if it departs no later it arrives no later.  Read in
    append order, arrival times go down with the departure times. *)
Theorem range_query_filter fuel origin destination
    dep_secs_min dep_secs_max rounds journeys :
  run_range_raptor tt LARGE_NUMBER TRANSFER_TRIP set_order Journey_bool dep arr
    fuel origin destination dep_secs_min dep_secs_max rounds
    = Returns journeys →
  (∀ js j,
     (accept Journey_bool dep arr js j = Some (js ++ [j])
      ∧ (last js = None
         ∨ ∃ previous, last js = Some previous
             ∧ is_dominated Journey_bool dep arr previous j = Some false))
     ∨ (accept Journey_bool dep arr js j = Some js
        ∧ ∃ previous, last js = Some previous
            ∧ is_dominated Journey_bool dep arr previous j = Some true)
     ∨ (accept Journey_bool dep arr js j = None
        ∧ ∃ previous, last js = Some previous
            ∧ is_dominated Journey_bool dep arr previous j = None))
  ∧ (∀ previous j,
       is_dominated Journey_bool dep arr previous j = Some true ↔
       Journey_bool previous = true
       ∧ (previous = j ∨ dominated_by dep arr j previous))
  ∧ ∀ js1 b a js2,
      journeys = js1 ++ b :: a :: js2 →
      is_dominated Journey_bool dep arr b a = Some false
      ∧ (Journey_bool b = true →
         a ≠ b
         ∧ ¬ dominated_by dep arr a b
         ∧ ∃ dep_a arr_a dep_b arr_b,
             dep a = Some dep_a ∧ arr a = Some arr_a
             ∧ dep b = Some dep_b ∧ arr b = Some arr_b
             ∧ (dep_a < dep_b → arr_a < arr_b)
             ∧ (dep_a ≤ dep_b → arr_a ≤ arr_b)).
Proof.
  intros Hrun. split; [|split].
  - intros js j. unfold accept.
    destruct (last js) as [previous|]; [|left; eauto].
    destruct (is_dominated _ _ _ previous j) as [[|]|] eqn:Hdom; simpl;
      [right; left|left|right; right]; eauto.
  - apply is_dominated_true.
  - intros js1 b a js2 Hjs.
    apply run_range_raptor_adjacent in Hrun.
    pose proof (Hrun _ _ _ _ Hjs) as Hdom. split; [done|].
    intros Hb.
    apply is_dominated_false in Hdom as [?|(Hne & Hknown & Hnd)];
      [congruence|].
    split; [done|]. split; [done|].
    destruct Hknown as ([dep_a Hda] & [arr_a Haa] & [dep_b Hdb] & [arr_b Hab]).
    exists dep_a, arr_a, dep_b, arr_b. repeat split; try done.
    + intros Hlt. destruct (decide (arr_a < arr_b)) as [|Hge]; [done|].
      destruct Hnd. exists dep_a, arr_a, dep_b, arr_b.
      repeat split; try done; lia.
    + intros Hle. destruct (decide (arr_a ≤ arr_b)) as [|Hgt]; [done|].
      destruct Hnd. exists dep_a, arr_a, dep_b, arr_b.
      repeat split; try done; lia.
Qed.

(** Equal journeys: [is_dominated], called with the same journey twice,
    returns the truth value of that journey as a Python object (the test
    [not original_journey] comes first), so it returns True for every
    journey that is true as an object; and in the list that a range query
    returns, a journey that is true as an object is never followed by an
    equal one. *)
Theorem equal_journey_dominated fuel origin destination
    dep_secs_min dep_secs_max rounds journeys :
  run_range_raptor tt LARGE_NUMBER TRANSFER_TRIP set_order Journey_bool dep arr
    fuel origin destination dep_secs_min dep_secs_max rounds
    = Returns journeys →
  (∀ journey,
     is_dominated Journey_bool dep arr journey journey
     = Some (Journey_bool journey))
  ∧ (∀ journey, Journey_bool journey = true →
       is_dominated Journey_bool dep arr journey journey = Some true
       ∧ ¬ dominated_by dep arr journey journey)
  ∧ ∀ js1 b a js2,
      journeys = js1 ++ b :: a :: js2 → Journey_bool b = true → a ≠ b.
Proof.
  intros Hrun.
  assert (∀ journey, is_dominated Journey_bool dep arr journey journey
                     = Some (Journey_bool journey)) as Hsame.
  { intros journey. unfold is_dominated.
    destruct (Journey_bool journey); simpl; [|done]. by rewrite decide_True. }
  split; [done|]. split.
  - intros journey Hj. split; [by rewrite Hsame, Hj|].
    unfold dominated_by. intros (? & ? & ? & ? & ? & ? & ? & ? & ?).
    simplify_eq. lia.
  - intros js1 b a js2 Hjs Hb.
    apply run_range_raptor_adjacent in Hrun.
    pose proof (Hrun _ _ _ _ Hjs) as Hdom. intros ->.
    rewrite Hsame in Hdom. congruence.
Qed.

End Domination.


(** ** The from-stops of [bag_star] never form a cycle *)

Lemma cstep_wstep k st st' : cstep k st st' → wstep k st st'.
Proof.
  intros [st0 st1 p v trp b ls lb Hls Hlt _ _ Hu | st0 v];
    [by eapply wstep_write|apply wstep_bound].
Qed.

Lemma rtc_cstep_wstep k st st' : rtc (cstep k) st st' → rtc (wstep k) st st'.
Proof.
  induction 1 as [|st1 st2 st3 Hstep _ IH]; [done|].
  eapply rtc_l; [by apply cstep_wstep|done].
Qed.

Lemma rtc_wstep_keys_ok k st st' :
  rtc (wstep k) st st' → keys_ok tt st → keys_ok tt st'.
Proof.
  intros [H1 H2]%rtc_wstep_dom [Hs Hr]. split; [congruence|].
  intros j bj Hbj. specialize (H2 j). rewrite Hbj in H2. simpl in H2.
  destruct (bag_round_stop st !! j) as [bj0|] eqn:Hbj0; simpl in H2; [|done].
  simplify_eq. rewrite H2. by eapply Hr.
Qed.

(** A stop with a label in a bag of a round has a label in [bag_star]. *)
Lemma keys_ok_star st j p lj :
  keys_ok tt st → round_label st j (inl p) = Some lj →
  ∃ ls, bag_star st !! inl p = Some ls.
Proof.
  intros [Hs Hr] Hlj. unfold round_label in Hlj.
  destruct (bag_round_stop st !! j) as [bj|] eqn:Hbj; simpl in Hlj; [|done].
  apply elem_of_dom_2 in Hlj. rewrite (Hr _ _ Hbj) in Hlj.
  apply elem_of_dom. rewrite Hs.
  apply elem_of_union in Hlj as [?|Hin]; [done|].
  unfold station_keys in Hin.
  apply elem_of_list_to_set, list_elem_of_fmap in Hin as (? & ? & ?). done.
Qed.

Lemma cstep_chain_inv k st st' :
  cstep k st st' → chain_inv (bag_star st) → chain_inv (bag_star st').
Proof.
  intros [st0 st1 p v trp b ls lb Hls Hlt Hlb Hle Hu | st0 v]; [|done].
  intros (rank & bound & Hbound & Hchain).
  apply update_both_lookup in Hu as (_ & ls' & _ & Hls' & Hstar & _).
  simplify_eq.
  assert (b ≠ p) as Hbp by (intros ->; simplify_eq; lia).
  exists (λ s, if decide (s = p) then bound else rank s), (S bound). split.
  - intros s. case_decide; [lia|]. specialize (Hbound s). lia.
  - intros p' l q. rewrite !Hstar.
    destruct (decide (p' = p)) as [->|Hp'].
    + rewrite decide_True by done. intros ? Hfrom. simplify_eq. simpl in *.
      simplify_eq. rewrite decide_False by (intros ?; simplify_eq).
      exists lb. split; [done|]. rewrite decide_False by done.
      specialize (Hbound q). destruct (decide (earliest_arrival_time lb = v));
        [right|left]; lia.
    + rewrite decide_False by (intros ?; simplify_eq). intros Hl Hfrom.
      destruct (Hchain _ _ _ Hl Hfrom) as (lq & Hlq & Hcmp).
      rewrite ?(decide_False (P := p' = p)) by done.
      destruct (decide (q = p)) as [->|Hq].
      * rewrite decide_True by done. eexists. split; [done|]. simpl.
        simplify_eq. left. lia.
      * rewrite decide_False by (intros ?; simplify_eq).
        by exists lq.
Qed.

Lemma rtc_cstep_chain_inv k st st' :
  rtc (cstep k) st st' → chain_inv (bag_star st) → chain_inv (bag_star st').
Proof.
  induction 1 as [|st1 st2 st3 Hstep _ IH]; [done|].
  intros Hinv. apply IH. by eapply cstep_chain_inv.
Qed.

Lemma rtc_cstep_scan_ok k st st' :
  1 ≤ k → rtc (cstep k) st st' →
  scan_ok tt LARGE_NUMBER k st → scan_ok tt LARGE_NUMBER k st'.
Proof.
  intros Hk Hrtc%rtc_cstep_wstep [Hr Hkeys]. split.
  - by eapply rtc_wstep_round_inv.
  - by eapply rtc_wstep_keys_ok.
Qed.

(** A later state holds, for a stop, a label in [bag_star] that is not
    above the earlier one. *)
Lemma rtc_cstep_star k st st' key l :
  rtc (cstep k) st st' → bag_star st !! key = Some l →
  ∃ l', bag_star st' !! key = Some l'
        ∧ earliest_arrival_time l' ≤ earliest_arrival_time l.
Proof.
  intros Hrtc%rtc_cstep_wstep%rtc_wstep_star_le Hl.
  destruct (Hrtc _ _ Hl) as (l' & Hl' & Hcmp). exists l'. split; [done|].
  destruct Hcmp as [->|?]; lia.
Qed.



(** *** After the origin loop *)

Lemma update_both_keys_ok st k p v trp frm st' :
  update_both st k p v trp frm = Some st' → keys_ok tt st → keys_ok tt st'.
Proof.
  intros [H1 H2]%update_both_dom [Hs Hr]. split; [congruence|].
  intros j bj Hbj. specialize (H2 j). rewrite Hbj in H2. simpl in H2.
  destruct (bag_round_stop st !! j) as [bj0|] eqn:Hbj0; simpl in H2; [|done].
  simplify_eq. rewrite H2. by eapply Hr.
Qed.

Lemma init_state_keys_ok to_station rounds :
  keys_ok tt (init_state tt LARGE_NUMBER to_station rounds).
Proof.
  split; simpl.
  - apply (proj1 (init_state_tables_ok to_station rounds)).
  - intros j bj. rewrite lookup_init_bag_round_stop. case_decide; [|done].
    intros ?; simplify_eq. apply set_eq. intros key.
    rewrite elem_of_dom, lookup_fresh_round_bag.
    case_decide; [|by split; [intros []|]]. split; [done|eauto].
Qed.

Lemma mark_origins_init dep_secs from_stops to_station rounds st0 marked :
  foldM (mark_origin dep_secs)
        (init_state tt LARGE_NUMBER to_station rounds, []) from_stops
    = Some (st0, marked) →
  keys_ok tt st0
  ∧ (∀ key l, bag_star st0 !! key = Some l → from_stop l = None)
  ∧ (LARGE_NUMBER ≤ dep_secs → unreached LARGE_NUMBER st0).
Proof.
  apply (foldM_inv (λ a : StateT * list Stop,
           keys_ok tt a.1
           ∧ (∀ key l, bag_star a.1 !! key = Some l → from_stop l = None)
           ∧ (LARGE_NUMBER ≤ dep_secs → unreached LARGE_NUMBER a.1))
           _ _ _ (st0, marked)).
  - intros a1 o a2 _ (Hkeys & Hfrom & Hun) Hm. unfold mark_origin in Hm.
    destruct (update_both a1.1 0 o dep_secs NoTrip None) as [st1|] eqn:Hu;
      simpl in Hm; [|done].
    simplify_eq. simpl. split; [|split].
    + by eapply update_both_keys_ok.
    + apply update_both_lookup in Hu as (lk & ls & _ & Hls & Hstar & _).
      intros key l. rewrite Hstar. case_decide; [|apply Hfrom].
      intros ?; simplify_eq. simpl. by eapply Hfrom.
    + intros Hdep. destruct (Hun Hdep) as [Hlabels Hbound].
      apply update_both_lookup in Hu as (lk & ls & _ & _ & _ & Hround & _ & Hb).
      split; [|by rewrite Hb].
      intros j key l. rewrite Hround. case_decide; [|apply Hlabels].
      intros ?; simplify_eq. done.
  - split; [apply init_state_keys_ok|]. split.
    + intros key l. simpl. rewrite lookup_add_stop_labels.
      case_decide; [|done]. by intros ?; simplify_eq.
    + intros _. split; [|done].
      intros j key l. cbn [fst]. rewrite round_label_init_state.
      case_decide; [|done]. by intros ?; simplify_eq.
Qed.

(** *** The backward walk ends *)

Lemma labels_lower_bound (bag : gmap (Stop + Station) (@Label Stop Trip)) :
  ∃ lo, ∀ key l, bag !! key = Some l → lo ≤ earliest_arrival_time l.
Proof.
  induction bag as [|key x bag Hfresh _ [lo Hlo]] using map_first_key_ind.
  - exists 0. intros key l. by rewrite lookup_empty.
  - exists (Z.min lo (earliest_arrival_time x)). intros key' l.
    destruct (decide (key' = key)) as [->|Hne].
    + rewrite lookup_insert_eq. intros ?; simplify_eq. lia.
    + rewrite lookup_insert_ne by done. intros Hl%Hlo. lia.
Qed.

Lemma chain_inv_walk (bag : gmap (Stop + Station) (@Label Stop Trip)) p l :
  chain_inv bag → bag !! inl p = Some l → ∃ legs, backward_walk bag p legs.
Proof.
  intros (rank & bound & Hbound & Hchain).
  destruct (labels_lower_bound bag) as [lo Hlo].
  remember (Z.to_nat ((earliest_arrival_time l - lo) * Z.of_nat bound
                      + Z.of_nat (rank p))) as n eqn:Hn.
  revert p l Hn. induction (lt_wf n) as [n _ IH]. intros p l Hn Hl.
  destruct (from_stop l) as [q|] eqn:Hfrom; [|eexists; by eapply walk_origin].
  destruct (Hchain _ _ _ Hl Hfrom) as (lq & Hlq & Hcmp).
  edestruct (IH (Z.to_nat ((earliest_arrival_time lq - lo) * Z.of_nat bound
                           + Z.of_nat (rank q)))) as [legs Hlegs];
    [|done|done|eexists; by eapply walk_leg].
  subst n. pose proof (Hlo _ _ Hl). pose proof (Hlo _ _ Hlq).
  pose proof (Hbound q). pose proof (Hbound p).
  apply Z2Nat.inj_lt; [nia|nia|].
  destruct Hcmp as [Hlt|[Heq Hrank]]; [nia|]. rewrite Heq. lia.
Qed.

Section Chains.
Hypothesis Hboard : boarding_sound tt.
Hypothesis Hlay : layovers_non_negative tt.

Lemma boarded_later k st st' ct bs rest rest' :
  rtc (cstep k) st st' → rest' ⊆ rest →
  boarded tt st ct bs rest → boarded tt st' ct bs rest'.
Proof.
  intros Hrtc Hsub Hb t Ht.
  destruct (Hb t Ht) as (b & lb & Hbs & Hlb & Hle).
  destruct (rtc_cstep_star _ _ _ _ _ Hrtc Hlb) as (lb' & Hlb' & Hle').
  exists b, lb'. do 2 (split; [done|]).
  intros q Hq%Hsub. specialize (Hle q Hq). lia.
Qed.

Lemma improve_by_trip_cstep k st ns ct bs c rest st' ns' :
  improve_by_trip tt k st ns ct bs c = Some (st', ns') →
  boarded tt st ct bs (c :: rest) →
  rtc (cstep k) st st'.
Proof.
  intros [[-> ->]|(t & ls & st1 & -> & Hs & Hlt & _ & Hu & Hst & _)]
    %improve_by_trip_inv Hb; [done|].
  destruct (Hb t eq_refl) as (b & lb & -> & Hlb & Hle).
  eapply rtc_l.
  - apply (cstep_write k st st1 c _ (ByTrip t) b ls lb Hs Hlt Hlb); [|done].
    apply Hle. by left.
  - destruct Hst as [->|[_ ->]]; [done|]. apply rtc_once, cstep_bound.
Qed.

Lemma scan_stop_cstep k r pre c post sc sc' :
  1 ≤ k →
  route_stops tt r = pre ++ c :: post →
  scan_ok tt LARGE_NUMBER k (sc_state sc) →
  boarded tt (sc_state sc) (sc_current_trip sc) (sc_boarding_stop sc)
          (c :: post) →
  scan_stop tt k r sc c = Some sc' →
  rtc (cstep k) (sc_state sc) (sc_state sc')
  ∧ boarded tt (sc_state sc') (sc_current_trip sc') (sc_boarding_stop sc') post.
Proof.
  intros Hk Hroute Hok Hb Hs. unfold scan_stop in Hs.
  destruct (improve_by_trip _ _ _ _ _ _ _) as [[st1 ns1]|] eqn:Hi;
    simpl in Hs; [|done].
  destruct (catch_trip _ _ _ _ _ _ _) as [[ct1 bs1]|] eqn:Hc; simpl in Hs;
    [|done].
  simplify_eq. simpl.
  pose proof (improve_by_trip_cstep _ _ _ _ _ _ _ _ _ Hi Hb) as Hrtc.
  split; [done|].
  apply catch_trip_inv in Hc
    as (bp & lp & Hbp & Hlp & [[-> ->]|(tst & Htst & -> & ->)]).
  - eapply boarded_later; [done| |done]. set_solver.
  - intros t ?. simplify_eq.
    destruct (rtc_cstep_scan_ok _ _ _ Hk Hrtc Hok) as [(HJ & _) Hkeys].
    assert (round_label st1 (k - 1) (inl c) = Some lp) as Hround.
    { unfold round_label. by rewrite Hbp. }
    destruct (keys_ok_star _ _ _ _ Hkeys Hround) as [ls Hls].
    exists c, ls. do 2 (split; [done|]).
    destruct (Hboard _ _ _ _ _ _ Hroute Htst) as [Hdep Harr].
    intros q Hq. specialize (Harr q Hq). specialize (HJ _ _ _ _ Hround Hls).
    lia.
Qed.

Lemma scan_stops_cstep k r rest :
  1 ≤ k →
  ∀ pre sc sc',
    route_stops tt r = pre ++ rest →
    scan_ok tt LARGE_NUMBER k (sc_state sc) →
    boarded tt (sc_state sc) (sc_current_trip sc) (sc_boarding_stop sc) rest →
    foldM (scan_stop tt k r) sc rest = Some sc' →
    rtc (cstep k) (sc_state sc) (sc_state sc').
Proof.
  intros Hk. induction rest as [|c rest IH]; intros pre sc sc' Hroute Hok Hb Hf;
    cbn [foldM] in Hf; [by simplify_eq|].
  destruct (scan_stop tt k r sc c) as [sc1|] eqn:Hs;
    cbn [mbind option_bind] in Hf; [|done].
  destruct (scan_stop_cstep _ _ _ _ _ _ _ Hk Hroute Hok Hb Hs) as [Hrtc Hb1].
  etrans; [done|]. eapply (IH (pre ++ [c])); [|by eapply rtc_cstep_scan_ok|done..].
  by rewrite <- app_assoc.
Qed.

Lemma scan_route_cstep k (acc acc' : StateT * list Stop) rp :
  1 ≤ k → scan_ok tt LARGE_NUMBER k acc.1 →
  scan_route tt k acc rp = Some acc' → rtc (cstep k) acc.1 acc'.1.
Proof.
  intros Hk Hok. unfold scan_route. destruct rp as [r m]. intros Hs.
  destruct (foldM _ _ _) as [sc|] eqn:Hf; simpl in Hs; [|done]. simplify_eq.
  simpl.
  eapply (scan_stops_cstep k r _ Hk (take (stop_index tt r m) (route_stops tt r)))
    in Hf; [done|by rewrite take_drop|done|done].
Qed.

Lemma traverse_routes_cstep st k q st' ns :
  1 ≤ k → scan_ok tt LARGE_NUMBER k st →
  traverse_routes tt st k q = Some (st', ns) → rtc (cstep k) st st'.
Proof.
  intros Hk Hok. unfold traverse_routes.
  apply (foldM_inv (λ acc : StateT * list Stop, rtc (cstep k) st acc.1)
           _ _ _ (st', ns)); [|done].
  intros acc1 rp acc2 _ Hrtc Hsc. etrans; [done|].
  eapply scan_route_cstep; [done| |done]. by eapply rtc_cstep_scan_ok.
Qed.

Lemma relax_transfer_cstep k c ts (acc acc' : StateT * list Stop) trs tr lb :
  from_stop_idx tt c = Some trs → tr ∈ trs →
  bag_star acc.1 !! inl c = Some lb → earliest_arrival_time lb ≤ ts →
  relax_transfer TRANSFER_TRIP k c ts acc tr = Some acc' →
  rtc (cstep k) acc.1 acc'.1.
Proof.
  intros Htrs Htr Hlb Hle
    [->|(cost & ls & st1 & Hcost & Hs & Hlt & Hu & ->)]%relax_transfer_inv;
    [done|].
  simpl. apply rtc_once.
  apply (cstep_write k acc.1 st1 (to_stop tr) _ TRANSFER_TRIP c ls lb
           Hs Hlt Hlb); [|done].
  specialize (Hlay _ _ _ _ Htrs Htr Hcost). lia.
Qed.

Lemma relax_stop_cstep k (acc acc' : StateT * list Stop) c :
  scan_ok tt LARGE_NUMBER k acc.1 →
  relax_stop tt TRANSFER_TRIP k acc c = Some acc' →
  rtc (cstep k) acc.1 acc'.1.
Proof.
  intros [(HJ & _) Hkeys]. unfold relax_stop. intros Hr.
  destruct (bag_round_stop acc.1 !! k) as [bk|] eqn:Hbk; simpl in Hr; [|done].
  destruct (bk !! inl c) as [lc|] eqn:Hlc; simpl in Hr; [|done].
  destruct (from_stop_idx tt c) as [trs|] eqn:Htrs; simpl in Hr; [|done].
  assert (round_label acc.1 k (inl c) = Some lc) as Hround.
  { unfold round_label. by rewrite Hbk. }
  destruct (keys_ok_star _ _ _ _ Hkeys Hround) as [ls Hls].
  specialize (HJ _ _ _ _ Hround Hls).
  revert Hr.
  apply (foldM_inv (λ a : StateT * list Stop, rtc (cstep k) acc.1 a.1)); [|done].
  intros a1 tr a2 Htr Hrtc Ha. etrans; [done|].
  destruct (rtc_cstep_star _ _ _ _ _ Hrtc Hls) as (ls' & Hls' & Hle).
  eapply relax_transfer_cstep; [done..| |done]. lia.
Qed.

Lemma add_transfer_time_cstep st k marked st' ns :
  1 ≤ k → scan_ok tt LARGE_NUMBER k st →
  add_transfer_time tt TRANSFER_TRIP st k marked = Some (st', ns) →
  rtc (cstep k) st st'.
Proof.
  intros Hk Hok. unfold add_transfer_time.
  apply (foldM_inv (λ acc : StateT * list Stop, rtc (cstep k) st acc.1)
           _ _ _ (st', ns)); [|done].
  intros a1 c a2 _ Hrtc Ha. etrans; [done|].
  eapply relax_stop_cstep; [|done]. by eapply rtc_cstep_scan_ok.
Qed.

Lemma round_cstep k st marked st' marked' :
  1 ≤ k → scan_ok tt LARGE_NUMBER k st →
  round tt TRANSFER_TRIP set_order k st marked = Some (st', marked') →
  rtc (cstep k) st st'.
Proof.
  intros Hk Hok. unfold round. intros Hr.
  destruct (traverse_routes _ _ _ _) as [[st1 ns1]|] eqn:Ht; simpl in Hr; [|done].
  destruct (add_transfer_time _ _ _ _ _) as [[st2 ns2]|] eqn:Ha;
    simpl in Hr; [|done].
  simplify_eq.
  pose proof (traverse_routes_cstep _ _ _ _ _ Hk Hok Ht) as Hrtc.
  etrans; [done|]. eapply add_transfer_time_cstep; [done| |done].
  by eapply rtc_cstep_scan_ok.
Qed.

Lemma run_rounds_chain_inv (n : nat) k st marked st' :
  0 ≤ k →
  run_rounds tt TRANSFER_TRIP set_order (seqZ (k + 1) (Z.of_nat n)) st marked
    = Some st' →
  scan_ok tt LARGE_NUMBER k st → chain_inv (bag_star st) →
  chain_inv (bag_star st').
Proof.
  revert k st marked. induction n as [|n IH]; intros k st marked Hk Hr Hok Hinv.
  - simpl in Hr. by simplify_eq.
  - rewrite seqZ_cons in Hr by lia. simpl in Hr.
    case_bool_decide; [|by simplify_eq].
    destruct (round _ _ _ _ _ _) as [[st1 marked1]|] eqn:Hround;
      simpl in Hr; [|done].
    replace (Z.pred (Z.of_nat (S n))) with (Z.of_nat n) in Hr by lia.
    replace (Z.succ (k + 1)) with ((k + 1) + 1) in Hr by lia.
    assert (scan_ok tt LARGE_NUMBER (k + 1) st) as Hok1.
    { destruct Hok as [Hr' Hkeys]. split; [|done].
      eapply round_inv_weaken; [|done]. lia. }
    assert (1 ≤ k + 1) as Hk1 by lia.
    pose proof (round_cstep _ _ _ _ _ Hk1 Hok1 Hround) as Hrtc.
    apply IH in Hr; [done|lia| |].
    + eapply rtc_cstep_scan_ok; [lia|done..].
    + by eapply rtc_cstep_chain_inv.
Qed.


(** *** A departure time above the sentinel: nothing is ever written *)

Lemma improve_by_trip_unreached k st ns ct bs c rest st' ns' :
  unreached LARGE_NUMBER st → boarded_late tt LARGE_NUMBER ct (c :: rest) →
  improve_by_trip tt k st ns ct bs c = Some (st', ns') →
  st' = st ∧ ns' = ns.
Proof.
  intros [_ Hbound] Hlate
    [[-> ->]|(t & ls & st1 & -> & _ & _ & Hlt & _)]%improve_by_trip_inv;
    [done|].
  assert (c ∈ c :: rest) as Hc by by left.
  specialize (Hlate t eq_refl c Hc). lia.
Qed.

Lemma scan_stop_unreached k r pre c post sc sc' :
  route_stops tt r = pre ++ c :: post →
  unreached LARGE_NUMBER (sc_state sc) →
  boarded_late tt LARGE_NUMBER (sc_current_trip sc) (c :: post) →
  scan_stop tt k r sc c = Some sc' →
  sc_state sc' = sc_state sc ∧ sc_new_stops sc' = sc_new_stops sc
  ∧ boarded_late tt LARGE_NUMBER (sc_current_trip sc') post.
Proof.
  intros Hroute Hun Hlate Hs. unfold scan_stop in Hs.
  destruct (improve_by_trip _ _ _ _ _ _ _) as [[st1 ns1]|] eqn:Hi;
    simpl in Hs; [|done].
  destruct (catch_trip _ _ _ _ _ _ _) as [[ct1 bs1]|] eqn:Hc; simpl in Hs;
    [|done].
  simplify_eq. simpl.
  apply (improve_by_trip_unreached _ _ _ _ _ _ post) in Hi as [-> ->];
    [|done..].
  do 2 (split; [done|]).
  apply catch_trip_inv in Hc
    as (bp & lp & Hbp & Hlp & [[-> ->]|(tst & Htst & -> & ->)]).
  - intros t Ht q Hq. apply (Hlate t Ht). by right.
  - intros t ? q Hq. simplify_eq.
    destruct (Hboard _ _ _ _ _ _ Hroute Htst) as [Hdep Harr].
    specialize (Harr q Hq). destruct Hun as [Hun _].
    specialize (Hun (k - 1) (inl c) lp). unfold round_label in Hun.
    rewrite Hbp in Hun. specialize (Hun Hlp). lia.
Qed.

Lemma scan_stops_unreached k r rest :
  ∀ pre sc sc',
    route_stops tt r = pre ++ rest →
    unreached LARGE_NUMBER (sc_state sc) →
    boarded_late tt LARGE_NUMBER (sc_current_trip sc) rest →
    foldM (scan_stop tt k r) sc rest = Some sc' →
    sc_state sc' = sc_state sc ∧ sc_new_stops sc' = sc_new_stops sc.
Proof.
  induction rest as [|c rest IH]; intros pre sc sc' Hroute Hun Hlate Hf;
    cbn [foldM] in Hf; [by simplify_eq|].
  destruct (scan_stop tt k r sc c) as [sc1|] eqn:Hs;
    cbn [mbind option_bind] in Hf; [|done].
  destruct (scan_stop_unreached _ _ _ _ _ _ _ Hroute Hun Hlate Hs)
    as (Hst & Hns & Hlate1).
  apply (IH (pre ++ [c])) in Hf as [-> ->]; [done| | |done].
  - by rewrite <- app_assoc.
  - by rewrite Hst.
Qed.

Lemma traverse_routes_unreached st k q st' ns :
  unreached LARGE_NUMBER st →
  traverse_routes tt st k q = Some (st', ns) → st' = st ∧ ns = [].
Proof.
  intros Hun. unfold traverse_routes.
  apply (foldM_inv (λ acc : StateT * list Stop, acc.1 = st ∧ acc.2 = [])
           _ _ _ (st', ns)); [|done].
  intros [st1 ns1] [r m] acc2 _ [? ?] Hsc. simpl in *. simplify_eq.
  unfold scan_route in Hsc.
  destruct (foldM _ _ _) as [sc|] eqn:Hf; simpl in Hsc; [|done]. simplify_eq.
  simpl.
  by eapply (scan_stops_unreached k r _
               (take (stop_index tt r m) (route_stops tt r))) in Hf;
    [|by rewrite take_drop|done|done].
Qed.

Lemma run_rounds_unreached ks st marked st' :
  unreached LARGE_NUMBER st →
  run_rounds tt TRANSFER_TRIP set_order ks st marked = Some st' → st' = st.
Proof.
  intros Hun. revert marked.
  induction ks as [|k ks IH]; intros marked Hr; simpl in Hr; [by simplify_eq|].
  case_bool_decide; [|by simplify_eq].
  destruct (round _ _ _ _ _ _) as [[st1 marked1]|] eqn:Hround;
    simpl in Hr; [|done].
  unfold round in Hround.
  destruct (traverse_routes _ _ _ _) as [[st2 ns2]|] eqn:Ht;
    simpl in Hround; [|done].
  apply traverse_routes_unreached in Ht as [-> ->]; [|done].
  simpl in Hround. simplify_eq. by eapply IH.
Qed.



End Chains.


(** * Further properties of the code *)

(** ** best_stop_at_target_station *)

(** The loop of the selector, from any pair of the best stop and the best
    arrival time so far: the pair is kept when no stop is strictly
    earlier, and otherwise the result is the first stop with the smallest
    arrival time. *)
Lemma best_stop_fold (bag : gmap (Stop + Station) (@Label Stop Trip))
    (to_stops : list Stop) (acc res : @final_stop Stop * Z) :
  foldM (best_stop_step bag) acc to_stops = Some res →
  (res = acc
   ∧ ∀ q, q ∈ to_stops →
       ∃ lq, bag !! inl q = Some lq ∧ acc.2 ≤ earliest_arrival_time lq)
  ∨ ∃ pre s post ls,
      to_stops = pre ++ s :: post
      ∧ bag !! inl s = Some ls
      ∧ res = (FinalStop s, earliest_arrival_time ls)
      ∧ earliest_arrival_time ls < acc.2
      ∧ (∀ q, q ∈ pre →
           ∃ lq, bag !! inl q = Some lq
                 ∧ earliest_arrival_time ls < earliest_arrival_time lq)
      ∧ (∀ q, q ∈ post →
           ∃ lq, bag !! inl q = Some lq
                 ∧ earliest_arrival_time ls ≤ earliest_arrival_time lq).
Proof.
  revert acc. induction to_stops as [|x rest IH]; intros acc Hf;
    cbn [foldM] in Hf.
  - simplify_eq. left. split; [done|]. by intros q ?%elem_of_nil.
  - destruct (best_stop_step bag acc x) as [acc1|] eqn:Hstep;
      cbn [mbind option_bind] in Hf; [|done].
    unfold best_stop_step in Hstep.
    destruct (bag !! inl x) as [lx|] eqn:Hlx; simpl in Hstep; [|done].
    destruct (Z.ltb_spec (earliest_arrival_time lx) acc.2) as [Hlt|Hge];
      simplify_eq.
    + right.
      destruct (IH _ Hf) as [[-> Hall]|(pre & s & post & ls & -> & Hls & -> & Hlt'
                                        & Hpre & Hpost)]; simpl in *.
      * exists [], x, rest, lx. repeat split; try done.
        by intros q ?%elem_of_nil.
      * exists (x :: pre), s, post, ls. repeat split; try done; [lia|].
        intros q [->|Hq]%elem_of_cons; [|by apply Hpre].
        exists lx. split; [done|lia].
    + destruct (IH _ Hf) as [[-> Hall]|(pre & s & post & ls & -> & Hls & -> & Hlt'
                                        & Hpre & Hpost)].
      * left. split; [done|].
        intros q [->|Hq]%elem_of_cons; [|by apply Hall].
        exists lx. split; [done|lia].
      * right. exists (x :: pre), s, post, ls. repeat split; try done.
        intros q [->|Hq]%elem_of_cons; [|by apply Hpre].
        exists lx. split; [done|lia].
Qed.

(** The loop raises exactly when it meets a stop without label. *)
Lemma best_stop_fold_None (bag : gmap (Stop + Station) (@Label Stop Trip))
    (to_stops : list Stop) (acc : @final_stop Stop * Z) :
  foldM (best_stop_step bag) acc to_stops = None ↔
  ∃ q, q ∈ to_stops ∧ bag !! inl q = None.
Proof.
  revert acc. induction to_stops as [|x rest IH]; intros acc; cbn [foldM].
  - split; [done|]. by intros (q & ?%elem_of_nil & _).
  - destruct (best_stop_step bag acc x) as [acc1|] eqn:Hstep;
      cbn [mbind option_bind]; unfold best_stop_step in Hstep;
      destruct (bag !! inl x) as [lx|] eqn:Hlx; simpl in Hstep; try done.
    + rewrite IH. split.
      * intros (q & Hq & Hnone). exists q. split; [by right|done].
      * intros (q & [->|Hq]%elem_of_cons & Hnone); [congruence|eauto].
    + by case_match.
    + split; [|done]. intros _. exists x. split; [by left|done].
Qed.

(** The stop that the selector returns is the first of the stops given
    that has the smallest arrival time: that arrival time is below the
    sentinel, strictly below the arrival times of the stops before it and
    at most those of the stops after it. *)
Theorem best_stop_first_minimum
    (to_stops : list Stop) (bag : gmap (Stop + Station) (@Label Stop Trip))
    (s : Stop) :
  best_stop_at_target_station LARGE_NUMBER to_stops bag = Some (FinalStop s) →
  ∃ pre post ls,
    to_stops = pre ++ s :: post
    ∧ bag !! inl s = Some ls
    ∧ earliest_arrival_time ls < LARGE_NUMBER
    ∧ (∀ q, q ∈ pre →
         ∃ lq, bag !! inl q = Some lq
               ∧ earliest_arrival_time ls < earliest_arrival_time lq)
    ∧ (∀ q, q ∈ post →
         ∃ lq, bag !! inl q = Some lq
               ∧ earliest_arrival_time ls ≤ earliest_arrival_time lq).
Proof.
  unfold best_stop_at_target_station. intros Hbest.
  destruct (foldM _ _ _) as [res|] eqn:Hf; simpl in Hbest; [|done].
  apply best_stop_fold in Hf
    as [[-> _]|(pre & s' & post & ls & -> & Hls & -> & Hlt & Hpre & Hpost)];
    simpl in Hbest; simplify_eq.
  by exists pre, post, ls.
Qed.

(** The selector raises [KeyError] exactly when one of the stops given has
    no label in the table. *)
Theorem best_stop_raises
    (to_stops : list Stop) (bag : gmap (Stop + Station) (@Label Stop Trip)) :
  best_stop_at_target_station LARGE_NUMBER to_stops bag = None ↔
  ∃ q, q ∈ to_stops ∧ bag !! inl q = None.
Proof.
  unfold best_stop_at_target_station.
  rewrite <- (best_stop_fold_None bag to_stops (Zero, LARGE_NUMBER)).
  by destruct (foldM _ _ _).
Qed.

Lemma best_stop_fold_Zero
    (to_stops : list Stop) (bag : gmap (Stop + Station) (@Label Stop Trip)) :
  best_stop_at_target_station LARGE_NUMBER to_stops bag = Some Zero ↔
  ∀ q, q ∈ to_stops →
    ∃ lq, bag !! inl q = Some lq ∧ LARGE_NUMBER ≤ earliest_arrival_time lq.
Proof.
  unfold best_stop_at_target_station. split.
  - intros Hbest.
    destruct (foldM _ _ _) as [res|] eqn:Hf; simpl in Hbest; [|done].
    apply best_stop_fold in Hf
      as [[-> Hall]|(pre & s' & post & ls & -> & Hls & -> & _)];
      simpl in Hbest; simplify_eq.
    done.
  - intros Hall.
    cut (foldM (best_stop_step bag) (Zero, LARGE_NUMBER) to_stops
         = Some (Zero, LARGE_NUMBER)); [by intros ->|].
    induction to_stops as [|x rest IH]; [done|]. cbn [foldM].
    destruct (Hall x) as (lx & Hlx & Hge); [by left|].
    assert (best_stop_step bag (Zero, LARGE_NUMBER) x = Some (Zero, LARGE_NUMBER))
      as ->.
    { unfold best_stop_step. rewrite Hlx. simpl.
      by destruct (Z.ltb_spec (earliest_arrival_time lx) LARGE_NUMBER); [lia|]. }
    simpl. apply IH. intros q Hq. apply Hall. by right.
Qed.

(** The selector returns [0] exactly when every stop given has a label
    whose arrival time is not below the sentinel; in particular for an
    empty list of stops. *)
Theorem best_stop_zero
    (to_stops : list Stop) (bag : gmap (Stop + Station) (@Label Stop Trip)) :
  best_stop_at_target_station LARGE_NUMBER to_stops bag = Some Zero ↔
  ∀ q, q ∈ to_stops →
    ∃ lq, bag !! inl q = Some lq ∧ LARGE_NUMBER ≤ earliest_arrival_time lq.
Proof. apply best_stop_fold_Zero. Qed.


(** ** accumulate_routes *)

Lemma q_get_q_set (r r' : Route) (p : Stop) (q : list (Route * Stop)) :
  q_get r (q_set r' p q) = if decide (r' = r) then Some p else q_get r q.
Proof.
  induction q as [|[r1 p1] q IH]; simpl.
  - by repeat case_decide.
  - repeat (case_decide; simpl; simplify_eq); done.
Qed.

Lemma q_get_None (r : Route) (q : list (Route * Stop)) :
  q_get r q = None ↔ r ∉ q.*1.
Proof.
  induction q as [|[r1 p1] q IH]; simpl.
  - split; [|done]. by intros _ ?%elem_of_nil.
  - case_decide; simplify_eq.
    + split; [done|]. intros []. by left.
    + rewrite IH, not_elem_of_cons. naive_solver.
Qed.

Lemma q_get_elem_of (r : Route) (p : Stop) (q : list (Route * Stop)) :
  NoDup q.*1 → (r, p) ∈ q ↔ q_get r q = Some p.
Proof.
  induction q as [|[r1 p1] q IH]; simpl; intros Hnd.
  - split; [by intros ?%elem_of_nil|done].
  - apply NoDup_cons in Hnd as [Hr1 Hnd]. case_decide; simplify_eq.
    + split; [|by intros ?; simplify_eq; left].
      intros [?|Hin]%elem_of_cons; [by simplify_eq|].
      exfalso. apply Hr1. apply list_elem_of_fmap. by exists (r, p).
    + rewrite <- IH by done. rewrite elem_of_cons. naive_solver.
Qed.

Lemma q_set_keys (r : Route) (p : Stop) (q : list (Route * Stop)) :
  (q_set r p q).*1 = if decide (r ∈ q.*1) then q.*1 else q.*1 ++ [r].
Proof.
  induction q as [|[r1 p1] q IH]; cbn [q_set].
  - rewrite decide_False; [done|]. by intros ?%elem_of_nil.
  - destruct (decide (r1 = r)) as [->|Hne]; rewrite !fmap_cons; cbn [fst].
    + rewrite decide_True; [done|]. by left.
    + rewrite IH. destruct (decide (r ∈ q.*1)) as [Hin|Hin].
      * rewrite decide_True; [done|]. by right.
      * rewrite decide_False; [done|]. rewrite not_elem_of_cons. naive_solver.
Qed.

Lemma q_set_NoDup (r : Route) (p : Stop) (q : list (Route * Stop)) :
  NoDup q.*1 → NoDup (q_set r p q).*1.
Proof.
  intros Hnd. rewrite q_set_keys. case_decide; [done|].
  apply NoDup_app. split; [done|]. split; [|apply NoDup_singleton].
  intros x Hx ->%list_elem_of_singleton. done.
Qed.

Lemma accumulate_route_NoDup (m : Stop) (q : list (Route * Stop)) (r : Route) :
  NoDup q.*1 → NoDup (accumulate_route tt m q r).*1.
Proof.
  intros Hnd. unfold accumulate_route.
  repeat case_match; try done; by apply q_set_NoDup.
Qed.

(** The entry of a route after one iteration of the inner loop. *)
Lemma q_get_accumulate_route (m : Stop) (q : list (Route * Stop)) (r1 r : Route) :
  q_get r (accumulate_route tt m q r1)
  = if decide (r1 = r)
    then match q_get r q with
         | None => Some m
         | Some c => if (stop_index tt r m <? stop_index tt r c)%nat
                     then Some m else Some c
         end
    else q_get r q.
Proof.
  unfold accumulate_route. case_decide as Hr.
  - subst r1. destruct (q_get r q) as [c|] eqn:Hq.
    + case_match; [|done]. by rewrite q_get_q_set, decide_True.
    + by rewrite q_get_q_set, decide_True.
  - repeat case_match; try done; by rewrite q_get_q_set, decide_False.
Qed.

(** The entry of a route after the inner loop over the routes of a marked
    stop. *)
Lemma q_get_accumulate_stop (m : Stop) (rs : list Route)
    (q : list (Route * Stop)) (r : Route) :
  q_get r (foldl (accumulate_route tt m) q rs)
  = if decide (r ∈ rs)
    then match q_get r q with
         | None => Some m
         | Some c => if (stop_index tt r m <? stop_index tt r c)%nat
                     then Some m else Some c
         end
    else q_get r q.
Proof.
  revert q. induction rs as [|r1 rs IH]; intros q; cbn [foldl].
  - rewrite decide_False; [done|]. by intros ?%elem_of_nil.
  - rewrite IH, q_get_accumulate_route.
    destruct (decide (r1 = r)) as [->|Hne].
    + rewrite (decide_True (P := r ∈ r :: rs)) by by left.
      case_decide; [|done].
      destruct (q_get r q) as [c|]; [|by rewrite Nat.ltb_irrefl].
      destruct (stop_index tt r m <? stop_index tt r c)%nat eqn:Hlt;
        [by rewrite Nat.ltb_irrefl|by rewrite Hlt].
    + case_decide.
      * rewrite decide_True; [done|]. by right.
      * rewrite decide_False; [done|]. rewrite not_elem_of_cons. naive_solver.
Qed.

Lemma accumulate_routes_snoc (ms : list Stop) (m : Stop) :
  accumulate_routes tt (ms ++ [m])
  = foldl (accumulate_route tt m) (accumulate_routes tt ms)
          (get_routes_of_stop tt m).
Proof. unfold accumulate_routes. by rewrite foldl_app. Qed.

Lemma accumulate_routes_NoDup (marked : list Stop) :
  NoDup (accumulate_routes tt marked).*1.
Proof.
  unfold accumulate_routes.
  apply (foldl_inv (λ q : list (Route * Stop), NoDup q.*1)); [|constructor].
  intros q m _ Hq.
  apply (foldl_inv (λ q : list (Route * Stop), NoDup q.*1)); [|done].
  intros q1 r1 _ Hq1. by apply accumulate_route_NoDup.
Qed.

(** What [Q] holds for a route: nothing when the route serves no marked
    stop, and otherwise the first of the marked stops that come earliest
    in the route. *)
Lemma q_get_accumulate_routes (marked : list Stop) (r : Route) :
  match q_get r (accumulate_routes tt marked) with
  | Some p => earliest_marked tt marked r p
  | None => ∀ m, m ∈ marked → r ∉ get_routes_of_stop tt m
  end.
Proof.
  clear set_order.
  induction marked as [|m ms IH] using rev_ind.
  - simpl. by intros m ?%elem_of_nil.
  - rewrite accumulate_routes_snoc, q_get_accumulate_stop.
    destruct (q_get r (accumulate_routes tt ms)) as [c|] eqn:Hq.
    + destruct IH as (pre & post & -> & Hc & Hpre & Hpost).
      assert (earliest_marked tt ((pre ++ c :: post) ++ [m]) r c
              ↔ (r ∈ get_routes_of_stop tt m →
                 (stop_index tt r c ≤ stop_index tt r m)%nat)) as Hkeep.
      { split.
        - intros (pre' & post' & Heq & _ & Hpre' & Hpost') Hm.
          rewrite <- app_assoc in Heq. simpl in Heq.
          assert (m ∈ pre' ++ c :: post') as Hin.
          { rewrite <- Heq. set_solver. }
          apply elem_of_app in Hin as [Hin|[->|Hin]%elem_of_cons].
          + specialize (Hpre' _ Hin Hm). lia.
          + lia.
          + by apply Hpost'.
        - intros Hm. exists pre, (post ++ [m]).
          split; [by rewrite <- app_assoc|]. split; [done|]. split; [done|].
          intros m' [Hin| ->%list_elem_of_singleton]%elem_of_app; auto. }
      case_decide as Hr; [|apply Hkeep; by intros ?].
      destruct (Nat.ltb_spec (stop_index tt r m) (stop_index tt r c));
        [|apply Hkeep; by intros ?].
      exists (pre ++ c :: post), []. split; [done|]. split; [done|].
      split; [|by intros ? ?%elem_of_nil].
      intros m' [Hin|[->|Hin]%elem_of_cons]%elem_of_app Hm'.
      * specialize (Hpre _ Hin Hm'). lia.
      * done.
      * specialize (Hpost _ Hin Hm'). lia.
    + case_decide as Hr.
      * exists ms, []. split; [done|]. split; [done|].
        split; [|by intros ? ?%elem_of_nil].
        intros m' Hin Hm'. by destruct (IH _ Hin).
      * intros m' [Hin| ->%list_elem_of_singleton]%elem_of_app; auto.
Qed.

(** [accumulate_routes] returns one pair for each route that serves a
    marked stop, and no other: its routes are distinct, and they are
    exactly the routes of the marked stops. *)
Theorem accumulate_routes_routes (marked : list Stop) :
  NoDup (accumulate_routes tt marked).*1
  ∧ ∀ r, r ∈ (accumulate_routes tt marked).*1
         ↔ ∃ m, m ∈ marked ∧ r ∈ get_routes_of_stop tt m.
Proof.
  clear set_order.
  split; [apply accumulate_routes_NoDup|].
  intros r. pose proof (q_get_accumulate_routes marked r) as Hget.
  destruct (q_get r (accumulate_routes tt marked)) as [p|] eqn:Hq.
  - split.
    + intros _. destruct Hget as (pre & post & -> & Hp & _).
      exists p. split; [set_solver|done].
    + intros _. destruct (decide (r ∈ (accumulate_routes tt marked).*1));
        [done|]. apply q_get_None in n. congruence.
  - apply q_get_None in Hq. split; [done|].
    intros (m & Hm & Hr). by destruct (Hget m Hm).
Qed.

(** The stop that [accumulate_routes] pairs with a route is the marked
    stop that comes earliest in the route, and the first marked one among
    several with the same index. *)
Theorem accumulate_routes_earliest (marked : list Stop) (r : Route) (p : Stop) :
  (r, p) ∈ accumulate_routes tt marked → earliest_marked tt marked r p.
Proof.
  intros Hin%q_get_elem_of; [|apply accumulate_routes_NoDup].
  pose proof (q_get_accumulate_routes marked r) as Hget.
  by rewrite Hin in Hget.
Qed.


(** ** reconstruct_journey: the shape of the journey *)

Lemma backward_walk_legs (bag : gmap (Stop + Station) (@Label Stop Trip))
    p legs :
  backward_walk bag p legs →
  (∀ leg, leg ∈ legs → leg_of_label bag leg)
  ∧ (∀ js1 a b js2,
       legs = js1 ++ a :: b :: js2 → leg_from_stop a = leg_to_stop b)
  ∧ match head legs with
    | Some leg => leg_to_stop leg = p
    | None => ∃ l, bag !! inl p = Some l ∧ from_stop l = None
    end
  ∧ ∃ l, bag !! inl (default p (leg_from_stop <$> last legs)) = Some l
         ∧ from_stop l = None.
Proof.
  induction 1 as [p l Hl Hfrom | p l q legs Hl Hfrom Hwalk (Hlegs & Hcon & Hhead & Hlast)].
  - split; [by intros leg ?%elem_of_nil|]. split; [by intros [|? ?]|].
    simpl. split; by exists l.
  - split; [|split; [|split]].
    + intros leg [->|Hin]%elem_of_cons; [|by apply Hlegs].
      by exists l.
    + intros [|x js1] a b js2 Heq; simpl in Heq; simplify_eq;
        [|by eapply Hcon].
      by simpl in *.
    + done.
    + rewrite last_cons. destruct (last legs) as [leg|]; [done|]. done.
Qed.

(** A journey that [reconstruct_journey] returns is a connected path to
    the destination: every leg is made from the label of its to-stop (that
    label's from-stop, trip and arrival time), each leg ends where the next
    one starts, the last leg ends at the destination, and the first leg
    starts at a stop whose label has no from-stop.  A journey without legs
    is returned when the label of the destination has no from-stop. *)
Theorem reconstruct_journey_path
    (bag : gmap (Stop + Station) (@Label Stop Trip)) (destination : Stop)
    (fuel : nat) (journey : @Journey Stop Trip) :
  reconstruct_journey fuel destination bag = Returns journey →
  (∀ leg, leg ∈ journey → leg_of_label bag leg)
  ∧ legs_connected journey
  ∧ match last journey with
    | Some leg => leg_to_stop leg = destination
    | None => ∃ l, bag !! inl destination = Some l ∧ from_stop l = None
    end
  ∧ ∃ l, bag !! inl (default destination (leg_from_stop <$> head journey))
         = Some l
         ∧ from_stop l = None.
Proof.
  unfold reconstruct_journey, new_Journey.
  intros (legs & Hwalk & _ & ->)%reconstruct_loop_returns.
  rewrite app_nil_r.
  destruct (backward_walk_legs _ _ _ Hwalk) as (Hlegs & Hcon & Hhead & Hlast).
  split; [|split; [|split]].
  - intros leg Hin. apply Hlegs. by apply (proj1 (elem_of_reverse _ _)).
  - intros js1 a b js2 Heq. symmetry.
    apply (Hcon (reverse js2) b a (reverse js1)).
    rewrite <- (reverse_involutive legs), Heq.
    rewrite reverse_app, !reverse_cons, <- !app_assoc. done.
  - by rewrite last_reverse.
  - by rewrite head_reverse.
Qed.

(** The loop of [reconstruct_journey] has no other exit than a label
    without from-stop: on a table whose from-stops, followed from the
    destination, never reach such a label and never leave the keys of the
    table (a cycle of from-stops), it does not return, whatever the
    fuel. *)
Theorem reconstruct_journey_diverges
    (bag : gmap (Stop + Station) (@Label Stop Trip)) (cycle : Stop → Prop)
    (destination : Stop) :
  (∀ p, cycle p →
        ∃ l q, bag !! inl p = Some l ∧ from_stop l = Some q ∧ cycle q) →
  cycle destination →
  ∀ fuel, reconstruct_journey fuel destination bag = OutOfFuel.
Proof.
  intros Hcycle Hdest fuel. unfold reconstruct_journey.
  generalize (new_Journey (Stop:=Stop) (Trip:=Trip)). revert destination Hdest.
  induction fuel as [|fuel IH]; intros p Hp journey; simpl; [done|].
  destruct (Hcycle p Hp) as (l & q & -> & -> & Hq). by apply IH.
Qed.


(** ** Every phase marks the stops that it improves, and no other *)

Lemma improve_by_trip_mstep k st ns ct bs c st' ns' :
  improve_by_trip tt k st ns ct bs c = Some (st', ns') →
  (is_Some ct → is_Some bs) →
  rtc (mstep k) (st, ns) (st', ns').
Proof.
  intros [[-> ->]|(t & ls & st1 & -> & Hs & Hlt & Hbound & Hu & Hst & ->)]
    %improve_by_trip_inv Hbs; [done|].
  destruct Hbs as [b ->]; [done|].
  eapply rtc_l; [by eapply mstep_write|].
  destruct Hst as [->|[Hdest ->]]; [done|]. apply rtc_once.
  pose proof Hu as (lk & ls' & _ & _ & Hstar & _ & _ & Hb)%update_both_lookup.
  specialize (Hstar (inl c)). rewrite decide_True in Hstar by done.
  apply (mstep_bound k st1 (ns ++ [c]) c _ Hdest Hstar). simpl. by rewrite Hb.
Qed.

Lemma scan_stop_mstep k r sc c sc' :
  scan_stop tt k r sc c = Some sc' →
  (is_Some (sc_current_trip sc) → is_Some (sc_boarding_stop sc)) →
  rtc (mstep k) (sc_state sc, sc_new_stops sc) (sc_state sc', sc_new_stops sc')
  ∧ (is_Some (sc_current_trip sc') → is_Some (sc_boarding_stop sc')).
Proof.
  unfold scan_stop. intros Hs Hbs.
  destruct (improve_by_trip _ _ _ _ _ _ _) as [[st1 ns1]|] eqn:Hi;
    simpl in Hs; [|done].
  destruct (catch_trip _ _ _ _ _ _ _) as [[ct1 bs1]|] eqn:Hc; simpl in Hs;
    [|done].
  simplify_eq. simpl. split; [by eapply improve_by_trip_mstep|].
  apply catch_trip_inv in Hc
    as (bp & lp & _ & _ & [[-> ->]|(tst & _ & -> & ->)]); [done|eauto].
Qed.

Lemma scan_route_mstep k (acc acc' : StateT * list Stop) rp :
  scan_route tt k acc rp = Some acc' → rtc (mstep k) acc acc'.
Proof.
  unfold scan_route. destruct rp as [r m], acc as [st ns]. intros Hs.
  destruct (foldM _ _ _) as [sc|] eqn:Hf; simpl in Hs; [|done]. simplify_eq.
  revert Hf.
  apply (foldM_inv (λ sc : @Scan Stop Station Trip _ _ _ _,
           rtc (mstep k) (st, ns) (sc_state sc, sc_new_stops sc)
           ∧ (is_Some (sc_current_trip sc) → is_Some (sc_boarding_stop sc)))
           _ _ _ sc).
  - intros sc1 c sc2 _ [Hrtc Hbs] Hsc.
    destruct (scan_stop_mstep _ _ _ _ _ Hsc Hbs) as [Hrtc' Hbs'].
    split; [by etrans|done].
  - simpl. split; [done|]. by intros [? ?].
Qed.

Lemma traverse_routes_mstep st k q st' ns :
  traverse_routes tt st k q = Some (st', ns) → rtc (mstep k) (st, []) (st', ns).
Proof.
  unfold traverse_routes.
  apply (foldM_inv (λ acc : StateT * list Stop, rtc (mstep k) (st, []) acc)
           _ _ _ (st', ns)); [|done].
  intros acc1 rp acc2 _ Hrtc Hsc. etrans; [done|]. by eapply scan_route_mstep.
Qed.

Lemma relax_transfer_mstep k c ts (acc acc' : StateT * list Stop) tr :
  relax_transfer TRANSFER_TRIP k c ts acc tr = Some acc' →
  rtc (mstep k) acc acc'.
Proof.
  destruct acc as [st ns].
  intros [->|(cost & ls & st1 & _ & Hs & Hlt & Hu & ->)]%relax_transfer_inv;
    [done|].
  simpl in *. apply rtc_once. by eapply mstep_write.
Qed.

Lemma relax_stop_mstep k (acc acc' : StateT * list Stop) c :
  relax_stop tt TRANSFER_TRIP k acc c = Some acc' → rtc (mstep k) acc acc'.
Proof.
  unfold relax_stop. intros Hr.
  destruct (bag_round_stop acc.1 !! k) as [bk|]; simpl in Hr; [|done].
  destruct (bk !! inl c) as [lc|]; simpl in Hr; [|done].
  destruct (from_stop_idx tt c) as [trs|]; simpl in Hr; [|done].
  revert Hr.
  apply (foldM_inv (λ a : StateT * list Stop, rtc (mstep k) acc a)); [|done].
  intros a1 tr a2 _ Hrtc Ha. etrans; [done|]. by eapply relax_transfer_mstep.
Qed.

Lemma add_transfer_time_mstep st k marked st' ns :
  add_transfer_time tt TRANSFER_TRIP st k marked = Some (st', ns) →
  rtc (mstep k) (st, []) (st', ns).
Proof.
  unfold add_transfer_time.
  apply (foldM_inv (λ acc : StateT * list Stop, rtc (mstep k) (st, []) acc)
           _ _ _ (st', ns)); [|done].
  intros a1 c a2 _ Hrtc Ha. etrans; [done|]. by eapply relax_stop_mstep.
Qed.

(** The transfer phase does not change the destination bound. *)
Lemma add_transfer_time_bound st k marked st' ns :
  add_transfer_time tt TRANSFER_TRIP st k marked = Some (st', ns) →
  earliest_arrival_at_destination st' = earliest_arrival_at_destination st.
Proof.
  unfold add_transfer_time.
  apply (foldM_inv (λ acc : StateT * list Stop,
           earliest_arrival_at_destination acc.1
           = earliest_arrival_at_destination st) _ _ _ (st', ns)); [|done].
  intros a1 c a2 _ Ha1. unfold relax_stop. intros Hr.
  destruct (bag_round_stop a1.1 !! k) as [bk|]; simpl in Hr; [|done].
  destruct (bk !! inl c) as [lc|]; simpl in Hr; [|done].
  destruct (from_stop_idx tt c) as [trs|]; simpl in Hr; [|done].
  revert Hr.
  apply (foldM_inv (λ a : StateT * list Stop,
           earliest_arrival_at_destination a.1
           = earliest_arrival_at_destination st)); [|done].
  intros b1 tr b2 _ Hb1
    [->|(cost & ls & st1 & _ & _ & _ & Hu & ->)]%relax_transfer_inv; [done|].
  apply update_both_lookup in Hu as (_ & _ & _ & _ & _ & _ & _ & Hb).
  simpl. congruence.
Qed.

Lemma improved_refl k st : improved k st st [].
Proof. split; [by intros p ?%elem_of_nil|done]. Qed.

Lemma improved_trans k st1 st2 st3 added1 added2 :
  improved k st1 st2 added1 → improved k st2 st3 added2 →
  improved k st1 st3 (added1 ++ added2).
Proof.
  intros [Hin1 Hout1] [Hin2 Hout2]. split.
  - intros p Hp. destruct (decide (p ∈ added2)) as [Hp2|Hp2].
    + destruct (Hin2 p Hp2) as (l2 & l3 & Hl2 & Hl3 & Hlt & Hfrom & Hround).
      destruct (decide (p ∈ added1)) as [Hp1|Hp1].
      * destruct (Hin1 p Hp1) as (l1 & l2' & Hl1 & Hl2' & Hlt' & _).
        simplify_eq. exists l1, l3. repeat split; try done. lia.
      * destruct (Hout1 p Hp1) as [Hs _]. rewrite Hs in Hl2.
        by exists l2, l3.
    + apply elem_of_app in Hp as [Hp1|?]; [|done].
      destruct (Hin1 p Hp1) as (l1 & l2 & Hl1 & Hl2 & Hlt & Hfrom & Hround).
      destruct (Hout2 p Hp2) as [Hs Hr].
      exists l1, l2. rewrite Hs, Hr. done.
  - intros p [Hp1 Hp2]%not_elem_of_app.
    destruct (Hout1 p Hp1) as [Hs1 Hr1]. destruct (Hout2 p Hp2) as [Hs2 Hr2].
    split; congruence.
Qed.

Lemma framed_refl k st : framed k st st.
Proof. repeat split; done. Qed.

Lemma framed_trans k st1 st2 st3 :
  framed k st1 st2 → framed k st2 st3 → framed k st1 st3.
Proof.
  intros (Hr1 & Hs1 & Hb1 & Hd1 & Hle1) (Hr2 & Hs2 & Hb2 & Hd2 & Hle2).
  repeat split.
  - intros j key Hj. by rewrite Hr2, Hr1.
  - intros j s. by rewrite Hs2, Hs1.
  - intros s. by rewrite Hb2, Hb1.
  - congruence.
  - lia.
Qed.

Lemma mstep_effect k (a a' : StateT * list Stop) :
  mstep k a a' →
  ∃ added, a'.2 = a.2 ++ added
           ∧ improved k a.1 a'.1 added ∧ framed k a.1 a'.1.
Proof.
  clear set_order.
  intros [st st' ns p v trp b ls Hls Hlt Hu | st ns p ls Hdest Hls Hlt]; simpl.
  - exists [p]. split; [done|].
    apply update_both_lookup in Hu
      as (lk & ls' & Hlk & Hls' & Hstar & Hround & Hd & Hb).
    simplify_eq. split; [split|repeat split].
    + intros q ->%list_elem_of_singleton. eexists ls, _.
      split; [done|]. rewrite Hstar, Hround, !decide_True by done.
      split; [done|]. split; [done|]. split; [by eexists|done].
    + intros q Hq%not_elem_of_cons. destruct Hq as [Hq _].
      rewrite Hstar, Hround, !decide_False by naive_solver. done.
    + intros j key Hj. rewrite Hround, decide_False by naive_solver. done.
    + intros j s. rewrite Hround, decide_False by naive_solver. done.
    + intros s. by rewrite Hstar, decide_False.
    + done.
    + lia.
  - exists []. split; [by rewrite app_nil_r|].
    split; [split; [by intros q ?%elem_of_nil|done]|].
    repeat split; try done. simpl. lia.
Qed.

Lemma rtc_mstep_effect k (a a' : StateT * list Stop) :
  rtc (mstep k) a a' →
  ∃ added, a'.2 = a.2 ++ added
           ∧ improved k a.1 a'.1 added ∧ framed k a.1 a'.1.
Proof.
  induction 1 as [a|a1 a2 a3 Hstep _ (added2 & Hns2 & Himp2 & Hfr2)].
  - exists []. split; [by rewrite app_nil_r|].
    split; [apply improved_refl|apply framed_refl].
  - destruct (mstep_effect _ _ _ Hstep) as (added1 & Hns1 & Himp1 & Hfr1).
    exists (added1 ++ added2). split; [by rewrite Hns2, Hns1, app_assoc|].
    split; [by eapply improved_trans|by eapply framed_trans].
Qed.

(** What one round does: the stops improved by its two phases, and the
    frame. *)
Lemma round_effect k st marked st' marked' :
  round tt TRANSFER_TRIP set_order k st marked = Some (st', marked') →
  ∃ added, marked' = set_order added
           ∧ improved k st st' added ∧ framed k st st'.
Proof.
  unfold round. intros Hr.
  destruct (traverse_routes _ _ _ _) as [[st1 ns1]|] eqn:Ht; simpl in Hr; [|done].
  destruct (add_transfer_time _ _ _ _ _) as [[st2 ns2]|] eqn:Ha;
    simpl in Hr; [|done].
  simplify_eq.
  apply traverse_routes_mstep, rtc_mstep_effect in Ht
    as (a1 & Hns1 & Himp1 & Hfr1).
  apply add_transfer_time_mstep, rtc_mstep_effect in Ha
    as (a2 & Hns2 & Himp2 & Hfr2).
  simpl in *. subst. exists (a1 ++ a2). split; [done|].
  split; [by eapply improved_trans|by eapply framed_trans].
Qed.

(** The list of stops that [traverse_routes] returns, and the one that
    [add_transfer_time] returns, holds exactly the stops that the phase
    has improved: for a stop of the list, the arrival time in [bag_star]
    is strictly smaller than before the phase, its label has a from-stop,
    and the bag of the round holds the same label; for a stop that is not
    in the list, the two labels are as before the phase. *)
Theorem phases_mark_improved_stops :
  (∀ st k q st' ns,
     traverse_routes tt st k q = Some (st', ns) → improved k st st' ns)
  ∧ (∀ st k marked st' ns,
       add_transfer_time tt TRANSFER_TRIP st k marked = Some (st', ns) →
       improved k st st' ns).
Proof.
  split.
  - intros st k q st' ns Ht.
    apply traverse_routes_mstep, rtc_mstep_effect in Ht
      as (added & Hns & Himp & _).
    simpl in *. by subst.
  - intros st k marked st' ns Ha.
    apply add_transfer_time_mstep, rtc_mstep_effect in Ha
      as (added & Hns & Himp & _).
    simpl in *. by subst.
Qed.

(** One round writes into [bag_star] and into the bag of its own round
    only, and only labels of stops: the bags of the other rounds, the
    labels stored for stations and the set of destination stops are as
    before, and the destination bound has not grown.  The bound is moved by
    the route traversal only: the transfer phase leaves it as it is, also
    when it improves a destination stop. *)
Theorem round_frame :
  (∀ k st marked st' marked',
     round tt TRANSFER_TRIP set_order k st marked = Some (st', marked') →
     framed k st st')
  ∧ (∀ st k marked st' ns,
       add_transfer_time tt TRANSFER_TRIP st k marked = Some (st', ns) →
       earliest_arrival_at_destination st'
       = earliest_arrival_at_destination st).
Proof.
  split.
  - intros k st marked st' marked' Hr.
    by apply round_effect in Hr as (added & _ & _ & Hfr).
  - apply add_transfer_time_bound.
Qed.


(** ** run: when it raises, and what the rounds leave alone *)

(** A property kept by every round is kept by the loop over the rounds. *)
Lemma run_rounds_inv (P : StateT → Prop) ks st marked st' :
  (∀ k st1 marked1 st2 marked2,
     k ∈ ks → P st1 →
     round tt TRANSFER_TRIP set_order k st1 marked1 = Some (st2, marked2) →
     P st2) →
  P st →
  run_rounds tt TRANSFER_TRIP set_order ks st marked = Some st' → P st'.
Proof.
  revert st marked. induction ks as [|k ks IH]; intros st marked Hstep HP Hr;
    simpl in Hr; [by simplify_eq|].
  case_bool_decide; [|by simplify_eq].
  destruct (round _ _ _ _ _ _) as [[st1 marked1]|] eqn:Hround;
    simpl in Hr; [|done].
  eapply IH; [| |done].
  - intros k' ? ? ? ? Hk'. apply Hstep. by right.
  - eapply Hstep; [by left|done..].
Qed.

(** The origin loop fails on an origin stop that has no label. *)
Lemma mark_origins_None dep_secs from_stops (acc : StateT * list Stop) :
  dom (bag_star acc.1) = stop_keys tt →
  (∃ p, p ∈ from_stops ∧ p ∉ stops tt) →
  foldM (mark_origin dep_secs) acc from_stops = None.
Proof.
  revert acc. induction from_stops as [|x rest IH]; intros acc Hdom (p & Hp & Hbad).
  - by apply elem_of_nil in Hp.
  - cbn [foldM].
    destruct (mark_origin dep_secs acc x) as [acc1|] eqn:Hm; [|done].
    cbn [mbind option_bind]. unfold mark_origin in Hm.
    destruct (update_both acc.1 0 x dep_secs NoTrip None) as [st1|] eqn:Hu;
      simpl in Hm; [|done].
    simplify_eq. apply IH.
    + simpl. apply update_both_dom in Hu as [-> _]. done.
    + apply elem_of_cons in Hp as [->|Hp]; [|eauto].
      exfalso. apply Hbad, elem_of_stop_keys. rewrite <- Hdom.
      apply update_both_Some in Hu as (_ & _ & ls & _ & _ & Hls & _).
      by apply elem_of_dom_2 in Hls.
Qed.

(** On a closed timetable and with a number of rounds that is not
    negative, [run] raises [KeyError] exactly when one of the origin stops
    is not a stop of the timetable. *)
Theorem run_raises_on_unknown_origin from_stops to_station dep_secs rounds :
  timetable_closed tt → 0 ≤ rounds →
  run tt LARGE_NUMBER TRANSFER_TRIP set_order
      from_stops to_station dep_secs rounds = None
  ↔ ∃ p, p ∈ from_stops ∧ p ∉ stops tt.
Proof.
  intros Hclosed Hrounds. unfold run. split.
  - intros Hrun.
    destruct (decide (Forall (λ p, p ∈ stops tt) from_stops)) as [Hall|Hnot].
    + destruct (run_state_total from_stops to_station dep_secs rounds)
        as [st Hst]; [done|by left|done|].
      by rewrite Hst in Hrun.
    + apply not_Forall_Exists in Hnot; [|apply _].
      apply Exists_exists in Hnot as (p & Hp & Hbad). eauto.
  - intros Hbad. unfold run_state.
    rewrite mark_origins_None; [done| |done].
    apply (init_state_tables_ok to_station rounds).
Qed.

(** With a negative number of rounds no bag of a round exists, not even
    the one of round 0: [run] raises [KeyError] at the first origin stop,
    and returns only when there is no origin stop. *)
Theorem run_negative_rounds from_stops to_station dep_secs rounds :
  rounds < 0 →
  run tt LARGE_NUMBER TRANSFER_TRIP set_order
      from_stops to_station dep_secs rounds = None
  ↔ from_stops ≠ [].
Proof.
  intros Hrounds. unfold run. destruct from_stops as [|x rest].
  - rewrite run_state_no_origin. simpl. split; done.
  - split; [done|]. intros _. unfold run_state. cbn [foldM].
    assert (mark_origin dep_secs
              (init_state tt LARGE_NUMBER to_station rounds, []) x = None)
      as ->; [|done].
    assert (bag_round_stop (init_state tt LARGE_NUMBER to_station rounds) !! 0
            = None) as Hnone.
    { simpl. rewrite lookup_init_bag_round_stop. by rewrite decide_False by lia. }
    unfold mark_origin, update_both, update_round. cbn [fst].
    by rewrite Hnone.
Qed.

(** The labels of the rounds after the origin loop. *)
Lemma mark_origins_round dep_secs from_stops (acc acc' : StateT * list Stop) :
  foldM (mark_origin dep_secs) acc from_stops = Some acc' →
  ∀ j key, round_label acc'.1 j key
           = if decide (j = 0
                        ∧ key ∈ (inl <$> from_stops : list (Stop + Station)))
             then origin_label dep_secs <$> round_label acc.1 j key
             else round_label acc.1 j key.
Proof.
  clear set_order.
  revert acc. induction from_stops as [|o os IH]; intros acc Hf;
    cbn [foldM] in Hf.
  - simplify_eq. intros j key. rewrite decide_False; [done|].
    intros [_ ?%elem_of_nil]. done.
  - destruct (mark_origin dep_secs acc o) as [acc1|] eqn:Hm;
      cbn [mbind option_bind] in Hf; [|done].
    unfold mark_origin in Hm.
    destruct (update_both acc.1 0 o dep_secs NoTrip None) as [st1|] eqn:Hu;
      simpl in Hm; [|done].
    simplify_eq. specialize (IH _ Hf). cbn [fst snd] in *.
    apply update_both_lookup in Hu as (lk & ls & Hlk & _ & _ & Hround & _).
    intros j key. rewrite IH, !Hround, fmap_cons. clear IH Hround.
    destruct (decide (j = 0 ∧ key = inl o)) as [[-> ->]|Hne].
    + rewrite Hlk. rewrite (decide_True (P := 0 = 0 ∧ inl o ∈ inl o :: _))
        by (split; [done|by left]).
      by case_decide.
    + destruct (decide (j = 0 ∧ key ∈ (inl <$> os : list (Stop + Station))))
        as [[-> Hin]|Hnin].
      * rewrite decide_True; [done|]. split; [done|by right].
      * rewrite decide_False; [done|].
        intros [-> [->|?]%elem_of_cons]; naive_solver.
Qed.

(** The labels that the bags of the rounds hold for stations are never
    written: after a run, every bag of a round still maps every station of
    the timetable to a label as [Label()] made it. *)
Theorem station_labels_untouched from_stops to_station dep_secs rounds st :
  run_state tt LARGE_NUMBER TRANSFER_TRIP set_order
            from_stops to_station dep_secs rounds = Some st →
  ∀ j s, round_label st j (inr s)
         = if decide (0 ≤ j ≤ rounds ∧ s ∈ stations tt)
           then Some (new_Label LARGE_NUMBER) else None.
Proof.
  unfold run_state. intros Hr j s.
  destruct (foldM _ _ _) as [[st0 marked]|] eqn:Hf; simpl in Hr; [|done].
  transitivity (round_label st0 j (inr s)).
  - revert Hr.
    apply (run_rounds_inv (λ st1, round_label st1 j (inr s)
                                  = round_label st0 j (inr s))); [|done].
    intros k st1 marked1 st2 marked2 _ Hst1
      (added & _ & _ & _ & Hstations & _)%round_effect.
    by rewrite Hstations.
  - rewrite (mark_origins_round _ _ _ _ Hf). cbn [fst].
    rewrite decide_False.
    + rewrite round_label_init_state.
      assert (inr s ∈ stop_keys tt ∪ station_keys tt ↔ s ∈ stations tt) as Hs.
      { unfold stop_keys, station_keys.
        rewrite elem_of_union, !elem_of_list_to_set, !list_elem_of_fmap.
        split; [|naive_solver]. intros [(? & ? & ?)|(? & ? & ?)]; by simplify_eq. }
      repeat case_decide; naive_solver.
    + intros [_ (? & ? & ?)%list_elem_of_fmap]. done.
Qed.

(** The rounds [1 ..] write into their own bags only: after a run, the
    bag of round 0 holds what the origin loop has put there, the label
    with the departure time, no trip and no from-stop for an origin stop
    and a label as [Label()] made it for every other stop. *)
Theorem round_zero_holds_origins from_stops to_station dep_secs rounds st :
  run_state tt LARGE_NUMBER TRANSFER_TRIP set_order
            from_stops to_station dep_secs rounds = Some st →
  ∀ p l, round_label st 0 (inl p) = Some l →
    l = if decide (p ∈ from_stops)
        then mkLabel dep_secs NoTrip None
        else new_Label LARGE_NUMBER.
Proof.
  unfold run_state. intros Hr p l.
  destruct (foldM _ _ _) as [[st0 marked]|] eqn:Hf; simpl in Hr; [|done].
  assert (round_label st 0 (inl p) = round_label st0 0 (inl p)) as ->.
  { revert Hr.
    apply (run_rounds_inv (λ st1, round_label st1 0 (inl p)
                                  = round_label st0 0 (inl p))); [|done].
    intros k st1 marked1 st2 marked2 Hk%elem_of_seqZ Hst1
      (added & _ & _ & Hrounds & _)%round_effect.
    rewrite Hrounds; [done|lia]. }
  rewrite (mark_origins_round _ _ _ _ Hf). cbn [fst].
  rewrite round_label_init_state.
  destruct (decide (p ∈ from_stops)) as [Hin|Hin].
  - rewrite decide_True by (split; [done|by apply list_elem_of_fmap_2]).
    case_decide; simpl; [|done]. by intros ?; simplify_eq.
  - rewrite decide_False.
    + case_decide; [|done]. by intros ?; simplify_eq.
    + intros [_ (q & ? & ?)%list_elem_of_fmap]. by simplify_eq.
Qed.

Lemma run_labels_without_from_stop from_stops to_station dep_secs rounds bag :
  run tt LARGE_NUMBER TRANSFER_TRIP set_order
      from_stops to_station dep_secs rounds = Some bag →
  ∀ p l, bag !! inl p = Some l → from_stop l = None →
    l = new_Label LARGE_NUMBER
    ∨ (p ∈ from_stops ∧ l = mkLabel dep_secs NoTrip None).
Proof.
  unfold run, run_state. intros Hrun p l Hl Hfrom.
  destruct (foldM _ _ _) as [[st0 marked]|] eqn:Hf; simpl in Hrun; [|done].
  destruct (run_rounds _ _ _ _ _ _) as [st|] eqn:Hr; simpl in Hrun; [|done].
  simplify_eq.
  assert (bag_star st0 !! inl p = Some l) as Hl0.
  { revert Hr l Hl Hfrom.
    apply (run_rounds_inv (λ st1, ∀ l, bag_star st1 !! inl p = Some l →
                                       from_stop l = None →
                                       bag_star st0 !! inl p = Some l));
      [|done].
    intros k st1 marked1 st2 marked2 _ Hst1
      (added & _ & [Hin Hout] & _)%round_effect l Hl Hfrom.
    destruct (decide (p ∈ added)) as [Hp|Hp].
    - destruct (Hin p Hp) as (l1 & l2 & _ & Hl2 & _ & [q Hq] & _).
      simplify_eq.
    - destruct (Hout p Hp) as [Hs _]. rewrite Hs in Hl. by apply Hst1. }
  apply mark_origins_star in Hf as [_ Hstar]. rewrite Hstar in Hl0.
  cbn [fst] in Hl0. simpl in Hl0. rewrite lookup_add_stop_labels in Hl0.
  destruct (decide (p ∈ from_stops)) as [Hin|Hin].
  - rewrite decide_True in Hl0 by by apply list_elem_of_fmap_2.
    case_decide; simpl in Hl0; [|done]. simplify_eq. right. done.
  - rewrite decide_False in Hl0.
    + case_decide; [|done]. simplify_eq. by left.
    + intros (q & ? & ?)%list_elem_of_fmap. by simplify_eq.
Qed.

(** In the table that [run] returns, a label without from-stop has never
    been written by a round: it is as [Label()] made it, or it is the label
    that the origin loop gave an origin stop, with the departure time and
    no trip.  Every label that a round writes has a from-stop. *)
Theorem labels_without_from_stop from_stops to_station dep_secs rounds bag :
  run tt LARGE_NUMBER TRANSFER_TRIP set_order
      from_stops to_station dep_secs rounds = Some bag →
  ∀ p l, bag !! inl p = Some l → from_stop l = None →
    l = new_Label LARGE_NUMBER
    ∨ (p ∈ from_stops ∧ l = mkLabel dep_secs NoTrip None).
Proof. apply run_labels_without_from_stop. Qed.


(** ** The range query and the point queries *)

(** The backward walk raises nothing but [KeyError], and so does the
    point query on given stops. *)
Lemma reconstruct_loop_raises (fuel : nat)
    (bag : gmap (Stop + Station) (@Label Stop Trip)) p journey e :
  reconstruct_loop fuel bag p journey = Raises e → e = KeyError.
Proof.
  revert p journey. induction fuel as [|fuel IH]; intros p journey;
    cbn [reconstruct_loop]; [done|].
  destruct (bag !! inl p) as [l|]; [|by intros [= <-]].
  destruct (from_stop l); [apply IH|done].
Qed.

Lemma point_query_raises fuel from_stops to_stops destination dep_secs rounds e :
  point_query tt LARGE_NUMBER TRANSFER_TRIP set_order fuel
    from_stops to_stops destination dep_secs rounds = Raises e →
  e = KeyError.
Proof.
  unfold point_query, reconstruct_journey. intros Hquery.
  repeat case_match; simplify_eq; try done.
  by eapply reconstruct_loop_raises.
Qed.

Section Range.
Variable Journey_bool : @Journey Stop Trip → bool.
Variable dep : @Journey Stop Trip → option Z.
Variable arr : @Journey Stop Trip → option Z.

(** [run_raptor] looks the two stations up and then is the point query
    on their stops. *)
Lemma run_raptor_point_query fuel origin destination dep_secs rounds :
  run_raptor tt LARGE_NUMBER TRANSFER_TRIP set_order
             fuel origin destination dep_secs rounds
  = if decide (origin ∈ stations tt ∧ destination ∈ stations tt)
    then point_query tt LARGE_NUMBER TRANSFER_TRIP set_order fuel
           (station_stops tt origin) (station_stops tt destination)
           destination dep_secs rounds
    else Raises AttributeError.
Proof.
  unfold run_raptor, stations_getitem, stations_get, point_query.
  repeat case_decide; naive_solver.
Qed.

(** The body of the loop of the range query is a point query followed by
    the acceptance test. *)
Lemma range_step_point_query fuel from_stops to_stops destination rounds
    journeys dep_secs :
  destination ∈ stations tt →
  range_step tt LARGE_NUMBER TRANSFER_TRIP set_order Journey_bool dep arr
             fuel from_stops to_stops destination rounds journeys dep_secs
  = match point_query tt LARGE_NUMBER TRANSFER_TRIP set_order fuel
            from_stops to_stops destination dep_secs rounds with
    | Returns None => Returns journeys
    | Returns (Some journey) =>
        match accept Journey_bool dep arr journeys journey with
        | Some journeys' => Returns journeys'
        | None => Raises JourneyError
        end
    | Raises e => Raises e
    | OutOfFuel => OutOfFuel
    end.
Proof.
  intros Hdest. unfold range_step, point_query, stations_getitem.
  rewrite stations_get_Some by done. by repeat case_match.
Qed.

Lemma range_loop_point_queries fuel from_stops to_stops destination rounds
    dep_secs_list journeys journeys' :
  destination ∈ stations tt →
  range_loop tt LARGE_NUMBER TRANSFER_TRIP set_order Journey_bool dep arr
             fuel from_stops to_stops destination rounds journeys dep_secs_list
    = Returns journeys' →
  ∃ accepted ds,
    journeys' = journeys ++ accepted
    ∧ ds `sublist_of` dep_secs_list
    ∧ Forall2 (λ d journey,
                 point_query tt LARGE_NUMBER TRANSFER_TRIP set_order fuel
                   from_stops to_stops destination d rounds
                 = Returns (Some journey))
              ds accepted.
Proof.
  intros Hdest. revert journeys. induction dep_secs_list as [|d ds IH];
    intros journeys Hr; cbn [range_loop] in Hr.
  - simplify_eq. exists [], []. rewrite app_nil_r. repeat split; constructor.
  - rewrite range_step_point_query in Hr by done.
    destruct (point_query _ _ _ _ _ _ _ _ _ _) as [[journey|]| |] eqn:Hpoint;
      [| |done..].
    + destruct (accept _ _ _ journeys journey) as [js|] eqn:Haccept; [|done].
      apply IH in Hr as (accepted & ds' & -> & Hsub & Hall).
      destruct (accept_cases _ _ _ _ _ _ Haccept) as [-> | ->].
      * exists (journey :: accepted), (d :: ds').
        rewrite <- app_assoc. split; [done|].
        split; [by constructor|by constructor].
      * exists accepted, ds'. split; [done|]. split; [by constructor|done].
    + apply IH in Hr as (accepted & ds' & -> & Hsub & Hall).
      exists accepted, ds'. split; [done|]. split; [by constructor|done].
Qed.

(** When the loop of the range query returns, every point query of it
    has returned. *)
Lemma range_loop_returned fuel from_stops to_stops destination rounds
    dep_secs_list journeys journeys' :
  destination ∈ stations tt →
  range_loop tt LARGE_NUMBER TRANSFER_TRIP set_order Journey_bool dep arr
             fuel from_stops to_stops destination rounds journeys
             dep_secs_list = Returns journeys' →
  ∀ d, d ∈ dep_secs_list →
    ∃ res, point_query tt LARGE_NUMBER TRANSFER_TRIP set_order fuel
             from_stops to_stops destination d rounds = Returns res.
Proof.
  intros Hdest. revert journeys. induction dep_secs_list as [|d ds IH];
    intros journeys Hr d0 Hd0; [by apply elem_of_nil in Hd0|].
  cbn [range_loop] in Hr. rewrite range_step_point_query in Hr by done.
  destruct (point_query _ _ _ _ _ _ _ _ d _) as [res| |] eqn:Hpoint;
    [|done..].
  apply elem_of_cons in Hd0 as [->|Hd0]; [eauto|].
  destruct res as [journey|].
  - destruct (accept _ _ _ journeys journey) as [js|]; [|done].
    by eapply IH.
  - by eapply IH.
Qed.

(** The acceptance test returns when [dep()] and [arr()] return for the
    journeys it compares. *)
Lemma accept_returns journeys journey :
  Forall (has_times dep arr) journeys →
  has_times dep arr journey →
  ∃ journeys', accept Journey_bool dep arr journeys journey = Some journeys'
               ∧ Forall (has_times dep arr) journeys'.
Proof.
  intros Hall [[d Hd] [a Ha]]. unfold accept.
  destruct (last journeys) as [previous|] eqn:Hlast.
  - assert (has_times dep arr previous) as [[dp Hdp] [ap Hap]].
    { apply last_Some in Hlast as [js ->].
      rewrite Forall_app, Forall_singleton in Hall. by destruct Hall. }
    assert (is_Some (is_dominated Journey_bool dep arr previous journey))
      as [b Hb].
    { unfold is_dominated. rewrite Hd, Ha, Hdp, Hap. simpl.
      repeat case_match; eauto. }
    rewrite Hb. simpl. eexists. split; [done|].
    destruct (negb b); [|done].
    apply Forall_app. split; [done|]. apply Forall_singleton.
    split; eauto.
  - eexists. split; [done|].
    apply Forall_app. split; [done|]. apply Forall_singleton. split; eauto.
Qed.

(** The loop of the range query returns when every point query of it
    returns and [dep()] and [arr()] return for the journeys found. *)
Lemma range_loop_returns fuel from_stops to_stops destination rounds
    dep_secs_list journeys :
  destination ∈ stations tt →
  Forall (has_times dep arr) journeys →
  (∀ d, d ∈ dep_secs_list →
     ∃ res, point_query tt LARGE_NUMBER TRANSFER_TRIP set_order fuel
              from_stops to_stops destination d rounds = Returns res) →
  (∀ d journey, d ∈ dep_secs_list →
     point_query tt LARGE_NUMBER TRANSFER_TRIP set_order fuel
       from_stops to_stops destination d rounds = Returns (Some journey) →
     has_times dep arr journey) →
  ∃ journeys',
    range_loop tt LARGE_NUMBER TRANSFER_TRIP set_order Journey_bool dep arr
               fuel from_stops to_stops destination rounds journeys
               dep_secs_list = Returns journeys'.
Proof.
  intros Hdest. revert journeys. induction dep_secs_list as [|d ds IH];
    intros journeys Hall Hpoint Htimes; cbn [range_loop]; [eauto|].
  rewrite range_step_point_query by done.
  destruct (Hpoint d) as [res Hres]; [by left|]. rewrite Hres.
  assert (∀ js, Forall (has_times dep arr) js →
            ∃ journeys',
              range_loop tt LARGE_NUMBER TRANSFER_TRIP set_order Journey_bool
                dep arr fuel from_stops to_stops destination rounds js ds
              = Returns journeys') as Hrest.
  { intros js Hjs. apply IH; [done| |].
    - intros d0 Hd0. apply Hpoint. by right.
    - intros d0 journey Hd0. apply Htimes. by right. }
  destruct res as [journey|]; [|by apply Hrest].
  destruct (accept_returns journeys journey) as (js & -> & Hjs); [done| |].
  - eapply Htimes; [by left|done].
  - by apply Hrest.
Qed.

(** The departure times that the range query tries are the departure
    times of the stop times found in the window, each once, from the latest
    to the earliest. *)
Theorem potential_dep_secs_decrease from_stops dep_secs_min dep_secs_max :
  StronglySorted (λ d1 d2, d2 < d1)
    (potential_dep_secs tt from_stops dep_secs_min dep_secs_max)
  ∧ ∀ d, d ∈ potential_dep_secs tt from_stops dep_secs_min dep_secs_max
         ↔ ∃ tst, tst ∈ get_trip_stop_times_in_range tt from_stops
                          dep_secs_min dep_secs_max
                  ∧ dts_dep tst = d.
Proof.
  unfold potential_dep_secs.
  set (times := map dts_dep _).
  assert (Transitive Z.ge) as Htrans by (intros x y z; lia).
  assert (Total Z.ge) as Htotal by (intros x y; lia).
  split.
  - pose proof (StronglySorted_merge_sort Z.ge (remove_dups times)) as Hsorted.
    assert (NoDup (merge_sort Z.ge (remove_dups times))) as Hnodup.
    { rewrite merge_sort_Permutation. apply NoDup_remove_dups. }
    induction Hsorted as [|x xs Hxs IH Hall]; [constructor|].
    apply NoDup_cons in Hnodup as [Hx Hnodup].
    constructor; [by apply IH|].
    apply Forall_forall. intros y Hy.
    pose proof (proj1 (Forall_forall _ _) Hall y Hy) as Hge.
    assert (x ≠ y) by (by intros ->). lia.
  - intros d. rewrite merge_sort_Permutation, elem_of_remove_dups.
    subst times. rewrite list_elem_of_In, in_map_iff.
    split; intros (tst & ? & ?); exists tst.
    + by rewrite list_elem_of_In.
    + by rewrite <- list_elem_of_In.
Qed.

(** The journeys that a range query returns are answers of point
    queries: they are, in the same order, the journeys that [run_raptor]
    returns for some of the departure times tried, so there are at most as
    many journeys as departure times. *)
Theorem range_journeys_are_point_queries fuel origin destination
    dep_secs_min dep_secs_max rounds journeys :
  run_range_raptor tt LARGE_NUMBER TRANSFER_TRIP set_order Journey_bool dep arr
    fuel origin destination dep_secs_min dep_secs_max rounds
    = Returns journeys →
  ∃ ds,
    ds `sublist_of` potential_dep_secs tt (station_stops tt origin)
                      dep_secs_min dep_secs_max
    ∧ length journeys = length ds
    ∧ Forall2 (λ d journey,
                 run_raptor tt LARGE_NUMBER TRANSFER_TRIP set_order
                            fuel origin destination d rounds
                 = Returns (Some journey))
              ds journeys.
Proof.
  unfold run_range_raptor. intros Hrun.
  destruct (stations_get_stops tt origin) as [from_stops|] eqn:Hfrom; [|done].
  destruct (stations_get_stops tt destination) as [to_stops|] eqn:Hto;
    [|done].
  apply stations_get_stops_inv in Hfrom as [-> Horigin].
  apply stations_get_stops_inv in Hto as [-> Hdest].
  apply range_loop_point_queries in Hrun
    as (accepted & ds & -> & Hsub & Hall); [|done].
  exists ds. split; [done|]. split; [by apply Forall2_length in Hall|].
  eapply Forall2_impl; [done|]. intros d journey Hpoint. simpl.
  rewrite run_raptor_point_query. by rewrite decide_True.
Qed.

(** When a range query returns, the two stations are stations of the
    timetable and the point query has returned for every departure time
    tried: one point query that raises (or does not end) makes the whole
    range query raise (or not end), whatever was found before.  The other
    way round, the range query returns when the stations are stations of
    the timetable, the point query returns for every departure time tried,
    and [dep()] and [arr()] return for the journeys that these point
    queries return. *)
Theorem range_query_returns fuel origin destination
    dep_secs_min dep_secs_max rounds :
  ((∃ journeys,
      run_range_raptor tt LARGE_NUMBER TRANSFER_TRIP set_order
        Journey_bool dep arr fuel origin destination
        dep_secs_min dep_secs_max rounds = Returns journeys) →
   origin ∈ stations tt ∧ destination ∈ stations tt
   ∧ ∀ d, d ∈ potential_dep_secs tt (station_stops tt origin)
                dep_secs_min dep_secs_max →
       ∃ res, run_raptor tt LARGE_NUMBER TRANSFER_TRIP set_order
                         fuel origin destination d rounds = Returns res)
  ∧ (origin ∈ stations tt → destination ∈ stations tt →
     (∀ d, d ∈ potential_dep_secs tt (station_stops tt origin)
                 dep_secs_min dep_secs_max →
        ∃ res, run_raptor tt LARGE_NUMBER TRANSFER_TRIP set_order
                          fuel origin destination d rounds = Returns res) →
     (∀ d journey,
        d ∈ potential_dep_secs tt (station_stops tt origin)
              dep_secs_min dep_secs_max →
        run_raptor tt LARGE_NUMBER TRANSFER_TRIP set_order
                   fuel origin destination d rounds = Returns (Some journey) →
        has_times dep arr journey) →
     ∃ journeys,
       run_range_raptor tt LARGE_NUMBER TRANSFER_TRIP set_order
         Journey_bool dep arr fuel origin destination
         dep_secs_min dep_secs_max rounds = Returns journeys).
Proof.
  split.
  - intros [journeys Hrun]. unfold run_range_raptor in Hrun.
    destruct (stations_get_stops tt origin) as [from_stops|] eqn:Hfrom;
      [|done].
    destruct (stations_get_stops tt destination) as [to_stops|] eqn:Hto;
      [|done].
    apply stations_get_stops_inv in Hfrom as [-> Horigin].
    apply stations_get_stops_inv in Hto as [-> Hdest].
    split; [done|]. split; [done|]. intros d Hd.
    rewrite run_raptor_point_query, decide_True by done.
    by eapply range_loop_returned.
  - intros Horigin Hdest Hpoint Htimes. unfold run_range_raptor.
    rewrite !stations_get_stops_Some by done.
    apply range_loop_returns; [done|constructor| |].
    + intros d Hd. destruct (Hpoint d Hd) as [res Hres].
      rewrite run_raptor_point_query, decide_True in Hres by done. eauto.
    + intros d journey Hd Hres. apply (Htimes d); [done|].
      by rewrite run_raptor_point_query, decide_True.
Qed.

(** On journeys, [is_dominated] is antisymmetric and transitive: two
    journeys that dominate each other are equal, and a journey dominated by
    a dominated journey is dominated. *)
Theorem is_dominated_order :
  (∀ a b,
     is_dominated Journey_bool dep arr a b = Some true →
     is_dominated Journey_bool dep arr b a = Some true → a = b)
  ∧ (∀ a b c,
       is_dominated Journey_bool dep arr a b = Some true →
       is_dominated Journey_bool dep arr b c = Some true →
       is_dominated Journey_bool dep arr a c = Some true).
Proof.
  split.
  - intros a b [_ [?|Hab]]%is_dominated_true [_ [?|Hba]]%is_dominated_true;
      try done.
    destruct Hab as (? & ? & ? & ? & ? & ? & ? & ? & ?).
    destruct Hba as (? & ? & ? & ? & ? & ? & ? & ? & ?).
    simplify_eq. lia.
  - intros a b c [Ha [->|Hab]]%is_dominated_true Hbc; [done|].
    apply is_dominated_true in Hbc as [_ [->|Hbc]];
      apply is_dominated_true; (split; [done|]); right; [done|].
    destruct Hab as (db & ab & da & aa & ? & ? & ? & ? & ?).
    destruct Hbc as (dc & ac & db' & ab' & ? & ? & ? & ? & ?).
    simplify_eq. exists dc, ac, da, aa. repeat split; try done; lia.
Qed.

(** [is_dominated] raises exactly when the accepted journey is true as
    an object, differs from the new journey, and [dep()] or [arr()] raises
    for one of the two. *)
Lemma is_dominated_None original_journey new_journey :
  is_dominated Journey_bool dep arr original_journey new_journey = None ↔
  Journey_bool original_journey = true
  ∧ original_journey ≠ new_journey
  ∧ ¬ times_known dep arr new_journey original_journey.
Proof.
  unfold is_dominated, times_known.
  destruct (Journey_bool original_journey); simpl; [|naive_solver].
  case_decide; [naive_solver|].
  destruct (dep original_journey), (dep new_journey),
    (arr original_journey), (arr new_journey); simpl;
    (split; [intros ?|intros (_ & _ & Hn)]);
    try done; try (destruct Hn; eauto 10);
    (split; [done|]); (split; [done|]);
    intros (? & ? & ? & ?); by eapply is_Some_None.
Qed.

(** An iteration of the loop of the range query raises in the acceptance
    test exactly when its point query has returned a journey, the journey
    accepted last is true as an object and differs from it, and [dep()] or
    [arr()] raises for one of the two.  The point query itself raises
    nothing but [KeyError]. *)
Theorem acceptance_test_raises fuel from_stops to_stops destination rounds
    journeys dep_secs :
  range_step tt LARGE_NUMBER TRANSFER_TRIP set_order Journey_bool dep arr
             fuel from_stops to_stops destination rounds journeys dep_secs
    = Raises JourneyError
  ↔ destination ∈ stations tt
    ∧ ∃ journey previous,
        point_query tt LARGE_NUMBER TRANSFER_TRIP set_order fuel
          from_stops to_stops destination dep_secs rounds
        = Returns (Some journey)
        ∧ last journeys = Some previous
        ∧ Journey_bool previous = true
        ∧ previous ≠ journey
        ∧ ¬ times_known dep arr journey previous.
Proof.
  destruct (decide (destination ∈ stations tt)) as [Hdest|Hdest].
  - rewrite range_step_point_query by done.
    destruct (point_query _ _ _ _ _ _ _ _ _ _) as [[journey|]|e|] eqn:Hpoint.
    + unfold accept. destruct (last journeys) as [previous|] eqn:Hlast.
      * pose proof (is_dominated_None previous journey) as Hnone.
        destruct (is_dominated _ _ _ previous journey) as [b|]; simpl.
        -- split; [done|]. intros (_ & j & prev & ? & ? & Hrest).
           simplify_eq. by apply Hnone in Hrest.
        -- split; [|done]. intros _. split; [done|].
           exists journey, previous. split; [done|]. split; [done|].
           by apply Hnone.
      * split; [done|]. by intros (_ & j & prev & _ & ? & _).
    + split; [done|]. by intros (_ & j & prev & ? & _).
    + split; [|by intros (_ & j & prev & ? & _)].
      intros [= ->]. by apply point_query_raises in Hpoint.
    + split; [done|]. by intros (_ & j & prev & ? & _).
  - split; [|by intros [? _]].
    unfold range_step, stations_getitem.
    apply stations_get_None in Hdest. by rewrite Hdest.
Qed.

End Range.


(** ** The point query *)

(** The point query returns [None] exactly when the two stations are
    stations of the timetable and [run] returns a table that holds, for
    every stop of the destination station, a label whose arrival time is
    not below the sentinel. *)
Theorem run_raptor_none fuel origin destination dep_secs rounds :
  run_raptor tt LARGE_NUMBER TRANSFER_TRIP set_order
             fuel origin destination dep_secs rounds = Returns None
  ↔ origin ∈ stations tt ∧ destination ∈ stations tt
    ∧ ∃ bag,
        run tt LARGE_NUMBER TRANSFER_TRIP set_order
            (station_stops tt origin) destination dep_secs rounds = Some bag
        ∧ ∀ q, q ∈ station_stops tt destination →
            ∃ lq, bag !! inl q = Some lq
                  ∧ LARGE_NUMBER ≤ earliest_arrival_time lq.
Proof.
  rewrite run_raptor_point_query.
  case_decide as Hstations; [|split; [done|by intros (? & ? & _); destruct Hstations]].
  destruct Hstations as [Horigin Hdest]. unfold point_query.
  destruct (run _ _ _ _ _ _ _ _) as [bag|] eqn:Hrun;
    [|split; [done|by intros (_ & _ & ? & ? & _)]].
  pose proof (best_stop_fold_Zero (station_stops tt destination) bag) as Hzero.
  split.
  - intros Hquery. split; [done|]. split; [done|].
    exists bag. split; [done|]. apply Hzero.
    destruct (best_stop_at_target_station _ _ _) as [[|s]|]; try done.
    by destruct (reconstruct_journey fuel s bag).
  - intros (_ & _ & bag' & ? & Hall). simplify_eq.
    apply Hzero in Hall. by rewrite Hall.
Qed.

(** [run_raptor] raises [AttributeError] exactly when one of the two
    station names is no station of the timetable: [stations.get] gives
    [None] for it, whose stops are asked for.  The range query does not
    return for such a name either. *)
Theorem unknown_station_raises fuel origin destination dep_secs rounds :
  (run_raptor tt LARGE_NUMBER TRANSFER_TRIP set_order
              fuel origin destination dep_secs rounds = Raises AttributeError
   ↔ origin ∉ stations tt ∨ destination ∉ stations tt)
  ∧ (origin ∉ stations tt ∨ destination ∉ stations tt →
     ∀ Journey_bool dep arr dep_secs_min dep_secs_max journeys,
       run_range_raptor tt LARGE_NUMBER TRANSFER_TRIP set_order
         Journey_bool dep arr fuel origin destination
         dep_secs_min dep_secs_max rounds ≠ Returns journeys).
Proof.
  split.
  - rewrite run_raptor_point_query. case_decide as Hstations.
    + split; [|intros [?|?]; by destruct Hstations].
      by intros ?%point_query_raises.
    + split; [|done]. intros _.
      destruct (decide (origin ∈ stations tt)); [|by left].
      destruct (decide (destination ∈ stations tt)); [|by right].
      by destruct Hstations.
  - intros Hunknown Jb dep arr dmin dmax journeys Hrun.
    unfold run_range_raptor in Hrun.
    destruct (stations_get_stops tt origin) as [from_stops|] eqn:Hfrom;
      [|done].
    destruct (stations_get_stops tt destination) as [to_stops|] eqn:Hto;
      [|done].
    apply stations_get_stops_inv in Hfrom as [_ ?].
    apply stations_get_stops_inv in Hto as [_ ?].
    by destruct Hunknown.
Qed.

(** ** The journey of a point query *)

(** Along a backward walk in a table whose from-stops lead to labels that
    are not later, the arrival times of the legs go down, from the arrival
    time at the stop where the walk starts to the one of the label where
    it ends. *)
Lemma backward_walk_arrivals (bag : gmap (Stop + Station) (@Label Stop Trip))
    p legs :
  (∀ p l q, bag !! inl p = Some l → from_stop l = Some q →
     ∃ lq, bag !! inl q = Some lq
           ∧ earliest_arrival_time lq ≤ earliest_arrival_time l) →
  backward_walk bag p legs →
  ∀ l, bag !! inl p = Some l →
    (∀ leg, leg ∈ legs →
       leg_earliest_arrival_time leg ≤ earliest_arrival_time l)
    ∧ (∀ js1 a b js2, legs = js1 ++ a :: b :: js2 →
         leg_earliest_arrival_time b ≤ leg_earliest_arrival_time a)
    ∧ ∃ l_end,
        bag !! inl (default p (leg_from_stop <$> last legs)) = Some l_end
        ∧ from_stop l_end = None
        ∧ earliest_arrival_time l_end ≤ earliest_arrival_time l
        ∧ ∀ leg, leg ∈ legs →
            earliest_arrival_time l_end ≤ leg_earliest_arrival_time leg.
Proof.
  intros Hchain.
  induction 1 as [p l0 Hl0 Hfrom | p l0 q legs Hl0 Hfrom Hwalk IH]; intros l Hl;
    (assert (l0 = l) as -> by congruence).
  - split; [by intros leg ?%elem_of_nil|]. split; [by intros [|? ?]|].
    exists l. simpl. repeat split; try done. by intros leg ?%elem_of_nil.
  - destruct (Hchain _ _ _ Hl Hfrom) as (lq & Hlq & Hle).
    destruct (IH _ Hlq) as (Hall & Hsorted & l_end & Hend & Hnone & Hle_end & Hlow).
    split; [|split].
    + intros leg [->|Hin]%elem_of_cons; [done|].
      specialize (Hall _ Hin). lia.
    + intros [|x js1] a b js2 Heq; simpl in Heq; simplify_eq;
        [|by eapply Hsorted].
      simpl. etrans; [|exact Hle]. apply Hall. by left.
    + exists l_end. rewrite last_cons.
      split; [by destruct (last legs)|]. split; [done|]. split; [lia|].
      intros leg [->|Hin]%elem_of_cons; [simpl; lia|by apply Hlow].
Qed.

Section Journeys.
Hypothesis Hboard : boarding_sound tt.
Hypothesis Hlay : layovers_non_negative tt.

(** The from-stops of the table that [run] returns lead to labels that
    are not later. *)
Lemma run_from_stops_earlier from_stops to_station dep_secs rounds bag :
  run tt LARGE_NUMBER TRANSFER_TRIP set_order
      from_stops to_station dep_secs rounds = Some bag →
  chain_inv bag
  ∧ ∀ p l q, bag !! inl p = Some l → from_stop l = Some q →
      ∃ lq, bag !! inl q = Some lq
            ∧ earliest_arrival_time lq ≤ earliest_arrival_time l.
Proof.
  unfold run. intros Hrun.
  destruct (run_state _ _ _ _ _ _ _ _) as [st|] eqn:Hst; simpl in Hrun; [|done].
  simplify_eq.
  assert (chain_inv (bag_star st)) as Hchain.
  { unfold run_state in Hst.
    destruct (foldM _ _ _) as [[st0 marked]|] eqn:Hf; simpl in Hst; [|done].
    destruct (mark_origins_init _ _ _ _ _ _ Hf) as (Hkeys & Hfrom & Hun).
    assert (chain_inv (bag_star st0)) as Hchain0.
    { exists (λ _, 0%nat), 1%nat. split; [lia|].
      intros p l q Hl Hq. rewrite (Hfrom _ _ Hl) in Hq. done. }
    destruct (decide (dep_secs ≤ LARGE_NUMBER)) as [Hdep|Hdep].
    - rewrite seqZ_to_nat in Hst.
      eapply (run_rounds_chain_inv Hboard Hlay _ 0) in Hst; [done|done| |done].
      split; [|done]. by eapply mark_origins_round_inv.
    - eapply run_rounds_unreached in Hst as ->; [done|done|]. apply Hun. lia. }
  split; [done|].
  destruct Hchain as (rank & bound & _ & Hchain).
  intros p l q Hl Hq. destruct (Hchain _ _ _ Hl Hq) as (lq & Hlq & Hcmp).
  exists lq. split; [done|]. lia.
Qed.

(** When the stop times of the trips do not go back in time and no
    transfer has a negative layover, no label of the table that [run]
    returns holds an arrival time before the departure time of the query
    (before the sentinel, should the departure time be above it): every
    arrival time that a round writes is at least the departure time. *)
Theorem no_arrival_before_departure from_stops to_station dep_secs rounds bag :
  run tt LARGE_NUMBER TRANSFER_TRIP set_order
      from_stops to_station dep_secs rounds = Some bag →
  ∀ p l, bag !! inl p = Some l →
    Z.min dep_secs LARGE_NUMBER ≤ earliest_arrival_time l.
Proof.
  intros Hrun p l Hl.
  destruct (run_from_stops_earlier _ _ _ _ _ Hrun) as [Hinv Hchain].
  destruct (chain_inv_walk _ _ _ Hinv Hl) as [legs Hwalk].
  destruct (backward_walk_arrivals _ _ _ Hchain Hwalk _ Hl)
    as (_ & _ & l_end & Hend & Hnone & Hle & _).
  destruct (run_labels_without_from_stop _ _ _ _ _ Hrun _ _ Hend Hnone)
    as [->|[_ ->]]; simpl in Hle; lia.
Qed.

(** The journey of a point query, when the stop times of the trips do not
    go back in time and no transfer has a negative layover.  Its legs are
    connected; the first leg starts at a stop of the origin station and
    the last leg ends at a stop of the destination station (a journey
    without legs is returned when a stop of the destination station is a
    stop of the origin station); the arrival times of the legs do not go
    down along the journey and none is before the departure time; and the
    arrival time of the journey, which is below the sentinel, is the
    smallest arrival time that the table of [run] holds for a stop of the
    destination station: the table holds it for one of these stops and no
    smaller one for any of them. *)
Theorem run_raptor_journey fuel origin destination dep_secs rounds journey :
  run_raptor tt LARGE_NUMBER TRANSFER_TRIP set_order
             fuel origin destination dep_secs rounds = Returns (Some journey) →
  legs_connected journey
  ∧ match journey with
    | [] => ∃ s, s ∈ station_stops tt origin ∧ s ∈ station_stops tt destination
    | first :: _ => leg_from_stop first ∈ station_stops tt origin
    end
  ∧ match last journey with
    | Some leg => leg_to_stop leg ∈ station_stops tt destination
    | None => True
    end
  ∧ (∀ js1 a b js2, journey = js1 ++ a :: b :: js2 →
       leg_earliest_arrival_time a ≤ leg_earliest_arrival_time b)
  ∧ (∀ leg, leg ∈ journey → dep_secs ≤ leg_earliest_arrival_time leg)
  ∧ default dep_secs (leg_earliest_arrival_time <$> last journey) < LARGE_NUMBER
  ∧ ∃ bag,
      run tt LARGE_NUMBER TRANSFER_TRIP set_order
          (station_stops tt origin) destination dep_secs rounds = Some bag
      ∧ (∃ q lq, q ∈ station_stops tt destination
                 ∧ bag !! inl q = Some lq
                 ∧ earliest_arrival_time lq
                   = default dep_secs
                       (leg_earliest_arrival_time <$> last journey))
      ∧ ∀ q, q ∈ station_stops tt destination →
          ∃ lq, bag !! inl q = Some lq
                ∧ default dep_secs (leg_earliest_arrival_time <$> last journey)
                  ≤ earliest_arrival_time lq.
Proof.
  rewrite run_raptor_point_query. case_decide as Hstations; [|done].
  unfold point_query. intros Hquery.
  destruct (run _ _ _ _ _ _ _ _) as [bag|] eqn:Hrun; [|done].
  destruct (best_stop_at_target_station _ _ _) as [[|s]|] eqn:Hbest; [done| |done].
  destruct (reconstruct_journey fuel s bag) as [j| |] eqn:Hrec; [|done..].
  simplify_eq.
  unfold best_stop_at_target_station in Hbest.
  destruct (foldM _ _ _) as [res|] eqn:Hf; simpl in Hbest; [|done].
  apply best_stop_fold in Hf
    as [[-> _]|(pre & s' & post & ls & Hto & Hls & -> & Hlt & Hpre & Hpost)];
    simpl in Hbest; simplify_eq. simpl in Hlt.
  unfold reconstruct_journey, new_Journey in Hrec.
  apply reconstruct_loop_returns in Hrec as (legs & Hwalk & _ & ->).
  rewrite app_nil_r in *.
  set (arrival := default dep_secs
                    (leg_earliest_arrival_time <$> last (reverse legs))).
  destruct (backward_walk_legs _ _ _ Hwalk) as (Hlegs & Hcon & Hhead & _).
  destruct (run_from_stops_earlier _ _ _ _ _ Hrun) as [_ Hchain].
  destruct (backward_walk_arrivals _ _ _ Hchain Hwalk _ Hls)
    as (Hall & Hsorted & l_end & Hend & Hnone & Hle & Hlow).
  destruct (run_labels_without_from_stop _ _ _ _ _ Hrun _ _ Hend Hnone)
    as [->|[Horigin ->]]; [simpl in Hle; lia|]. simpl in Hlow, Hle.
  assert (arrival = earliest_arrival_time ls) as Harrival.
  { unfold arrival. rewrite last_reverse.
    destruct legs as [|leg legs]; simpl in *.
    - by simplify_eq.
    - destruct (Hlegs leg) as (l & Hl & _ & _ & ->); [by left|].
      rewrite Hhead in Hl. by simplify_eq. }
  split; [|split; [|split; [|split; [|split; [|split]]]]].
  - intros js1 a b js2 Heq. symmetry.
    apply (Hcon (reverse js2) b a (reverse js1)).
    rewrite <- (reverse_involutive legs), Heq.
    rewrite reverse_app, !reverse_cons, <- !app_assoc. done.
  - destruct (reverse legs) as [|first rest] eqn:Hrev.
    + assert (legs = []) as -> by by rewrite <- (reverse_involutive legs), Hrev.
      simpl in Horigin. exists s. split; [done|].
      rewrite Hto. set_solver.
    + assert (last legs = Some first) as Hlast'
        by by rewrite <- head_reverse, Hrev.
      by rewrite Hlast' in Horigin.
  - rewrite last_reverse. destruct (head legs) as [leg|]; [|done].
    rewrite Hhead, Hto. set_solver.
  - intros js1 a b js2 Heq.
    apply (Hsorted (reverse js2) b a (reverse js1)).
    rewrite <- (reverse_involutive legs), Heq.
    rewrite reverse_app, !reverse_cons, <- !app_assoc. done.
  - intros leg Hin. apply Hlow. by apply (proj1 (elem_of_reverse _ _)).
  - by rewrite Harrival.
  - exists bag. split; [done|]. split.
    { exists s, ls. split; [rewrite Hto; set_solver|]. by rewrite Harrival. }
    intros q Hq. rewrite Harrival.
    rewrite Hto in Hq. apply elem_of_app in Hq as [Hq|[->|Hq]%elem_of_cons].
    + destruct (Hpre q Hq) as (lq & Hlq & ?). exists lq. split; [done|lia].
    + by exists ls.
    + by apply Hpost.
Qed.


(** On a closed timetable whose stop times do not go back in time and
    whose layovers are not negative, the point query between stations
    whose stops are stops of the timetable neither raises nor runs for
    ever: with a number of rounds that is not negative it returns, and
    the same result for every amount of fuel that suffices. *)
Lemma point_query_total from_stops to_stops destination dep_secs rounds :
  timetable_closed tt → 0 ≤ rounds →
  Forall (λ p, p ∈ stops tt) from_stops →
  Forall (λ p, p ∈ stops tt) to_stops →
  ∃ res n, ∀ fuel, (n ≤ fuel)%nat →
    point_query tt LARGE_NUMBER TRANSFER_TRIP set_order fuel
                from_stops to_stops destination dep_secs rounds = Returns res.
Proof.
  intros Hclosed Hrounds Hfrom Hto. unfold point_query.
  destruct (run_state_total from_stops destination dep_secs rounds)
    as [st Hst]; [done|by left|done|].
  assert (run tt LARGE_NUMBER TRANSFER_TRIP set_order
              from_stops destination dep_secs rounds = Some (bag_star st))
    as Hrun by (unfold run; by rewrite Hst).
  rewrite Hrun.
  pose proof (run_state_dom _ _ _ _ _ Hst) as Hdom.
  assert (∀ q, q ∈ stops tt → is_Some (bag_star st !! inl q)) as Hkeys.
  { intros q Hq%elem_of_stop_keys. rewrite <- Hdom in Hq.
    by apply elem_of_dom. }
  destruct (best_stop_at_target_station LARGE_NUMBER to_stops (bag_star st))
    as [[|s]|] eqn:Hbest.
  - exists None, 0%nat. done.
  - unfold best_stop_at_target_station in Hbest.
    destruct (foldM _ _ _) as [res|] eqn:Hf; simpl in Hbest; [|done].
    apply best_stop_fold in Hf
      as [[-> _]|(pre & s' & post & ls & Hto' & Hls & -> & _)];
      simpl in Hbest; simplify_eq.
    destruct (run_from_stops_earlier _ _ _ _ _ Hrun) as [Hinv _].
    destruct (chain_inv_walk _ _ _ Hinv Hls) as [legs Hwalk].
    exists (Some (reverse legs)), (S (length legs)). intros fuel Hfuel.
    unfold reconstruct_journey, new_Journey.
    rewrite (reconstruct_loop_walk _ _ _ Hwalk) by lia.
    by rewrite app_nil_r.
  - exfalso. unfold best_stop_at_target_station in Hbest.
    destruct (foldM _ _ _) as [res|] eqn:Hf; simpl in Hbest; [done|].
    apply best_stop_fold_None in Hf as (q & Hq & Hnone).
    destruct (Hkeys q) as [? ?]; [|congruence].
    by eapply Forall_forall in Hto.
Qed.

(** On a timetable that is closed (the stops of the routes and the
    targets of the transfers are stops of the timetable, and the transfer
    index has an entry for every stop), whose stop times do not go back in
    time and whose layovers are not negative: the point query between two
    stations of the timetable whose stops are stops of the timetable, with
    a number of rounds that is not negative, neither raises nor runs for
    ever.  It returns, and the same result for every amount of fuel that
    suffices. *)
Theorem run_raptor_returns origin destination dep_secs rounds :
  timetable_closed tt → 0 ≤ rounds →
  origin ∈ stations tt → destination ∈ stations tt →
  Forall (λ p, p ∈ stops tt) (station_stops tt origin) →
  Forall (λ p, p ∈ stops tt) (station_stops tt destination) →
  ∃ res n, ∀ fuel, (n ≤ fuel)%nat →
    run_raptor tt LARGE_NUMBER TRANSFER_TRIP set_order
               fuel origin destination dep_secs rounds = Returns res.
Proof.
  intros Hclosed Hrounds Horigin Hdest Hfrom Hto.
  destruct (point_query_total (station_stops tt origin)
              (station_stops tt destination) destination dep_secs rounds)
    as (res & n & Hres); [done..|].
  exists res, n. intros fuel Hfuel.
  rewrite run_raptor_point_query, decide_True by done. by apply Hres.
Qed.

(** The loop of the range query does the same when the point queries
    do. *)
Lemma range_loop_ext Journey_bool dep arr fuel fuel' from_stops to_stops
    destination rounds dep_secs_list journeys :
  destination ∈ stations tt →
  (∀ d, d ∈ dep_secs_list →
     point_query tt LARGE_NUMBER TRANSFER_TRIP set_order fuel
                 from_stops to_stops destination d rounds
     = point_query tt LARGE_NUMBER TRANSFER_TRIP set_order fuel'
                   from_stops to_stops destination d rounds) →
  range_loop tt LARGE_NUMBER TRANSFER_TRIP set_order Journey_bool dep arr
             fuel from_stops to_stops destination rounds journeys dep_secs_list
  = range_loop tt LARGE_NUMBER TRANSFER_TRIP set_order Journey_bool dep arr
               fuel' from_stops to_stops destination rounds journeys
               dep_secs_list.
Proof.
  intros Hdest. revert journeys.
  induction dep_secs_list as [|d ds IH]; intros journeys Hext;
    cbn [range_loop]; [done|].
  rewrite !range_step_point_query, (Hext d) by (done || by left).
  destruct (point_query _ _ _ _ fuel' _ _ _ _ _) as [[journey|]| |];
    try done; [destruct (accept _ _ _ _ _); [|done]|];
    apply IH; intros d' Hd'; apply Hext; by right.
Qed.

(** Under the same conditions, and when [dep()] and [arr()] return for
    every journey that the point query returns for a departure time
    tried, the range query neither raises nor runs for ever: it returns a
    list of journeys, the same for every amount of fuel that suffices. *)
Theorem run_range_raptor_returns Journey_bool dep arr origin destination
    dep_secs_min dep_secs_max rounds :
  timetable_closed tt → 0 ≤ rounds →
  origin ∈ stations tt → destination ∈ stations tt →
  Forall (λ p, p ∈ stops tt) (station_stops tt origin) →
  Forall (λ p, p ∈ stops tt) (station_stops tt destination) →
  (∀ fuel d journey,
     d ∈ potential_dep_secs tt (station_stops tt origin)
           dep_secs_min dep_secs_max →
     run_raptor tt LARGE_NUMBER TRANSFER_TRIP set_order
                fuel origin destination d rounds = Returns (Some journey) →
     has_times dep arr journey) →
  ∃ journeys n, ∀ fuel, (n ≤ fuel)%nat →
    run_range_raptor tt LARGE_NUMBER TRANSFER_TRIP set_order
      Journey_bool dep arr fuel origin destination
      dep_secs_min dep_secs_max rounds = Returns journeys.
Proof.
  intros Hclosed Hrounds Horigin Hdest Hfrom Hto Htimes.
  unfold run_range_raptor. rewrite !stations_get_stops_Some by done.
  assert (∀ fuel d journey,
            d ∈ potential_dep_secs tt (station_stops tt origin)
                  dep_secs_min dep_secs_max →
            point_query tt LARGE_NUMBER TRANSFER_TRIP set_order fuel
              (station_stops tt origin) (station_stops tt destination)
              destination d rounds = Returns (Some journey) →
            has_times dep arr journey) as Htimes'.
  { intros fuel d journey Hd Hres. apply (Htimes fuel d); [done|].
    by rewrite run_raptor_point_query, decide_True. }
  clear Htimes. revert Htimes'.
  generalize (potential_dep_secs tt (station_stops tt origin)
                dep_secs_min dep_secs_max). intros ds Htimes.
  assert (∃ n, ∀ d, d ∈ ds →
            ∃ res, ∀ fuel, (n ≤ fuel)%nat →
              point_query tt LARGE_NUMBER TRANSFER_TRIP set_order fuel
                (station_stops tt origin) (station_stops tt destination)
                destination d rounds = Returns res) as [n Hn].
  { clear Htimes. induction ds as [|d ds [n IH]].
    - exists 0%nat. by intros d ?%elem_of_nil.
    - destruct (point_query_total (station_stops tt origin)
                  (station_stops tt destination) destination d rounds)
        as (res & nd & Hd); [done..|].
      exists (n `max` nd)%nat. intros d' [->|Hd']%elem_of_cons.
      + exists res. intros fuel Hfuel. apply Hd. lia.
      + destruct (IH d' Hd') as [res' Hres']. exists res'.
        intros fuel Hfuel. apply Hres'. lia. }
  destruct (range_loop_returns Journey_bool dep arr n
              (station_stops tt origin) (station_stops tt destination)
              destination rounds ds []) as [journeys Hjourneys];
    [done|constructor| |by eauto|].
  { intros d Hd. destruct (Hn d Hd) as [res Hres]. exists res. by apply Hres. }
  exists journeys, n. intros fuel Hfuel. rewrite <- Hjourneys.
  apply range_loop_ext; [done|]. intros d Hd. destruct (Hn d Hd) as [res Hres].
  rewrite !Hres by lia. done.
Qed.

End Journeys.


(** ** Every label has a reason *)

Lemma jstep_wstep k st st' : jstep tt TRANSFER_TRIP k st st' → wstep k st st'.
Proof.
  intros [st0 st1 p l ls Hls Hlt _ Hu | st0 v];
    [by eapply wstep_write|apply wstep_bound].
Qed.

Lemma rtc_jstep_wstep k st st' : rtc (jstep tt TRANSFER_TRIP k) st st' → rtc (wstep k) st st'.
Proof.
  induction 1 as [|st1 st2 st3 Hstep _ IH]; [done|].
  eapply rtc_l; [by apply jstep_wstep|done].
Qed.

(** The writes of round [k] leave the bags of the other rounds alone. *)
Lemma rtc_wstep_other_rounds k st st' :
  rtc (wstep k) st st' →
  ∀ j key, j ≠ k → round_label st' j key = round_label st j key.
Proof.
  induction 1 as [|st1 st2 st3 Hstep _ IH]; [done|].
  intros j key Hj. rewrite IH by done.
  destruct Hstep as [st0 st1 p v trp frm ls Hls Hlt Hu | st0 v]; [|done].
  apply update_both_lookup in Hu as (lk & ls' & _ & _ & _ & Hround & _).
  rewrite Hround, decide_False; [done|]. naive_solver.
Qed.

(** In a state with the invariant of round [k], the writes of round [k]
    do not raise the arrival times of the labels of round [k]. *)
Lemma rtc_wstep_round_le k st st' :
  1 ≤ k → rtc (wstep k) st st' → round_inv LARGE_NUMBER k st →
  ∀ key l, round_label st k key = Some l →
    ∃ l', round_label st' k key = Some l'
          ∧ earliest_arrival_time l' ≤ earliest_arrival_time l.
Proof.
  intros Hk. induction 1 as [st|st1 st2 st3 Hstep _ IH]; intros Hinv key l Hl.
  - exists l. split; [done|lia].
  - assert (∃ l2, round_label st2 k key = Some l2
                  ∧ earliest_arrival_time l2 ≤ earliest_arrival_time l)
      as (l2 & Hl2 & Hle).
    { destruct Hinv as (HJ & _).
      destruct Hstep as [st0 st1 p v trp frm ls Hls Hlt Hu | st0 v];
        [|exists l; split; [done|lia]].
      apply update_both_lookup in Hu as (lk & ls' & Hlk & Hls' & _ & Hround & _).
      simplify_eq. rewrite Hround. case_decide as Hkey.
      - destruct Hkey as [_ ->]. simplify_eq. eexists. split; [done|]. simpl.
        specialize (HJ _ _ _ _ Hlk Hls). lia.
      - exists l. split; [done|lia]. }
    destruct (IH (wstep_round_inv _ _ _ Hk Hstep Hinv) _ _ Hl2)
      as (l' & Hl' & Hle').
    exists l'. split; [done|lia].
Qed.

Lemma boarded_at_later k r st st' scanned ct bs c :
  rtc (wstep k) st st' →
  boarded_at tt k r st scanned ct bs →
  boarded_at tt k r st' (scanned ++ [c]) ct bs.
Proof.
  intros Hrtc Hb t Ht.
  destruct (Hb t Ht) as (b & lb & tst & pre & mid & -> & -> & Hlb & Htst & <-).
  exists b, lb, tst, pre, (mid ++ [c]).
  split; [done|]. split; [by rewrite <- app_assoc|].
  split; [|done].
  rewrite (rtc_wstep_other_rounds _ _ _ Hrtc) by lia. done.
Qed.

Lemma improve_by_trip_jstep k r st ns ct bs c scanned post st' ns' :
  route_stops tt r = scanned ++ c :: post →
  boarded_at tt k r st scanned ct bs →
  improve_by_trip tt k st ns ct bs c = Some (st', ns') →
  rtc (jstep tt TRANSFER_TRIP k) st st'.
Proof.
  intros Hroute Hb
    [[-> ->]|(t & ls & st1 & -> & Hs & Hlt & _ & Hu & Hst & _)]
    %improve_by_trip_inv; [done|].
  destruct (Hb t eq_refl) as (b & lb & tst & pre & mid & -> & -> & Hlb & Htst & Ht).
  eapply rtc_l.
  - apply (jstep_write tt TRANSFER_TRIP k st st1 c
             (mkLabel (dts_arr (get_stop tt t c)) (ByTrip t) (Some b)) ls);
      [done|done| |done].
    left. exists r, t, b, lb, tst, pre, mid, post.
    split; [done|]. split; [by rewrite Hroute, <- app_assoc|done].
  - destruct Hst as [->|[_ ->]]; [done|]. apply rtc_once, jstep_bound.
Qed.

Lemma scan_stop_jstep k r scanned c post sc sc' :
  route_stops tt r = scanned ++ c :: post →
  boarded_at tt k r (sc_state sc) scanned
             (sc_current_trip sc) (sc_boarding_stop sc) →
  scan_stop tt k r sc c = Some sc' →
  rtc (jstep tt TRANSFER_TRIP k) (sc_state sc) (sc_state sc')
  ∧ boarded_at tt k r (sc_state sc') (scanned ++ [c])
               (sc_current_trip sc') (sc_boarding_stop sc').
Proof.
  intros Hroute Hb Hs. unfold scan_stop in Hs.
  destruct (improve_by_trip _ _ _ _ _ _ _) as [[st1 ns1]|] eqn:Hi;
    simpl in Hs; [|done].
  destruct (catch_trip _ _ _ _ _ _ _) as [[ct1 bs1]|] eqn:Hc; simpl in Hs;
    [|done].
  simplify_eq. simpl.
  pose proof (improve_by_trip_jstep _ _ _ _ _ _ _ _ _ _ _ Hroute Hb Hi) as Hrtc.
  split; [done|].
  apply catch_trip_inv in Hc
    as (bp & lp & Hbp & Hlp & [[-> ->]|(tst & Htst & -> & ->)]).
  - eapply boarded_at_later; [|done]. by apply rtc_jstep_wstep.
  - intros t ?. simplify_eq. exists c, lp, tst, scanned, [].
    repeat split; try done. unfold round_label. by rewrite Hbp.
Qed.

Lemma scan_stops_jstep k r rest :
  ∀ scanned sc sc',
    route_stops tt r = scanned ++ rest →
    boarded_at tt k r (sc_state sc) scanned
               (sc_current_trip sc) (sc_boarding_stop sc) →
    foldM (scan_stop tt k r) sc rest = Some sc' →
    rtc (jstep tt TRANSFER_TRIP k) (sc_state sc) (sc_state sc').
Proof.
  induction rest as [|c rest IH]; intros scanned sc sc' Hroute Hb Hf;
    cbn [foldM] in Hf; [by simplify_eq|].
  destruct (scan_stop tt k r sc c) as [sc1|] eqn:Hs;
    cbn [mbind option_bind] in Hf; [|done].
  destruct (scan_stop_jstep _ _ _ _ _ _ _ Hroute Hb Hs) as [Hrtc Hb1].
  etrans; [done|]. eapply (IH (scanned ++ [c])); [|done..].
  by rewrite <- app_assoc.
Qed.

Lemma scan_route_jstep k (acc acc' : StateT * list Stop) rp :
  scan_route tt k acc rp = Some acc' →
  rtc (jstep tt TRANSFER_TRIP k) acc.1 acc'.1.
Proof.
  unfold scan_route. destruct rp as [r m]. intros Hs.
  destruct (foldM _ _ _) as [sc|] eqn:Hf; simpl in Hs; [|done]. simplify_eq.
  simpl.
  eapply (scan_stops_jstep k r _ (take (stop_index tt r m) (route_stops tt r)))
    in Hf; [done|by rewrite take_drop|].
  by intros t ?.
Qed.

Lemma traverse_routes_jstep st k q st' ns :
  traverse_routes tt st k q = Some (st', ns) →
  rtc (jstep tt TRANSFER_TRIP k) st st'.
Proof.
  unfold traverse_routes.
  apply (foldM_inv (λ acc : StateT * list Stop,
           rtc (jstep tt TRANSFER_TRIP k) st acc.1) _ _ _ (st', ns)); [|done].
  intros acc1 rp acc2 _ Hrtc Hsc. etrans; [done|]. by eapply scan_route_jstep.
Qed.

Lemma relax_transfer_jstep k c ts (acc acc' : StateT * list Stop) trs tr lc :
  from_stop_idx tt c = Some trs → tr ∈ trs →
  round_label acc.1 k (inl c) = Some lc → earliest_arrival_time lc ≤ ts →
  relax_transfer TRANSFER_TRIP k c ts acc tr = Some acc' →
  rtc (jstep tt TRANSFER_TRIP k) acc.1 acc'.1.
Proof.
  intros Htrs Htr Hlc Hle
    [->|(cost & ls & st1 & Hcost & Hs & Hlt & Hu & ->)]%relax_transfer_inv;
    [done|].
  simpl. apply rtc_once.
  apply (jstep_write tt TRANSFER_TRIP k acc.1 st1 (to_stop tr)
           (mkLabel (ts + cost) TRANSFER_TRIP (Some c)) ls);
    [done|done| |done].
  right. exists c, trs, tr, cost, ts, lc. done.
Qed.

Lemma relax_stop_jstep k (acc acc' : StateT * list Stop) c :
  1 ≤ k → round_inv LARGE_NUMBER k acc.1 →
  relax_stop tt TRANSFER_TRIP k acc c = Some acc' →
  rtc (jstep tt TRANSFER_TRIP k) acc.1 acc'.1.
Proof.
  intros Hk Hinv. unfold relax_stop. intros Hr.
  destruct (bag_round_stop acc.1 !! k) as [bk|] eqn:Hbk; simpl in Hr; [|done].
  destruct (bk !! inl c) as [lc|] eqn:Hlc; simpl in Hr; [|done].
  destruct (from_stop_idx tt c) as [trs|] eqn:Htrs; simpl in Hr; [|done].
  assert (round_label acc.1 k (inl c) = Some lc) as Hround.
  { unfold round_label. by rewrite Hbk. }
  revert Hr.
  apply (foldM_inv (λ a : StateT * list Stop,
           rtc (jstep tt TRANSFER_TRIP k) acc.1 a.1)); [|done].
  intros a1 tr a2 Htr Hrtc Ha. etrans; [done|].
  destruct (rtc_wstep_round_le _ _ _ Hk (rtc_jstep_wstep _ _ _ Hrtc) Hinv
              _ _ Hround) as (lc' & Hlc' & Hle).
  by eapply relax_transfer_jstep.
Qed.

Lemma add_transfer_time_jstep st k marked st' ns :
  1 ≤ k → round_inv LARGE_NUMBER k st →
  add_transfer_time tt TRANSFER_TRIP st k marked = Some (st', ns) →
  rtc (jstep tt TRANSFER_TRIP k) st st'.
Proof.
  intros Hk Hinv. unfold add_transfer_time.
  apply (foldM_inv (λ acc : StateT * list Stop,
           rtc (jstep tt TRANSFER_TRIP k) st acc.1) _ _ _ (st', ns)); [|done].
  intros a1 c a2 _ Hrtc Ha. etrans; [done|].
  eapply relax_stop_jstep; [done| |done].
  eapply rtc_wstep_round_inv; [done| |done]. by apply rtc_jstep_wstep.
Qed.

Lemma round_jstep k st marked st' marked' :
  1 ≤ k → round_inv LARGE_NUMBER k st →
  round tt TRANSFER_TRIP set_order k st marked = Some (st', marked') →
  rtc (jstep tt TRANSFER_TRIP k) st st'.
Proof.
  intros Hk Hinv. unfold round. intros Hr.
  destruct (traverse_routes _ _ _ _) as [[st1 ns1]|] eqn:Ht; simpl in Hr; [|done].
  destruct (add_transfer_time _ _ _ _ _) as [[st2 ns2]|] eqn:Ha;
    simpl in Hr; [|done].
  simplify_eq.
  pose proof (traverse_routes_jstep _ _ _ _ _ Ht) as Hrtc.
  etrans; [done|]. eapply add_transfer_time_jstep; [done| |done].
  eapply rtc_wstep_round_inv; [done| |done]. by apply rtc_jstep_wstep.
Qed.

(** A write with a reason keeps the reasons of all labels. *)
Lemma jstep_justified from_stops dep_secs k st st' :
  1 ≤ k → round_inv LARGE_NUMBER k st →
  jstep tt TRANSFER_TRIP k st st' →
  justified tt LARGE_NUMBER TRANSFER_TRIP from_stops dep_secs k st →
  justified tt LARGE_NUMBER TRANSFER_TRIP from_stops dep_secs k st'.
Proof.
  intros Hk Hinv Hstep. revert Hinv.
  destruct Hstep as [st0 st1 p l ls Hls Hlt Hwhy Hu | st0 v];
    intros (HJ & _) Hjust; [|done].
  apply update_both_lookup in Hu as (lk & ls' & Hlk & Hls' & Hstar & Hround & _).
  simplify_eq.
  assert (earliest_arrival_time l < earliest_arrival_time lk) as Hlt'
    by (specialize (HJ _ _ _ _ Hlk Hls); lia).
  (* a reason that held before the write holds after it *)
  assert (∀ j q l0, 1 ≤ j ≤ k →
            by_trip tt st0 j q l0 ∨ by_transfer tt TRANSFER_TRIP st0 j q l0 →
            by_trip tt st1 j q l0 ∨ by_transfer tt TRANSFER_TRIP st1 j q l0)
    as Hkeep.
  { intros j q l0 Hj [Htrip|Htransfer]; [left|right].
    - destruct Htrip as (r & t & b & lb & tst & pre & mid & post
                         & -> & Hroute & Hlb & Htst & Ht).
      exists r, t, b, lb, tst, pre, mid, post. repeat split; try done.
      rewrite Hround, decide_False; [done|]. intros [? _]. lia.
    - destruct Htransfer as (c & trs & tr & cost & ts & lc
                             & -> & Htrs & Htr & Hto & Hcost & Hlc & Hle).
      destruct (decide (j = k ∧ (inl c : Stop + Station) = inl p))
        as [[-> ?]|Hne]; simplify_eq.
      + exists p, trs, tr, cost, ts,
          (update lk (Some (earliest_arrival_time l)) (trip l) (from_stop l)).
        repeat split; try done.
        * by rewrite Hround, decide_True.
        * simpl. lia.
      + exists c, trs, tr, cost, ts, lc. repeat split; try done.
        by rewrite Hround, decide_False. }
  intros q l0. rewrite Hstar. case_decide as Hq.
  - intros ?. simplify_eq. right. right. exists k. split; [lia|].
    assert (update ls (Some (earliest_arrival_time l)) (trip l) (from_stop l) = l)
      as ->.
    { destruct Hwhy as [(? & ? & ? & ? & ? & ? & ? & ? & -> & _)
                       |(? & ? & ? & ? & ? & ? & -> & _)]; done. }
    apply Hkeep; [lia|done].
  - intros Hl0. destruct (Hjust _ _ Hl0) as [?|[?|(j & Hj & Hwhy0)]]; auto.
    right. right. exists j. split; [done|]. by apply Hkeep.
Qed.

Lemma rtc_jstep_justified from_stops dep_secs k st st' :
  1 ≤ k → rtc (jstep tt TRANSFER_TRIP k) st st' →
  round_inv LARGE_NUMBER k st →
  justified tt LARGE_NUMBER TRANSFER_TRIP from_stops dep_secs k st →
  justified tt LARGE_NUMBER TRANSFER_TRIP from_stops dep_secs k st'.
Proof.
  intros Hk. induction 1 as [|st1 st2 st3 Hstep _ IH]; [done|].
  intros Hinv Hjust. apply IH.
  - eapply wstep_round_inv; [done| |done]. by apply jstep_wstep.
  - by eapply jstep_justified.
Qed.

Lemma justified_weaken from_stops dep_secs k k' st :
  k ≤ k' →
  justified tt LARGE_NUMBER TRANSFER_TRIP from_stops dep_secs k st →
  justified tt LARGE_NUMBER TRANSFER_TRIP from_stops dep_secs k' st.
Proof.
  intros Hk Hjust p l Hl.
  destruct (Hjust p l Hl) as [?|[?|(j & Hj & Hwhy)]]; auto.
  right. right. exists j. split; [lia|done].
Qed.

Lemma run_rounds_justified from_stops dep_secs (n : nat) k st marked st' :
  0 ≤ k →
  run_rounds tt TRANSFER_TRIP set_order (seqZ (k + 1) (Z.of_nat n)) st marked
    = Some st' →
  round_inv LARGE_NUMBER k st →
  justified tt LARGE_NUMBER TRANSFER_TRIP from_stops dep_secs k st →
  justified tt LARGE_NUMBER TRANSFER_TRIP from_stops dep_secs
            (k + Z.of_nat n) st'.
Proof.
  revert k st marked. induction n as [|n IH]; intros k st marked Hk Hr Hinv Hjust.
  - simpl in Hr. simplify_eq. eapply justified_weaken; [|done]. lia.
  - rewrite seqZ_cons in Hr by lia. simpl in Hr.
    case_bool_decide; [|simplify_eq; eapply justified_weaken; [|done]; lia].
    destruct (round _ _ _ _ _ _) as [[st1 marked1]|] eqn:Hround;
      simpl in Hr; [|done].
    replace (Z.pred (Z.of_nat (S n))) with (Z.of_nat n) in Hr by lia.
    replace (Z.succ (k + 1)) with ((k + 1) + 1) in Hr by lia.
    assert (round_inv LARGE_NUMBER (k + 1) st) as Hinv1
      by (eapply round_inv_weaken; [|done]; lia).
    assert (1 ≤ k + 1) as Hk1 by lia.
    pose proof (round_jstep _ _ _ _ _ Hk1 Hinv1 Hround) as Hrtc.
    apply IH in Hr; [|lia| |].
    + eapply justified_weaken; [|done]. lia.
    + eapply rtc_wstep_round_inv; [done| |done]. by apply rtc_jstep_wstep.
    + eapply rtc_jstep_justified; [done..|].
      eapply justified_weaken; [|done]. lia.
Qed.

(** After a run whose departure time does not exceed the sentinel, every
    label of [bag_star] has a reason in the timetable.  It is as [Label()]
    made it; or it is the label of an origin stop, with the departure
    time; or it was written by the route traversal of a round [k]: it
    holds a trip, the arrival time of that trip at the stop, and the stop
    where the trip was boarded, which comes before the stop in a route and
    where [earliest_trip_stop_time] gave the trip for the arrival time
    of round [k - 1]; or it was written by the transfer phase of a round
    [k]: it holds the marker of transfers, the stop where a transfer to
    the stop starts, and an arrival time that is the layover of that
    transfer added to a time not before the arrival time of round [k] at
    its start. *)
Theorem labels_have_reasons from_stops to_station dep_secs rounds st :
  dep_secs ≤ LARGE_NUMBER →
  run_state tt LARGE_NUMBER TRANSFER_TRIP set_order
            from_stops to_station dep_secs rounds = Some st →
  ∀ p l, bag_star st !! inl p = Some l →
    l = new_Label LARGE_NUMBER
    ∨ (p ∈ from_stops ∧ l = mkLabel dep_secs NoTrip None)
    ∨ ∃ k, 1 ≤ k ≤ rounds
           ∧ (by_trip tt st k p l ∨ by_transfer tt TRANSFER_TRIP st k p l).
Proof.
  intros Hdep Hr. unfold run_state in Hr.
  destruct (foldM _ _ _) as [[st0 marked]|] eqn:Hf; simpl in Hr; [|done].
  assert (justified tt LARGE_NUMBER TRANSFER_TRIP from_stops dep_secs 0 st0)
    as Hjust0.
  { intros p l Hl. pose proof Hf as [_ Hstar]%mark_origins_star.
    rewrite Hstar in Hl. cbn [fst] in Hl. simpl in Hl.
    rewrite lookup_add_stop_labels in Hl.
    destruct (decide (p ∈ from_stops)) as [Hin|Hin].
    - rewrite decide_True in Hl by by apply list_elem_of_fmap_2.
      case_decide; simpl in Hl; [|done]. simplify_eq. right. left. done.
    - rewrite decide_False in Hl.
      + case_decide; [|done]. simplify_eq. by left.
      + intros (q & ? & ?)%list_elem_of_fmap. by simplify_eq. }
  rewrite seqZ_to_nat in Hr.
  apply (run_rounds_justified from_stops dep_secs _ 0) in Hr;
    [|done|by eapply mark_origins_round_inv|done].
  intros p l Hl. destruct (Hr p l Hl) as [?|[?|(k & Hk & Hwhy)]]; auto.
  right. right. exists k. split; [lia|done].
Qed.


(** ** More rounds never make an arrival time worse *)

(** A loop whose body commutes with a map of the state commutes with
    it. *)
Lemma foldM_commute {A B : Type} (g : B → B) (f : B → A → option B)
    (xs : list A) (b : B) :
  (∀ b1 x, x ∈ xs → f (g b1) x = g <$> f b1 x) →
  foldM f (g b) xs = g <$> foldM f b xs.
Proof.
  revert b. induction xs as [|x xs IH]; intros b Hf; cbn [foldM]; [done|].
  rewrite Hf by by left.
  destruct (f b x) as [b1|]; simpl; [|done].
  apply IH. intros b2 y Hy. apply Hf. by right.
Qed.

(** The phases of round [k] neither read nor write the bag of a round
    other than [k] and [k - 1]: they do the same in a state that has one
    more bag. *)
Lemma update_both_with_round j bag st k p v trp frm :
  k ≠ j →
  update_both (with_round j bag st) k p v trp frm
  = with_round j bag <$> update_both st k p v trp frm.
Proof.
  intros Hk. unfold update_both, update_round, update_star, with_round. simpl.
  rewrite lookup_insert_ne by done.
  destruct (bag_round_stop st !! k) as [bk|]; simpl; [|done].
  destruct (bk !! inl p) as [lk|]; simpl; [|done].
  destruct (bag_star st !! inl p) as [ls|]; simpl; [|done].
  by rewrite insert_insert_ne.
Qed.

Lemma improve_by_trip_with_round j bag k st ns ct bs c :
  k ≠ j →
  improve_by_trip tt k (with_round j bag st) ns ct bs c
  = acc_with_round j bag <$> improve_by_trip tt k st ns ct bs c.
Proof.
  intros Hk. unfold improve_by_trip. destruct ct as [t|]; [|done].
  cbn [with_round bag_star earliest_arrival_at_destination].
  destruct (bag_star st !! inl c) as [best|]; simpl; [|done].
  destruct (_ && _); [|done].
  rewrite update_both_with_round by done.
  destruct (update_both st k c _ _ _) as [st1|]; simpl; [|done].
  by case_decide.
Qed.

Lemma catch_trip_with_round j bag k r st ct bs c :
  k - 1 ≠ j →
  catch_trip tt k r (with_round j bag st) ct bs c = catch_trip tt k r st ct bs c.
Proof.
  intros Hk. unfold catch_trip, with_round. simpl.
  by rewrite lookup_insert_ne.
Qed.

Lemma scan_stop_with_round j bag k r sc c :
  k ≠ j → k - 1 ≠ j →
  scan_stop tt k r (scan_with_round j bag sc) c
  = scan_with_round j bag <$> scan_stop tt k r sc c.
Proof.
  intros Hk Hk1. unfold scan_stop. cbn [scan_with_round sc_state sc_new_stops
    sc_current_trip sc_boarding_stop].
  rewrite improve_by_trip_with_round by done.
  destruct (improve_by_trip _ _ _ _ _ _ _) as [[st1 ns1]|]; simpl; [|done].
  rewrite catch_trip_with_round by done.
  by destruct (catch_trip _ _ _ _ _ _ _) as [[ct1 bs1]|].
Qed.

Lemma scan_route_with_round j bag k (acc : StateT * list Stop) rp :
  k ≠ j → k - 1 ≠ j →
  scan_route tt k (acc_with_round j bag acc) rp
  = acc_with_round j bag <$> scan_route tt k acc rp.
Proof.
  intros Hk Hk1. unfold scan_route. destruct rp as [r m].
  change {| sc_state := (acc_with_round j bag acc).1;
            sc_new_stops := (acc_with_round j bag acc).2;
            sc_current_trip := None; sc_boarding_stop := None |}
    with (scan_with_round j bag
            {| sc_state := acc.1; sc_new_stops := acc.2;
               sc_current_trip := None; sc_boarding_stop := None |}).
  rewrite (foldM_commute (scan_with_round j bag)).
  - by destruct (foldM _ _ _).
  - intros sc c _. by apply scan_stop_with_round.
Qed.

Lemma traverse_routes_with_round j bag st k q :
  k ≠ j → k - 1 ≠ j →
  traverse_routes tt (with_round j bag st) k q
  = acc_with_round j bag <$> traverse_routes tt st k q.
Proof.
  intros Hk Hk1. unfold traverse_routes.
  apply (foldM_commute (acc_with_round j bag) _ _ (st, [])).
  intros acc rp _. by apply scan_route_with_round.
Qed.

Lemma relax_transfer_with_round j bag k c ts (acc : StateT * list Stop) tr :
  k ≠ j →
  relax_transfer TRANSFER_TRIP k c ts (acc_with_round j bag acc) tr
  = acc_with_round j bag <$> relax_transfer TRANSFER_TRIP k c ts acc tr.
Proof.
  intros Hk. unfold relax_transfer.
  destruct (layovertime tr) as [cost|]; [|done].
  cbn [acc_with_round fst snd with_round bag_star].
  destruct (bag_star acc.1 !! inl (to_stop tr)) as [prev|]; simpl; [|done].
  case_match; [|done].
  change {| bag_round_stop := <[j:=bag]> (bag_round_stop acc.1);
            bag_star := bag_star acc.1;
            destination_stops := destination_stops acc.1;
            earliest_arrival_at_destination :=
              earliest_arrival_at_destination acc.1 |}
    with (with_round j bag acc.1).
  rewrite update_both_with_round by done.
  by destruct (update_both acc.1 k _ _ _ _).
Qed.

Lemma relax_stop_with_round j bag k (acc : StateT * list Stop) c :
  k ≠ j →
  relax_stop tt TRANSFER_TRIP k (acc_with_round j bag acc) c
  = acc_with_round j bag <$> relax_stop tt TRANSFER_TRIP k acc c.
Proof.
  intros Hk. unfold relax_stop.
  cbn [acc_with_round fst with_round bag_round_stop].
  rewrite lookup_insert_ne by done.
  destruct (bag_round_stop acc.1 !! k) as [bk|]; simpl; [|done].
  destruct (bk !! inl c) as [lc|]; simpl; [|done].
  destruct (from_stop_idx tt c) as [trs|]; simpl; [|done].
  apply (foldM_commute (acc_with_round j bag)).
  intros a tr _. by apply relax_transfer_with_round.
Qed.

Lemma add_transfer_time_with_round j bag st k marked :
  k ≠ j →
  add_transfer_time tt TRANSFER_TRIP (with_round j bag st) k marked
  = acc_with_round j bag <$> add_transfer_time tt TRANSFER_TRIP st k marked.
Proof.
  intros Hk. unfold add_transfer_time.
  apply (foldM_commute (acc_with_round j bag) _ _ (st, [])).
  intros a c _. by apply relax_stop_with_round.
Qed.

Lemma round_with_round j bag k st marked :
  k ≠ j → k - 1 ≠ j →
  round tt TRANSFER_TRIP set_order k (with_round j bag st) marked
  = acc_with_round j bag <$> round tt TRANSFER_TRIP set_order k st marked.
Proof.
  intros Hk Hk1. unfold round.
  rewrite traverse_routes_with_round by done.
  destruct (traverse_routes tt st k _) as [[st1 ns1]|]; simpl; [|done].
  rewrite add_transfer_time_with_round by done.
  by destruct (add_transfer_time _ _ st1 k ns1) as [[st2 ns2]|].
Qed.

Lemma mark_origins_with_round j bag dep_secs from_stops
    (acc : StateT * list Stop) :
  0 ≠ j →
  foldM (mark_origin dep_secs) (acc_with_round j bag acc) from_stops
  = acc_with_round j bag <$> foldM (mark_origin dep_secs) acc from_stops.
Proof.
  intros Hj. apply foldM_commute. intros a o _. unfold mark_origin.
  cbn [acc_with_round fst snd].
  rewrite update_both_with_round by done.
  by destruct (update_both a.1 0 o dep_secs NoTrip None).
Qed.

(** [run] with one more round starts from the same tables and one more
    bag. *)
Lemma init_state_succ to_station rounds :
  0 ≤ rounds + 1 →
  init_state tt LARGE_NUMBER to_station (rounds + 1)
  = with_round (rounds + 1)
      (add_station_labels tt LARGE_NUMBER (add_stop_labels tt LARGE_NUMBER ∅))
      (init_state tt LARGE_NUMBER to_station rounds).
Proof.
  intros Hrounds. unfold init_state, with_round. simpl. f_equal.
  unfold init_bag_round_stop.
  rewrite (seqZ_app 0 (rounds + 1) 1) by lia.
  rewrite foldl_app. done.
Qed.

Lemma star_le_with_round j bag st : star_le (with_round j bag st) st.
Proof. intros key l Hl. exists l. split; [done|by left]. Qed.

(** The loop over the rounds with one more round at the end, from a
    state with one more bag: it does what the shorter loop does, and then
    one more round, which never raises an arrival time of [bag_star]. *)
Lemma run_rounds_one_more j bag ks st marked st' :
  Forall (λ k, k ≠ j ∧ k - 1 ≠ j) ks →
  run_rounds tt TRANSFER_TRIP set_order (ks ++ [j]) (with_round j bag st) marked
    = Some st' →
  ∃ st1, run_rounds tt TRANSFER_TRIP set_order ks st marked = Some st1
         ∧ star_le st' st1.
Proof.
  revert st marked. induction ks as [|k ks IH]; intros st marked Hks Hr.
  - simpl in Hr. exists st. split; [done|].
    case_bool_decide; [|simplify_eq; apply star_le_with_round].
    destruct (round _ _ _ _ _ _) as [[st1 marked1]|] eqn:Hround;
      simpl in Hr; [|done].
    simplify_eq. apply round_trace, rtc_wstep_star_le in Hround.
    eapply star_le_trans; [done|apply star_le_with_round].
  - apply Forall_cons in Hks as [[Hk Hk1] Hks].
    rewrite <- app_comm_cons in Hr. cbn [run_rounds] in *.
    case_bool_decide;
      [|simplify_eq; exists st; split; [done|apply star_le_with_round]].
    rewrite round_with_round in Hr by done.
    destruct (round tt TRANSFER_TRIP set_order k st marked)
      as [[st1 marked1]|]; simpl in Hr; [|done].
    by apply IH.
Qed.

Lemma run_state_one_more from_stops to_station dep_secs rounds st' :
  0 ≤ rounds →
  run_state tt LARGE_NUMBER TRANSFER_TRIP set_order
            from_stops to_station dep_secs (rounds + 1) = Some st' →
  ∃ st, run_state tt LARGE_NUMBER TRANSFER_TRIP set_order
                  from_stops to_station dep_secs rounds = Some st
        ∧ star_le st' st.
Proof.
  intros Hrounds. unfold run_state.
  rewrite init_state_succ by lia.
  change (with_round (rounds + 1) ?bag ?st, []) with
    (acc_with_round (Stop:=Stop) (rounds + 1) bag (st, [])).
  rewrite mark_origins_with_round by lia.
  destruct (foldM _ _ _) as [[st0 marked]|]; simpl; [|done].
  rewrite (seqZ_app 1 rounds 1) by lia. intros Hr.
  replace (seqZ (1 + rounds) 1) with [rounds + 1] in Hr
    by (by replace (1 + rounds) with (rounds + 1) by lia).
  apply run_rounds_one_more in Hr; [done|].
  apply Forall_forall. intros k Hk%elem_of_seqZ. lia.
Qed.

(** A run with more rounds does not raise where the run with fewer
    rounds returns a worse table: when [run] returns with [rounds + more]
    rounds, it returns with [rounds] rounds as well, and every label of
    the table of the longer run is the label of the shorter run or has a
    strictly smaller arrival time. *)
Theorem more_rounds_never_hurt from_stops to_station dep_secs rounds more st' :
  0 ≤ rounds → 0 ≤ more →
  run_state tt LARGE_NUMBER TRANSFER_TRIP set_order
            from_stops to_station dep_secs (rounds + more) = Some st' →
  ∃ st, run_state tt LARGE_NUMBER TRANSFER_TRIP set_order
                  from_stops to_station dep_secs rounds = Some st
        ∧ star_le st' st.
Proof.
  intros Hrounds Hmore.
  replace more with (Z.of_nat (Z.to_nat more)) by lia.
  generalize (Z.to_nat more). clear Hmore more. intros n. revert st'.
  induction n as [|n IH]; intros st' Hr.
  - rewrite Z.add_0_r in Hr. exists st'. split; [done|apply star_le_refl].
  - replace (rounds + Z.of_nat (S n)) with ((rounds + Z.of_nat n) + 1) in Hr
      by lia.
    apply run_state_one_more in Hr as (st1 & Hst1 & Hle1); [|lia].
    destruct (IH _ Hst1) as (st & Hst & Hle).
    exists st. split; [done|]. by eapply star_le_trans.
Qed.

End Facts.

(** ** The claims on the fixture *)

(** C1, witness: the run of the fixture with two rounds. *)
Lemma round_label_fresh_or_improved_witness :
  100 ≤ Fixture.LARGE
  ∧ ∃ st, Fixture.query_state 2 = Some st
    ∧ ∀ k p lk lp ls,
        1 ≤ k →
        round_label st k (inl p) = Some lk →
        round_label st (k - 1) (inl p) = Some lp →
        bag_star st !! inl p = Some ls →
        earliest_arrival_time ls ≤ earliest_arrival_time lk
        ∧ ((lk = new_Label Fixture.LARGE
            ∧ earliest_arrival_time lp ≤ earliest_arrival_time lk)
           ∨ earliest_arrival_time lk < earliest_arrival_time lp).
Proof.
  assert (100 ≤ Fixture.LARGE) as Hdep by by vm_compute.
  split; [exact Hdep|].
  assert (is_Some (Fixture.query_state 2)) as [st Hst]
    by (vm_compute; eexists; reflexivity).
  exists st. split; [exact Hst|].
  exact (proj1 (round_label_fresh_or_improved Fixture.timetable3 Fixture.LARGE
                  Marker Fixture.first_seen ["A"%string] "F"%string 100 2 st
                  Hdep Hst)).
Defined.

(** C1 as stated fails: with one round, stop A has arrival time 100 in
    round 0 and the sentinel in round 1, which is larger. *)
Lemma round_label_regresses :
  ∃ st l0 l1,
    Fixture.query_state 1 = Some st
    ∧ round_label st 0 (inl "A"%string) = Some l0
    ∧ round_label st 1 (inl "A"%string) = Some l1
    ∧ earliest_arrival_time l0 = 100
    ∧ earliest_arrival_time l1 = Fixture.LARGE
    ∧ earliest_arrival_time l0 < earliest_arrival_time l1.
Proof.
  eexists _, _, _.
  split; [vm_compute; reflexivity|].
  split; [vm_compute; reflexivity|].
  split; [vm_compute; reflexivity|].
  by vm_compute.
Qed.

(** ** The modelled timetables *)

(** A timetable built from data is closed when the stops of its routes and
    the targets of its transfers are among its stops. *)
Lemma built_timetable_closed (d : Structures.Data) :
  Forall (λ r : Structures.Route,
            Forall (λ p, p ∈ Structures.data_stop_ids d) r)
         (Structures.routes d) →
  Forall (λ tr : @Transfer Structures.Stop,
            to_stop tr ∈ Structures.data_stop_ids d)
         (Structures.data_transfers d) →
  timetable_closed (Structures.timetable d).
Proof.
  intros Hroutes Htransfers. split; simpl.
  - intros m r p [_ Hr]%list_elem_of_filter Hp.
    eapply Forall_forall in Hroutes; [|done].
    by eapply Forall_forall in Hroutes.
  - intros c Hc. rewrite decide_True by done. eexists. split; [done|].
    intros tr [_ Htr]%list_elem_of_filter.
    by eapply Forall_forall in Htransfers.
Qed.

Section Built.
Variable d : Structures.Data.

Lemma first_departure_elem (cands : list Structures.StopTime) tst :
  Structures.first_departure cands = Some tst → tst ∈ cands.
Proof.
  revert tst. induction cands as [|x cands IH]; intros tst; simpl; [done|].
  destruct (Structures.first_departure cands) as [y|].
  - case_match; intros ?; simplify_eq; [right; by apply IH|by left].
  - intros ?; simplify_eq. by left.
Qed.

(** With distinct trip numbers, a trip is found with its own stop times. *)
Lemma trip_stop_times_lookup t sts :
  NoDup (Structures.data_trip_ids d) → (t, sts) ∈ Structures.data_trips d →
  Structures.trip_stop_times d t = sts.
Proof.
  unfold Structures.trip_stop_times, Structures.data_trip_ids.
  induction (Structures.data_trips d) as [|[t' sts'] trips IH]; intros Hnd Hin.
  - by apply elem_of_nil in Hin.
  - rewrite fmap_cons in Hnd. apply NoDup_cons in Hnd as [Hnotin Hnd].
    cbn [list_find]. simpl in *. case_decide as Ht.
    + subst t'. apply elem_of_cons in Hin as [?|Hin]; [by simplify_eq|].
      exfalso. apply Hnotin. apply list_elem_of_fmap. by exists (t, sts).
    + apply elem_of_cons in Hin as [?|Hin]; [by simplify_eq|].
      specialize (IH Hnd Hin).
      by destruct (list_find _ trips) as [[i [t0 s0]]|].
Qed.

(** The stop time of a trip at one of its stops is among its stop times. *)
Lemma get_stop_elem t p :
  p ∈ Structures.stop_sequence (Structures.trip_stop_times d t) →
  Structures.get_stop d t p ∈ Structures.trip_stop_times d t
  ∧ tst_stop (Structures.get_stop d t p) = p.
Proof.
  unfold Structures.get_stop, Structures.stop_sequence.
  intros (e & ? & He)%list_elem_of_fmap.
  destruct (list_find_elem_of (λ x : Structures.StopTime, tst_stop x = p)
              _ e He) as [[i x] Hfind]; [done|].
  rewrite Hfind. apply list_find_Some in Hfind as (Hx & ? & _).
  split; [|done]. by eapply list_elem_of_lookup_2.
Qed.

(** Non-decreasing stop times of trips that are well formed make the
    boarding of the traversal sound. *)
Lemma built_boarding_sound :
  Structures.trips_well_formed d → Structures.trips_non_decreasing d →
  boarding_sound (Structures.timetable d).
Proof.
  intros [Hids Hwf] Hmono r dts pre c post tst Hroute Hearliest.
  simpl in Hroute, Hearliest. subst r.
  unfold Structures.earliest_trip_stop_time in Hearliest.
  apply first_departure_elem, list_elem_of_filter in Hearliest as [Hdts Htst].
  split; [done|].
  apply list_elem_of_fmap in Htst as (t & -> & Ht).
  unfold Structures.route_trips in Ht.
  apply list_elem_of_fmap in Ht as ([t' sts] & -> & [Hseq Hin]%list_elem_of_filter).
  simpl in *.
  pose proof (trip_stop_times_lookup _ _ Hids Hin) as Htimes.
  eapply Forall_forall in Hwf as [Hnames Hnodup]; [|done].
  eapply Forall_forall in Hmono as [Hsorted _]; [|done]. simpl in *.
  (* the stop time at [c] and the one at a later stop [q] *)
  assert (c ∈ Structures.stop_sequence (Structures.trip_stop_times d t')) as Hc.
  { rewrite Htimes, Hseq. apply elem_of_app. right. by left. }
  destruct (get_stop_elem _ _ Hc) as [Hec Hstopc].
  assert (tst_trip (Structures.get_stop d t' c) = t') as ->.
  { rewrite Htimes in Hec. by eapply Forall_forall in Hnames. }
  intros q Hq.
  assert (q ∈ Structures.stop_sequence (Structures.trip_stop_times d t')) as Hq'.
  { rewrite Htimes, Hseq. apply elem_of_app. right. by right. }
  destruct (get_stop_elem _ _ Hq') as [Heq Hstopq].
  rewrite Htimes in Hec, Heq.
  unfold Structures.stop_sequence in Hseq.
  apply fmap_app_inv in Hseq as (s1 & s2' & -> & Hs2 & ->).
  symmetry in Hs2. apply fmap_cons_inv in Hs2 as (ec & s2 & -> & -> & ->).
  unfold Structures.stop_sequence in Hnodup.
  rewrite fmap_app, fmap_cons in Hnodup.
  apply NoDup_app in Hnodup as (_ & Hdisj & [Hec2 _]%NoDup_cons).
  (* the stop time found at [c] is the one of the decomposition *)
  assert (Structures.get_stop d t' (tst_stop ec) = ec) as Hgetc.
  { apply elem_of_app in Hec as [Hin1|[->|Hin2]%elem_of_cons]; [|done|].
    - exfalso. apply (Hdisj (tst_stop ec)); [|by left].
      rewrite <- Hstopc. by apply list_elem_of_fmap_2.
    - exfalso. apply Hec2. rewrite <- Hstopc. by apply list_elem_of_fmap_2. }
  rewrite Hgetc.
  (* the stop time found at [q] comes after it *)
  assert (Structures.get_stop d t' q ∈ s2) as Hin2.
  { apply elem_of_app in Heq as [Hin1|[Heq|Hin2]%elem_of_cons]; [| |done].
    - exfalso. apply (Hdisj q); [|by right].
      rewrite <- Hstopq. by apply list_elem_of_fmap_2.
    - exfalso. apply Hec2. rewrite <- Heq, Hstopq. done. }
  apply StronglySorted_app in Hsorted as (_ & _ & Hsorted).
  apply StronglySorted_cons in Hsorted as [Hall _].
  by eapply Forall_forall in Hall.
Qed.

(** Positive layovers are non-negative. *)
Lemma built_layovers_non_negative :
  Structures.layovers_positive d → layovers_non_negative (Structures.timetable d).
Proof.
  intros Hpos c trs tr cost Htrs Htr Hcost. simpl in Htrs.
  case_decide; [|done]. simplify_eq.
  apply list_elem_of_filter in Htr as [_ Htr].
  eapply Forall_forall in Hpos; [|done]. rewrite Hcost in Hpos. lia.
Qed.

End Built.

Lemma timetable3_closed : timetable_closed Fixture.timetable3.
Proof.
  apply built_timetable_closed; apply (bool_decide_unpack _); by vm_compute.
Qed.

(** C4, witness: the point query of the fixture. *)
Lemma run_keys_are_the_stops_witness :
  timetable_closed Fixture.timetable3
  ∧ 0 ≤ 2
  ∧ Forall (λ p, p ∈ stops Fixture.timetable3) ["A"%string]
  ∧ ∃ bag st,
      Fixture.query 2 = Some bag
      ∧ Fixture.query_state 2 = Some st
      ∧ bag = bag_star st
      ∧ dom bag = stop_keys Fixture.timetable3
      ∧ (∀ p, p ∈ stops Fixture.timetable3 ↔ is_Some (bag !! inl p))
      ∧ (∀ s, bag !! inr s = None)
      ∧ (100 ≤ Fixture.LARGE → star_below_rounds st).
Proof.
  assert (Forall (λ p, p ∈ stops Fixture.timetable3) ["A"%string]) as Hfrom
    by (apply (bool_decide_unpack _); by vm_compute).
  split; [exact timetable3_closed|]. split; [lia|]. split; [exact Hfrom|].
  destruct (run_keys_are_the_stops Fixture.timetable3 Fixture.LARGE Marker
              Fixture.first_seen ["A"%string] "F"%string 100 2)
    as [Hreturns Hkeys].
  destruct (Hreturns timetable3_closed ltac:(lia) Hfrom) as [bag Hbag].
  exists bag. destruct (Hkeys bag Hbag) as [st Hst].
  exists st. split; [exact Hbag|exact Hst].
Defined.

(** C4 as stated fails: station A is a station of the timetable and is
    not a key of the returned table. *)
Lemma station_is_not_a_key :
  ∃ bag,
    Fixture.query 2 = Some bag
    ∧ "A"%string ∈ stations Fixture.timetable3
    ∧ bag !! inr "A"%string = None.
Proof.
  eexists. split; [vm_compute; reflexivity|].
  split; [apply (bool_decide_unpack _); by vm_compute|].
  by vm_compute.
Qed.

(** C7, witness: no origin stop, destination stop F. *)
Lemma no_origin_no_journey_witness :
  Forall (λ p, p ∈ stops Fixture.timetable3) ["F"%string]
  ∧ run_state Fixture.timetable3 Fixture.LARGE Marker Fixture.first_seen
              [] "F"%string 100 2
    = Some (init_state Fixture.timetable3 Fixture.LARGE "F"%string 2)
  ∧ ∃ bag,
      run Fixture.timetable3 Fixture.LARGE Marker Fixture.first_seen
          [] "F"%string 100 2 = Some bag
      ∧ best_stop_at_target_station Fixture.LARGE ["F"%string] bag = Some Zero.
Proof.
  assert (Forall (λ p, p ∈ stops Fixture.timetable3) ["F"%string]) as Hto
    by (apply (bool_decide_unpack _); by vm_compute).
  split; [exact Hto|].
  destruct (no_origin_no_journey Fixture.timetable3 Fixture.LARGE Marker
              Fixture.first_seen "F"%string 100 2 ["F"%string] Hto)
    as (_ & _ & Hstate & bag & Hrun & _ & Hbest & _).
  split; [exact Hstate|]. exists bag. split; [exact Hrun|exact Hbest].
Defined.

(** The point query from A to F with departure time 100, when every
    station code is one stop.  With two rounds the label of F has arrival
    time 1500, trip 202 and from-stop C, the selector picks F, and the
    journey is trip 101 from A to C (arrival 600) followed by trip 202 from
    C to F (arrival 1500).  With one round the label of F keeps the
    sentinel and no from-stop, and the query returns no journey.  This
    holds on the three trips 101, 202 and 303 and also on all rows of the
    data, which add the same trips one hour later. *)
Theorem fixture_point_query :
  let journey : @Journey Structures.Stop Structures.Trip :=
    [ mkLeg "A"%string "C"%string (ByTrip 101) 600;
      mkLeg "C"%string "F"%string (ByTrip 202) 1500 ] in
  (∃ bag,
     Fixture.query 2 = Some bag
     ∧ bag !! inl "F"%string = Some (mkLabel 1500 (ByTrip 202) (Some "C"%string))
     ∧ bag !! inl "C"%string = Some (mkLabel 600 (ByTrip 101) (Some "A"%string))
     ∧ bag !! inl "A"%string = Some (mkLabel 100 NoTrip None)
     ∧ best_stop_at_target_station Fixture.LARGE ["F"%string] bag
       = Some (FinalStop "F"%string)
     ∧ reconstruct_journey 3 "F"%string bag = Returns journey)
  ∧ (∃ bag,
       Fixture.query 1 = Some bag
       ∧ bag !! inl "F"%string = Some (mkLabel Fixture.LARGE NoTrip None)
       ∧ best_stop_at_target_station Fixture.LARGE ["F"%string] bag = Some Zero)
  ∧ (∀ timetable, timetable = Fixture.timetable3 ∨ timetable = Fixture.timetable6 →
       run_raptor timetable Fixture.LARGE Marker Fixture.first_seen
                  3 "A"%string "F"%string 100 2 = Returns (Some journey)
       ∧ run_raptor timetable Fixture.LARGE Marker Fixture.first_seen
                  3 "A"%string "F"%string 100 1 = Returns None).
Proof.
  intros journey. split; [|split].
  - eexists. split; [vm_compute; reflexivity|]. by vm_compute.
  - eexists. split; [vm_compute; reflexivity|]. by vm_compute.
  - intros timetable [-> | ->]; by vm_compute.
Qed.

(** The same point query when every platform is one stop: trip 101
    reaches station C at platform 1, the trips 202 and 303 leave it from
    platform 2.  Without transfers F is not reached.  With transfers of 60
    seconds between the platforms of a station the journey is trip 101,
    the walk from C-1 to C-2 and trip 202, with arrival time 1500; with 120
    seconds trip 202 is missed and the journey ends with trip 303, at
    1800.  With one round F is not reached in any of these timetables. *)
Lemma fixture_by_platform :
  let query layover rounds :=
    run_raptor
      (Structures.timetable
         (Fixture.by_platform layover (Fixture.data_with_offset 0 0)))
      Fixture.LARGE Marker Fixture.first_seen
      4 "A"%string "F"%string 100 rounds in
  let journey walk trip arrival : @Journey Structures.Stop Structures.Trip :=
    [ mkLeg "A-0"%string "C-1"%string (ByTrip 101) 600;
      mkLeg "C-1"%string "C-2"%string Marker walk;
      mkLeg "C-2"%string "F-0"%string (ByTrip trip) arrival ] in
  query None 2 = Returns None
  ∧ query (Some 60) 2 = Returns (Some (journey 660 202 1500))
  ∧ query (Some 120) 2 = Returns (Some (journey 720 303 1800))
  ∧ query None 1 = Returns None
  ∧ query (Some 60) 1 = Returns None
  ∧ query (Some 120) 1 = Returns None.
Proof. intros query journey. repeat split; by vm_compute. Qed.

(** C3, witness: the range query from A to F on all rows of the fixture. *)
Lemma range_query_filter_witness :
  ∃ journeys,
    Fixture.range_query "A"%string "F"%string = Returns journeys
    ∧ ∀ js1 b a js2,
        journeys = js1 ++ b :: a :: js2 →
        is_dominated Structures.Journey_bool
          (Structures.Journey_dep Fixture.default_data)
       (Structures.Journey_arr Fixture.default_data)
          b a = Some false.
Proof.
  assert (∃ journeys, Fixture.range_query "A"%string "F"%string = Returns journeys)
    as [journeys Hrun] by (vm_compute; eexists; reflexivity).
  exists journeys. split; [exact Hrun|].
  intros js1 b a js2 Hjs.
  exact (proj1 (proj2 (proj2
    (range_query_filter Fixture.timetable6 Fixture.LARGE Marker
       Fixture.first_seen Structures.Journey_bool
       (Structures.Journey_dep Fixture.default_data)
       (Structures.Journey_arr Fixture.default_data)
       10 "A"%string "F"%string 0 5000 2 journeys Hrun)) js1 b a js2 Hjs)).
Defined.

(** C3 as stated fails: the range query from A to F accepts the journey
    that departs at 3700 and arrives at 5100 and then the journey that
    departs at 100 and arrives at 1500; in append order the arrival times
    go down, not up. *)
Lemma accepted_arrivals_decrease :
  ∃ j1 j2,
    Fixture.range_query "A"%string "F"%string = Returns [j1; j2]
    ∧ Structures.Journey_dep Fixture.default_data j1 = Some 3700
    ∧ Structures.Journey_arr Fixture.default_data j1 = Some 5100
    ∧ Structures.Journey_dep Fixture.default_data j2 = Some 100
    ∧ Structures.Journey_arr Fixture.default_data j2 = Some 1500
    ∧ 1500 < 5100.
Proof.
  eexists _, _. split; [vm_compute; reflexivity|]. by vm_compute.
Qed.

(** The same range query: no journey of its result is followed by an
    equal one. *)
Lemma equal_journey_dominated_witness :
  ∃ journeys,
    Fixture.range_query "A"%string "F"%string = Returns journeys
    ∧ ∀ js1 b a js2,
        journeys = js1 ++ b :: a :: js2 →
        Structures.Journey_bool b = true → a ≠ b.
Proof.
  assert (∃ journeys, Fixture.range_query "A"%string "F"%string = Returns journeys)
    as [journeys Hrun] by (vm_compute; eexists; reflexivity).
  exists journeys. split; [exact Hrun|].
  exact (proj2 (proj2
    (equal_journey_dominated Fixture.timetable6 Fixture.LARGE Marker
       Fixture.first_seen Structures.Journey_bool
       (Structures.Journey_dep Fixture.default_data)
       (Structures.Journey_arr Fixture.default_data)
       10 "A"%string "F"%string 0 5000 2 journeys Hrun))).
Defined.

(** C10, at the failing input: the journey without legs, which is false
    as a sequence.  [is_dominated] returns False for it against itself,
    and the range query from A to A, whose journeys have no leg, appends it
    twice in a row. *)
Lemma empty_journey_repeated :
  is_dominated Structures.Journey_bool
    (Structures.Journey_dep Fixture.default_data)
       (Structures.Journey_arr Fixture.default_data)
    [] [] = Some false
  ∧ Fixture.range_query "A"%string "A"%string = Returns [[]; []].
Proof. split; by vm_compute. Qed.

(** C6, witness: the transfer from platform C1, reached at 600 by trip
    101, to platform C2. *)
Lemma transfer_relaxation_witness :
  round_label Fixture.platform_acc.1 1 (inl "C1"%string)
    = Some (mkLabel 600 (ByTrip 101) (Some "A"%string))
  ∧ from_stop_idx Fixture.platform_timetable "C1"%string
    = Some [mkTransfer "C1"%string "C2"%string (Some 30)]
  ∧ relax_stop Fixture.platform_timetable Marker 1 Fixture.platform_acc "C1"%string
    = foldM (relax_transfer Marker 1 "C1"%string 600) Fixture.platform_acc
            [mkTransfer "C1"%string "C2"%string (Some 30)].
Proof.
  assert (round_label Fixture.platform_acc.1 1 (inl "C1"%string)
          = Some (mkLabel 600 (ByTrip 101) (Some "A"%string))) as Hlc
    by by vm_compute.
  assert (from_stop_idx Fixture.platform_timetable "C1"%string
          = Some [mkTransfer "C1"%string "C2"%string (Some 30)]) as Htrs
    by by vm_compute.
  split; [exact Hlc|]. split; [exact Htrs|].
  exact (proj1 (proj2 (transfer_relaxation Fixture.platform_timetable Marker 1
                         "C1"%string _ _ Fixture.platform_acc Hlc Htrs))).
Defined.

(** The transfer phase on that state: C2 gets the label (630, marker, C1)
    in round 1 and in [bag_star], and is marked. *)
Example platform_transfer :
  ∃ st,
    add_transfer_time Fixture.platform_timetable Marker Fixture.platform_acc.1 1
                      Fixture.platform_acc.2 = Some (st, ["C2"%string])
    ∧ bag_star st !! inl "C2"%string
      = Some (mkLabel 630 Marker (Some "C1"%string))
    ∧ round_label st 1 (inl "C2"%string)
      = Some (mkLabel 630 Marker (Some "C1"%string)).
Proof. eexists. split; [vm_compute; reflexivity|]. by vm_compute. Qed.

Lemma platform_boarding_sound : boarding_sound Fixture.platform_timetable.
Proof.
  apply built_boarding_sound.
  - unfold Structures.trips_well_formed. apply (bool_decide_unpack _).
    by vm_compute.
  - unfold Structures.trips_non_decreasing, Structures.non_decreasing.
    apply (bool_decide_unpack _). by vm_compute.
Qed.

Lemma platform_layovers : layovers_non_negative Fixture.platform_timetable.
Proof.
  apply built_layovers_non_negative.
  unfold Structures.layovers_positive. repeat constructor.
Qed.


(** The journey of that query: trip 101, the walk between the platforms,
    trip 202. *)
Example platform_journey :
  ∃ bag,
    Fixture.platform_query = Some bag
    ∧ reconstruct_journey 4 "F"%string bag
      = Returns [ mkLeg "A"%string "C1"%string (ByTrip 101) 600;
                  mkLeg "C1"%string "C2"%string Marker 630;
                  mkLeg "C2"%string "F"%string (ByTrip 202) 1500 ].
Proof. eexists. split; [vm_compute; reflexivity|]. by vm_compute. Qed.


(** ** The further properties on the fixtures *)

(** The selector on the table of the platform query, with the stops C2, C1
    and F: C1 has the smallest arrival time, 600. *)
Lemma best_stop_first_minimum_witness :
  best_stop_at_target_station Fixture.LARGE ["C2"; "C1"; "F"]%string
    Fixture.platform_bag = Some (FinalStop "C1"%string)
  ∧ ∃ pre post ls,
      ["C2"; "C1"; "F"]%string = pre ++ "C1"%string :: post
      ∧ Fixture.platform_bag !! inl "C1"%string = Some ls
      ∧ earliest_arrival_time ls < Fixture.LARGE
      ∧ (∀ q, q ∈ pre →
           ∃ lq, Fixture.platform_bag !! inl q = Some lq
                 ∧ earliest_arrival_time ls < earliest_arrival_time lq)
      ∧ (∀ q, q ∈ post →
           ∃ lq, Fixture.platform_bag !! inl q = Some lq
                 ∧ earliest_arrival_time ls ≤ earliest_arrival_time lq).
Proof.
  assert (best_stop_at_target_station Fixture.LARGE ["C2"; "C1"; "F"]%string
            Fixture.platform_bag = Some (FinalStop "C1"%string)) as Hbest
    by by vm_compute.
  split; [exact Hbest|].
  exact (best_stop_first_minimum Fixture.LARGE _ _ _ Hbest).
Defined.

(** [accumulate_routes] on the fixture, with C marked before A: the route
    from A to C is paired with A, which was marked later and comes
    earlier in the route. *)
Lemma accumulate_routes_earliest_witness :
  (["A"; "C"]%string, "A"%string)
    ∈ accumulate_routes Fixture.timetable3 ["C"; "A"]%string
  ∧ earliest_marked Fixture.timetable3 ["C"; "A"]%string
                    ["A"; "C"]%string "A"%string.
Proof.
  assert ((["A"; "C"]%string, "A"%string)
            ∈ accumulate_routes Fixture.timetable3 ["C"; "A"]%string) as Hin
    by (apply (bool_decide_unpack _); by vm_compute).
  split; [exact Hin|].
  exact (accumulate_routes_earliest Fixture.timetable3 _ _ _ Hin).
Defined.

(** The journey of the platform query: three connected legs from A to
    F. *)
Lemma reconstruct_journey_path_witness :
  ∃ journey,
    reconstruct_journey 4 "F"%string Fixture.platform_bag = Returns journey
    ∧ length journey = 3%nat
    ∧ (∀ leg, leg ∈ journey → leg_of_label Fixture.platform_bag leg)
    ∧ legs_connected journey
    ∧ match last journey with
      | Some leg => leg_to_stop leg = "F"%string
      | None => ∃ l, Fixture.platform_bag !! inl "F"%string = Some l
                     ∧ from_stop l = None
      end
    ∧ ∃ l, Fixture.platform_bag
             !! inl (default "F"%string (leg_from_stop <$> head journey))
           = Some l
           ∧ from_stop l = None.
Proof.
  eexists. split; [vm_compute; reflexivity|]. split; [reflexivity|].
  apply (reconstruct_journey_path Fixture.platform_bag "F"%string 4).
  vm_compute. reflexivity.
Defined.

(** A table in which A and B name each other as from-stop: the loop of
    [reconstruct_journey] runs out of every amount of fuel. *)
Lemma reconstruct_journey_diverges_witness :
  (∀ p : string, p = "A"%string ∨ p = "B"%string →
     ∃ l q, Fixture.loop_bag !! inl p = Some l ∧ from_stop l = Some q
            ∧ (q = "A"%string ∨ q = "B"%string))
  ∧ ∀ fuel, reconstruct_journey fuel "A"%string Fixture.loop_bag = OutOfFuel.
Proof.
  assert (∀ p : string, p = "A"%string ∨ p = "B"%string →
            ∃ l q, Fixture.loop_bag !! inl p = Some l ∧ from_stop l = Some q
                   ∧ (q = "A"%string ∨ q = "B"%string)) as Hcycle.
  { intros p [-> | ->]; eexists _, _; (split; [vm_compute; reflexivity|]);
      (split; [reflexivity|]); auto. }
  split; [exact Hcycle|].
  exact (reconstruct_journey_diverges Fixture.loop_bag
           (λ p, p = "A"%string ∨ p = "B"%string) "A"%string Hcycle
           (or_introl eq_refl)).
Defined.

(** An origin stop Z that the fixture does not have: [run] raises. *)
Lemma run_raises_on_unknown_origin_witness :
  timetable_closed Fixture.timetable3
  ∧ 0 ≤ 2
  ∧ run Fixture.timetable3 Fixture.LARGE Marker Fixture.first_seen
        ["A"; "Z"]%string "F"%string 100 2 = None
  ∧ (run Fixture.timetable3 Fixture.LARGE Marker Fixture.first_seen
         ["A"; "Z"]%string "F"%string 100 2 = None
     ↔ ∃ p, p ∈ ["A"; "Z"]%string ∧ p ∉ stops Fixture.timetable3).
Proof.
  split; [exact timetable3_closed|]. split; [lia|].
  split; [by vm_compute|].
  apply (run_raises_on_unknown_origin Fixture.timetable3 Fixture.LARGE Marker
           Fixture.first_seen ["A"; "Z"]%string "F"%string 100 2
           timetable3_closed ltac:(lia)).
Defined.

(** The query of the fixture with -1 rounds raises. *)
Lemma run_negative_rounds_witness :
  -1 < 0
  ∧ run Fixture.timetable3 Fixture.LARGE Marker Fixture.first_seen
        ["A"]%string "F"%string 100 (-1) = None
  ∧ (run Fixture.timetable3 Fixture.LARGE Marker Fixture.first_seen
         ["A"]%string "F"%string 100 (-1) = None
     ↔ ["A"%string] ≠ []).
Proof.
  split; [lia|]. split; [by vm_compute|].
  apply (run_negative_rounds Fixture.timetable3 Fixture.LARGE Marker
           Fixture.first_seen ["A"]%string "F"%string 100 (-1) ltac:(lia)).
Defined.

(** The query of the fixture with two rounds: the labels of the stations
    in the bags of the rounds 0, 1 and 2. *)
Lemma station_labels_untouched_witness :
  ∃ st,
    Fixture.query_state 2 = Some st
    ∧ ∀ j s, round_label st j (inr s)
             = if decide (0 ≤ j ≤ 2 ∧ s ∈ stations Fixture.timetable3)
               then Some (new_Label Fixture.LARGE) else None.
Proof.
  assert (is_Some (Fixture.query_state 2)) as [st Hst]
    by (apply (bool_decide_unpack _); by vm_compute).
  exists st. split; [exact Hst|].
  exact (station_labels_untouched Fixture.timetable3 Fixture.LARGE Marker
           Fixture.first_seen ["A"%string] "F"%string 100 2 st Hst).
Defined.

(** The same query: the bag of round 0. *)
Lemma round_zero_holds_origins_witness :
  ∃ st,
    Fixture.query_state 2 = Some st
    ∧ ∀ p l, round_label st 0 (inl p) = Some l →
        l = if decide (p ∈ ["A"%string])
            then mkLabel 100 NoTrip None
            else new_Label Fixture.LARGE.
Proof.
  assert (is_Some (Fixture.query_state 2)) as [st Hst]
    by (apply (bool_decide_unpack _); by vm_compute).
  exists st. split; [exact Hst|].
  exact (round_zero_holds_origins Fixture.timetable3 Fixture.LARGE Marker
           Fixture.first_seen ["A"%string] "F"%string 100 2 st Hst).
Defined.

(** The same query: the labels without from-stop of the table returned. *)
Lemma labels_without_from_stop_witness :
  ∃ bag,
    Fixture.query 2 = Some bag
    ∧ ∀ p l, bag !! inl p = Some l → from_stop l = None →
        l = new_Label Fixture.LARGE
        ∨ (p ∈ ["A"%string] ∧ l = mkLabel 100 NoTrip None).
Proof.
  assert (is_Some (Fixture.query 2)) as [bag Hbag]
    by (apply (bool_decide_unpack _); by vm_compute).
  exists bag. split; [exact Hbag|].
  exact (labels_without_from_stop Fixture.timetable3 Fixture.LARGE Marker
           Fixture.first_seen ["A"%string] "F"%string 100 2 bag Hbag).
Defined.

(** The range query from A to F on all rows of the fixture: its two
    journeys are the answers of the point queries at 3700 and at 100. *)
Lemma range_journeys_are_point_queries_witness :
  ∃ journeys,
    Fixture.range_query "A"%string "F"%string = Returns journeys
    ∧ ∃ ds,
        ds `sublist_of` potential_dep_secs Fixture.timetable6
                          (station_stops Fixture.timetable6 "A"%string) 0 5000
        ∧ length journeys = length ds
        ∧ Forall2 (λ d journey,
                     run_raptor Fixture.timetable6 Fixture.LARGE Marker
                                Fixture.first_seen 10 "A"%string "F"%string d 2
                     = Returns (Some journey))
                  ds journeys.
Proof.
  assert (∃ journeys, Fixture.range_query "A"%string "F"%string = Returns journeys)
    as [journeys Hrun] by (vm_compute; eexists; reflexivity).
  exists journeys. split; [exact Hrun|].
  exact (range_journeys_are_point_queries Fixture.timetable6 Fixture.LARGE
           Marker Fixture.first_seen Structures.Journey_bool
           (Structures.Journey_dep Fixture.default_data)
       (Structures.Journey_arr Fixture.default_data)
           10 "A"%string "F"%string 0 5000 2 journeys Hrun).
Defined.

Lemma platform_closed : timetable_closed Fixture.platform_timetable.
Proof.
  apply built_timetable_closed; apply (bool_decide_unpack _); by vm_compute.
Qed.

(** The platform query: no label holds an arrival time before 100. *)
Lemma no_arrival_before_departure_witness :
  boarding_sound Fixture.platform_timetable
  ∧ layovers_non_negative Fixture.platform_timetable
  ∧ ∃ bag,
      Fixture.platform_query = Some bag
      ∧ ∀ p l, bag !! inl p = Some l →
          Z.min 100 Fixture.LARGE ≤ earliest_arrival_time l.
Proof.
  split; [exact platform_boarding_sound|].
  split; [exact platform_layovers|].
  assert (is_Some Fixture.platform_query) as [bag Hbag]
    by (apply (bool_decide_unpack _); by vm_compute).
  exists bag. split; [exact Hbag|].
  exact (no_arrival_before_departure Fixture.platform_timetable Fixture.LARGE
           Marker Fixture.first_seen platform_boarding_sound platform_layovers
           ["A"%string] "F"%string 100 2 bag Hbag).
Defined.

(** The point query from A to F on the timetable with platforms: trip
    101, the walk from C1 to C2, trip 202. *)
Lemma run_raptor_journey_witness :
  boarding_sound Fixture.platform_timetable
  ∧ layovers_non_negative Fixture.platform_timetable
  ∧ run_raptor Fixture.platform_timetable Fixture.LARGE Marker
               Fixture.first_seen 4 "A"%string "F"%string 100 2
    = Returns (Some Fixture.platform_legs)
  ∧ legs_connected Fixture.platform_legs
  ∧ (∀ js1 a b js2, Fixture.platform_legs = js1 ++ a :: b :: js2 →
       leg_earliest_arrival_time a ≤ leg_earliest_arrival_time b)
  ∧ (∀ leg, leg ∈ Fixture.platform_legs →
       100 ≤ leg_earliest_arrival_time leg).
Proof.
  assert (run_raptor Fixture.platform_timetable Fixture.LARGE Marker
                     Fixture.first_seen 4 "A"%string "F"%string 100 2
          = Returns (Some Fixture.platform_legs)) as Hquery
    by (vm_compute; reflexivity).
  split; [exact platform_boarding_sound|].
  split; [exact platform_layovers|]. split; [exact Hquery|].
  destruct (run_raptor_journey Fixture.platform_timetable Fixture.LARGE
              Marker Fixture.first_seen platform_boarding_sound
              platform_layovers 4 "A"%string "F"%string 100 2 _ Hquery)
    as (Hcon & _ & _ & Hsorted & Hlow & _).
  split; [exact Hcon|]. split; [exact Hsorted|exact Hlow].
Defined.

(** The point query on that timetable returns for every amount of fuel
    from some amount on. *)
Lemma run_raptor_returns_witness :
  boarding_sound Fixture.platform_timetable
  ∧ layovers_non_negative Fixture.platform_timetable
  ∧ timetable_closed Fixture.platform_timetable
  ∧ 0 ≤ 2
  ∧ "A"%string ∈ stations Fixture.platform_timetable
  ∧ "F"%string ∈ stations Fixture.platform_timetable
  ∧ Forall (λ p, p ∈ stops Fixture.platform_timetable)
           (station_stops Fixture.platform_timetable "A"%string)
  ∧ Forall (λ p, p ∈ stops Fixture.platform_timetable)
           (station_stops Fixture.platform_timetable "F"%string)
  ∧ ∃ res n, ∀ fuel, (n ≤ fuel)%nat →
      run_raptor Fixture.platform_timetable Fixture.LARGE Marker
                 Fixture.first_seen fuel "A"%string "F"%string 100 2
      = Returns res.
Proof.
  assert ("A"%string ∈ stations Fixture.platform_timetable) as Horigin
    by (apply (bool_decide_unpack _); by vm_compute).
  assert ("F"%string ∈ stations Fixture.platform_timetable) as Hdest
    by (apply (bool_decide_unpack _); by vm_compute).
  assert (Forall (λ p, p ∈ stops Fixture.platform_timetable)
            (station_stops Fixture.platform_timetable "A"%string)) as Hfrom
    by (apply (bool_decide_unpack _); by vm_compute).
  assert (Forall (λ p, p ∈ stops Fixture.platform_timetable)
            (station_stops Fixture.platform_timetable "F"%string)) as Hto
    by (apply (bool_decide_unpack _); by vm_compute).
  split; [exact platform_boarding_sound|].
  split; [exact platform_layovers|].
  split; [exact platform_closed|]. split; [lia|].
  split; [exact Horigin|]. split; [exact Hdest|].
  split; [exact Hfrom|]. split; [exact Hto|].
  exact (run_raptor_returns Fixture.platform_timetable Fixture.LARGE Marker
           Fixture.first_seen platform_boarding_sound platform_layovers
           "A"%string "F"%string 100 2 platform_closed ltac:(lia)
           Horigin Hdest Hfrom Hto).
Defined.

(** On that timetable the range query with the window from 0 to 5000
    tries the departure time 100 only, and the journey of that point query
    has a trip as its first and as its last leg. *)
Lemma platform_journey_times fuel d journey :
  d ∈ potential_dep_secs Fixture.platform_timetable
        (station_stops Fixture.platform_timetable "A"%string) 0 5000 →
  run_raptor Fixture.platform_timetable Fixture.LARGE Marker
             Fixture.first_seen fuel "A"%string "F"%string d 2
    = Returns (Some journey) →
  has_times (Structures.Journey_dep Fixture.platform_data)
            (Structures.Journey_arr Fixture.platform_data) journey.
Proof.
  intros Hd Hquery.
  assert (potential_dep_secs Fixture.platform_timetable
            (station_stops Fixture.platform_timetable "A"%string) 0 5000
          = [100]) as Hds by by vm_compute.
  rewrite Hds in Hd. apply list_elem_of_singleton in Hd as ->.
  assert (journey = Fixture.platform_legs) as ->.
  { destruct fuel as [|[|[|[|fuel]]]]; vm_compute in Hquery;
      by simplify_eq. }
  split; eexists; vm_compute; reflexivity.
Qed.

(** And so does the range query on it, here with the window from 0 to
    5000. *)
Lemma run_range_raptor_returns_witness :
  boarding_sound Fixture.platform_timetable
  ∧ layovers_non_negative Fixture.platform_timetable
  ∧ timetable_closed Fixture.platform_timetable
  ∧ 0 ≤ 2
  ∧ "A"%string ∈ stations Fixture.platform_timetable
  ∧ "F"%string ∈ stations Fixture.platform_timetable
  ∧ Forall (λ p, p ∈ stops Fixture.platform_timetable)
           (station_stops Fixture.platform_timetable "A"%string)
  ∧ Forall (λ p, p ∈ stops Fixture.platform_timetable)
           (station_stops Fixture.platform_timetable "F"%string)
  ∧ (∀ fuel d journey,
       d ∈ potential_dep_secs Fixture.platform_timetable
             (station_stops Fixture.platform_timetable "A"%string) 0 5000 →
       run_raptor Fixture.platform_timetable Fixture.LARGE Marker
                  Fixture.first_seen fuel "A"%string "F"%string d 2
         = Returns (Some journey) →
       has_times (Structures.Journey_dep Fixture.platform_data)
                 (Structures.Journey_arr Fixture.platform_data) journey)
  ∧ ∃ journeys n, ∀ fuel, (n ≤ fuel)%nat →
      run_range_raptor Fixture.platform_timetable Fixture.LARGE Marker
        Fixture.first_seen Structures.Journey_bool
        (Structures.Journey_dep Fixture.platform_data)
        (Structures.Journey_arr Fixture.platform_data)
        fuel "A"%string "F"%string 0 5000 2 = Returns journeys.
Proof.
  assert ("A"%string ∈ stations Fixture.platform_timetable) as Horigin
    by (apply (bool_decide_unpack _); by vm_compute).
  assert ("F"%string ∈ stations Fixture.platform_timetable) as Hdest
    by (apply (bool_decide_unpack _); by vm_compute).
  assert (Forall (λ p, p ∈ stops Fixture.platform_timetable)
            (station_stops Fixture.platform_timetable "A"%string)) as Hfrom
    by (apply (bool_decide_unpack _); by vm_compute).
  assert (Forall (λ p, p ∈ stops Fixture.platform_timetable)
            (station_stops Fixture.platform_timetable "F"%string)) as Hto
    by (apply (bool_decide_unpack _); by vm_compute).
  split; [exact platform_boarding_sound|].
  split; [exact platform_layovers|].
  split; [exact platform_closed|]. split; [lia|].
  split; [exact Horigin|]. split; [exact Hdest|].
  split; [exact Hfrom|]. split; [exact Hto|].
  split; [exact platform_journey_times|].
  exact (run_range_raptor_returns Fixture.platform_timetable Fixture.LARGE
           Marker Fixture.first_seen platform_boarding_sound platform_layovers
           Structures.Journey_bool
           (Structures.Journey_dep Fixture.platform_data)
           (Structures.Journey_arr Fixture.platform_data)
           "A"%string "F"%string 0 5000 2 platform_closed ltac:(lia)
           Horigin Hdest Hfrom Hto platform_journey_times).
Defined.

(** The query of the fixture with two rounds: each label of a stop in the
    table has its reason. *)
Lemma labels_have_reasons_witness :
  100 ≤ Fixture.LARGE
  ∧ ∃ st,
      Fixture.query_state 2 = Some st
      ∧ ∀ p l, bag_star st !! inl p = Some l →
          l = new_Label Fixture.LARGE
          ∨ (p ∈ ["A"%string] ∧ l = mkLabel 100 NoTrip None)
          ∨ ∃ k, 1 ≤ k ≤ 2
                 ∧ (by_trip Fixture.timetable3 st k p l
                    ∨ by_transfer Fixture.timetable3 Marker st k p l).
Proof.
  assert (100 ≤ Fixture.LARGE) as Hdep by (by vm_compute).
  split; [exact Hdep|].
  assert (is_Some (Fixture.query_state 2)) as [st Hst]
    by (apply (bool_decide_unpack _); by vm_compute).
  exists st. split; [exact Hst|].
  exact (labels_have_reasons Fixture.timetable3 Fixture.LARGE Marker
           Fixture.first_seen ["A"%string] "F"%string 100 2 st Hdep Hst).
Defined.

(** The query of the fixture with one round and with two. *)
Lemma more_rounds_never_hurt_witness :
  0 ≤ 1
  ∧ ∃ st',
      Fixture.query_state (1 + 1) = Some st'
      ∧ ∃ st, Fixture.query_state 1 = Some st ∧ star_le st' st.
Proof.
  assert (0 ≤ 1) as Hpos by lia.
  split; [exact Hpos|].
  assert (is_Some (Fixture.query_state (1 + 1))) as [st' Hst']
    by (apply (bool_decide_unpack _); by vm_compute).
  exists st'. split; [exact Hst'|].
  exact (more_rounds_never_hurt Fixture.timetable3 Fixture.LARGE Marker
           Fixture.first_seen ["A"%string] "F"%string 100 1 1 st'
           Hpos Hpos Hst').
Defined.
